(** * The options visitor (qapi/opts-visitor.c): model and properties

    The visitor decodes a flat list of [QemuOpt] name/value pairs into typed
    values.  It keeps a hash table from option names to queues of the
    occurrences not processed yet, and a five-state list mode with which one
    occurrence of a repeated option can be expanded into an integer interval.

    The C functions are embedded as functions on an explicit visitor state.
    The [GQueue] objects are shared between the hash table and the
    [repeated_opts] pointer, so they live in a store addressed by locations,
    and both the table and [repeated_opts] hold locations. *)

From stdpp Require Import gmap strings list fin_maps.
From Stdlib Require Import ZArith Ascii String Lia.

Local Open Scope Z_scope.

Set Warnings "-clear-no-such-hyp".

(** ** Integer limits *)

Definition INT64_MIN : Z := - 2 ^ 63.
Definition INT64_MAX : Z := 2 ^ 63 - 1.
Definition UINT64_MAX : Z := 2 ^ 64 - 1.
Definition ERANGE : Z := 34.
Definition EINVAL : Z := 22.

(** The two views of the [range_next] / [range_limit] unions: the 64 stored
    bits are kept as the unsigned value, [to_s64] reads them as [int64_t] and
    [of_s64] stores an [int64_t]. *)
Definition to_s64 (u : Z) : Z := if u <? 2 ^ 63 then u else u - 2 ^ 64.
Definition of_s64 (v : Z) : Z := v mod 2 ^ 64.

(** An [int64_t] computation whose mathematical result is [z]: [None] when
    the result does not fit (signed overflow). *)
Definition checked_s64 (z : Z) : option Z :=
  if (INT64_MIN <=? z) && (z <=? INT64_MAX) then Some z else None.

(** ** The C library's integer parsers, base 0 *)

Definition isspace (c : ascii) : bool :=
  let n := Z.of_nat (nat_of_ascii c) in
  (n =? 32) || ((9 <=? n) && (n <=? 13)).

Fixpoint skip_space (s : string) : string :=
  match s with
  | String c r => if isspace c then skip_space r else s
  | EmptyString => s
  end.

Definition digit_of (c : ascii) : option Z :=
  let n := Z.of_nat (nat_of_ascii c) in
  if (48 <=? n) && (n <=? 57) then Some (n - 48)
  else if (97 <=? n) && (n <=? 122) then Some (n - 87)
  else if (65 <=? n) && (n <=? 90) then Some (n - 55)
  else None.

Definition digit_in (base : Z) (c : ascii) : option Z :=
  match digit_of c with
  | Some d => if d <? base then Some d else None
  | None => None
  end.

(** Reads the longest run of digits of [base], accumulating the value;
    returns it with the text left. *)
Fixpoint scan_digits (base acc : Z) (s : string) : Z * string :=
  match s with
  | String c r =>
      match digit_in base c with
      | Some d => scan_digits base (acc * base + d) r
      | None => (acc, s)
      end
  | EmptyString => (acc, s)
  end.

(** The part of the text after white space and sign: hexadecimal after
    [0x] followed by a hexadecimal digit, octal after [0], decimal
    otherwise.  [None] when no digit can be read. *)
Definition scan_number (s : string) : option (Z * string) :=
  match s with
  | String "0" (String x (String h r)) =>
      if (Ascii.eqb x "x" || Ascii.eqb x "X") && bool_decide (is_Some (digit_in 16 h))
      then Some (scan_digits 16 0 (String h r))
      else Some (scan_digits 8 0 s)
  | String "0" _ => Some (scan_digits 8 0 s)
  | String c _ =>
      match digit_in 10 c with
      | Some _ => Some (scan_digits 10 0 s)
      | None => None
      end
  | EmptyString => None
  end.

(** The subject sequence of [strtoll] and [strtoull]: sign, magnitude and the
    text after the last digit; [None] when no conversion can be done. *)
Definition scan_subject (s : string) : option (bool * Z * string) :=
  match skip_space s with
  | String "-" r => (λ p : Z * string, (true, p.1, p.2)) <$> scan_number r
  | String "+" r => (λ p : Z * string, (false, p.1, p.2)) <$> scan_number r
  | r => (λ p : Z * string, (false, p.1, p.2)) <$> scan_number r
  end.

(** [strtoll errno s] is [(value, endptr, errno')]: [endptr] is given as the
    text from the end pointer on, and [errno] is left alone unless the value
    is out of range.  With no conversion the end pointer is [s] itself. *)
Definition strtoll (errno : Z) (s : string) : Z * string * Z :=
  match scan_subject s with
  | None => (0, s, errno)
  | Some (neg, mag, rest) =>
      let v := if neg then - mag else mag in
      if INT64_MAX <? v then (INT64_MAX, rest, ERANGE)
      else if v <? INT64_MIN then (INT64_MIN, rest, ERANGE)
      else (v, rest, errno)
  end.

Definition strtoull (errno : Z) (s : string) : Z * string * Z :=
  match scan_subject s with
  | None => (0, s, errno)
  | Some (neg, mag, rest) =>
      if UINT64_MAX <? mag then (UINT64_MAX, rest, ERANGE)
      else ((if neg then (- mag) mod 2 ^ 64 else mag), rest, errno)
  end.

(** [endptr > str] for an end pointer into [str]. *)
Definition advanced (str rest : string) : bool :=
  (String.length rest <? String.length str)%nat.

(** ** parse_uint and parse_uint_full (util/cutils.c) *)

(** Modelled from the spec: [parse_uint] is defined in util/cutils.c, which is
    not among the sources.  It is the unsigned parser of decodeUint64: the
    syntax of [strtoull], no unary minus, and a null string is an error like
    any text that is not a number.  The result is
    [(return value, *value, *endptr)]; the string and the end pointer may be
    null. *)
Definition parse_uint (s : option string) : Z * Z * option string :=
  match s with
  | None => (- EINVAL, 0, None)
  | Some s =>
      let '(val, endp, errno) := strtoull 0 s in
      if negb (errno =? 0) then (- errno, val, Some endp)
      else if negb (advanced s endp) then (- EINVAL, val, Some endp)
      else
        match skip_space s with
        | String "-" _ => (- ERANGE, 0, Some endp)
        | _ => (0, val, Some endp)
        end
  end.

(** Modelled from the spec: [parse_uint_full] comes from util/cutils.c as
    well: [parse_uint] that must consume the whole text.  The result is
    [(return value, *value)]. *)
Definition parse_uint_full (s : option string) : Z * Z :=
  let '(r, val, endp) := parse_uint s in
  if r <? 0 then (r, val)
  else
    match endp with
    | Some EmptyString => (0, val)
    | _ => (- EINVAL, 0)
    end.

(** ** Data model *)

(** A [QemuOpt] occurrence: its name and its value ([None] for a bare flag,
    [opt->str == NULL]).  The projections carry a prefix because [head] and
    [id] are taken. *)
Record QemuOpt := mkQemuOpt { opt_name : string; opt_str : option string }.

Record QemuOpts := mkQemuOpts { opts_id : option string; opts_head : list QemuOpt }.

Inductive ListMode :=
  | LM_NONE
  | LM_STARTED
  | LM_IN_PROGRESS
  | LM_SIGNED_INTERVAL
  | LM_UNSIGNED_INTERVAL.

Inductive Error :=
  | QERR_MISSING_PARAMETER (name : string)
  | QERR_INVALID_PARAMETER (name : string)
  | QERR_INVALID_PARAMETER_VALUE (name expected : string).

(** Addresses of [GQueue] objects. *)
Abbreviation loc := nat.

(** [struct OptsVisitor], with the store of the [GQueue] objects its pointers
    refer to: [gqueues] maps the address of every live queue to its content,
    and [next_loc] is the next address [g_queue_new] hands out (addresses are
    not reused, so that a freed queue stays dead).  [unprocessed_opts] is
    [None] for a null table; [range_next] and [range_limit] hold the 64 bits
    of the unions. *)
Record OptsVisitor := mkOptsVisitor {
  opts_root : QemuOpts;
  depth : Z;
  unprocessed_opts : option (gmap string loc);
  list_mode : ListMode;
  repeated_opts : option loc;
  range_next : Z;
  range_limit : Z;
  fake_id_opt : option QemuOpt;
  gqueues : gmap loc (list QemuOpt);
  next_loc : loc
}.

Definition set_depth (ov : OptsVisitor) (d : Z) : OptsVisitor :=
  mkOptsVisitor (opts_root ov) d (unprocessed_opts ov) (list_mode ov)
    (repeated_opts ov) (range_next ov) (range_limit ov) (fake_id_opt ov)
    (gqueues ov) (next_loc ov).

Definition set_unprocessed_opts (ov : OptsVisitor) (t : option (gmap string loc)) : OptsVisitor :=
  mkOptsVisitor (opts_root ov) (depth ov) t (list_mode ov)
    (repeated_opts ov) (range_next ov) (range_limit ov) (fake_id_opt ov)
    (gqueues ov) (next_loc ov).

Definition set_list_mode (ov : OptsVisitor) (m : ListMode) : OptsVisitor :=
  mkOptsVisitor (opts_root ov) (depth ov) (unprocessed_opts ov) m
    (repeated_opts ov) (range_next ov) (range_limit ov) (fake_id_opt ov)
    (gqueues ov) (next_loc ov).

Definition set_repeated_opts (ov : OptsVisitor) (r : option loc) : OptsVisitor :=
  mkOptsVisitor (opts_root ov) (depth ov) (unprocessed_opts ov) (list_mode ov)
    r (range_next ov) (range_limit ov) (fake_id_opt ov)
    (gqueues ov) (next_loc ov).

Definition set_range_next (ov : OptsVisitor) (n : Z) : OptsVisitor :=
  mkOptsVisitor (opts_root ov) (depth ov) (unprocessed_opts ov) (list_mode ov)
    (repeated_opts ov) n (range_limit ov) (fake_id_opt ov)
    (gqueues ov) (next_loc ov).

Definition set_range_limit (ov : OptsVisitor) (n : Z) : OptsVisitor :=
  mkOptsVisitor (opts_root ov) (depth ov) (unprocessed_opts ov) (list_mode ov)
    (repeated_opts ov) (range_next ov) n (fake_id_opt ov)
    (gqueues ov) (next_loc ov).

Definition set_fake_id_opt (ov : OptsVisitor) (f : option QemuOpt) : OptsVisitor :=
  mkOptsVisitor (opts_root ov) (depth ov) (unprocessed_opts ov) (list_mode ov)
    (repeated_opts ov) (range_next ov) (range_limit ov) f
    (gqueues ov) (next_loc ov).

Definition set_gqueues (ov : OptsVisitor) (h : gmap loc (list QemuOpt)) : OptsVisitor :=
  mkOptsVisitor (opts_root ov) (depth ov) (unprocessed_opts ov) (list_mode ov)
    (repeated_opts ov) (range_next ov) (range_limit ov) (fake_id_opt ov)
    h (next_loc ov).

Definition set_next_loc (ov : OptsVisitor) (n : loc) : OptsVisitor :=
  mkOptsVisitor (opts_root ov) (depth ov) (unprocessed_opts ov) (list_mode ov)
    (repeated_opts ov) (range_next ov) (range_limit ov) (fake_id_opt ov)
    (gqueues ov) n.

(** The result of a visitor function: [Fault] when the C code aborts (a failed
    [assert], [abort()]) or leaves defined behaviour (a null or dangling
    pointer is followed, a signed computation overflows); otherwise the
    visitor afterwards and what the function hands back. *)
Inductive Res (A : Type) :=
  | Fault
  | Ret (ov : OptsVisitor) (a : A).
Arguments Fault {A}.
Arguments Ret {A} ov a.

(** What a function with an output and an [errp] hands back: the output
    written, the error set, or neither ([Silent]: the function returned on a
    null pointer for which no error had been set). *)
Inductive Outcome (V : Type) :=
  | Ok (v : V)
  | Err (e : Error)
  | Silent.
Arguments Ok {V} v.
Arguments Err {V} e.
Arguments Silent {V}.

(** ** The hash table of queues *)

Definition ghr_true (ign_key : string) (ign_value : loc) : bool := true.

(** [g_hash_table_find]: the value of the first entry, in the table's own
    order, that the predicate accepts. *)
Definition g_hash_table_find (t : gmap string loc) (p : string → loc → bool) : option loc :=
  snd <$> List.find (λ kv, p kv.1 kv.2) (map_to_list t).

(** [g_hash_table_remove (ov->unprocessed_opts, key)]: the entry goes and
    [destroy_list] frees its queue.  [None] for a null table. *)
Definition g_hash_table_remove (ov : OptsVisitor) (key : string) : option OptsVisitor :=
  match unprocessed_opts ov with
  | None => None
  | Some t =>
      match t !! key with
      | None => Some ov
      | Some l =>
          Some (set_gqueues (set_unprocessed_opts ov (Some (delete key t)))
                            (delete l (gqueues ov)))
      end
  end.

(** [g_hash_table_destroy]: [destroy_list] frees every queue of the table. *)
Definition g_hash_table_destroy (t : gmap string loc) (h : gmap loc (list QemuOpt)) : gmap loc (list QemuOpt) :=
  filter (λ lq, lq.1 ∉ (map_img t : gset loc)) h.

(** The table under construction in [opts_start_struct]: the table, the
    store of queues and the next free address. *)
Definition Building : Type := gmap string loc * gmap loc (list QemuOpt) * loc.

(** [opts_visitor_insert]: a new queue for a new name, then the occurrence is
    pushed at the tail.  [None] when the queue found is not live. *)
Definition opts_visitor_insert (b : Building) (opt : QemuOpt) : option Building :=
  let '(t, h, n) := b in
  match t !! opt_name opt with
  | None => Some (<[opt_name opt := n]> t, <[n := [opt]]> h, S n)
  | Some l =>
      match h !! l with
      | Some q => Some (t, <[l := q ++ [opt]]> h, n)
      | None => None
      end
  end.

(** The [QTAILQ_FOREACH] loop of [opts_start_struct], with its assertion that
    no option is named "id". *)
Fixpoint insert_all (b : Building) (opts : list QemuOpt) : option Building :=
  match opts with
  | [] => Some b
  | opt :: rest =>
      if bool_decide (opt_name opt = "id"%string) then None
      else
        match opts_visitor_insert b opt with
        | Some b' => insert_all b' rest
        | None => None
        end
  end.

(** ** Struct start and end *)

Definition opts_start_struct (ov : OptsVisitor) : Res unit :=
  let d := depth ov in
  let ov1 := set_depth ov ((d + 1) mod 2 ^ 32) in
  if 0 <? d then Ret ov1 ()
  else
    match insert_all (∅, gqueues ov1, next_loc ov1) (opts_head (opts_root ov1)) with
    | None => Fault
    | Some b =>
        match opts_id (opts_root ov1) with
        | None =>
            let '(t, h, n) := b in
            Ret (set_next_loc (set_gqueues (set_unprocessed_opts ov1 (Some t)) h) n) ()
        | Some i =>
            let fake := mkQemuOpt "id" (Some i) in
            match opts_visitor_insert b fake with
            | None => Fault
            | Some (t, h, n) =>
                Ret (set_next_loc (set_gqueues
                       (set_unprocessed_opts (set_fake_id_opt ov1 (Some fake)) (Some t)) h) n) ()
            end
        end
    end.

(** [opts_end_struct]: the error set, if any, is handed back. *)
Definition opts_end_struct (ov : OptsVisitor) : Res (option Error) :=
  let d := (depth ov - 1) mod 2 ^ 32 in
  let ov1 := set_depth ov d in
  if 0 <? d then Ret ov1 None
  else
    match unprocessed_opts ov1 with
    | None => Fault
    | Some t =>
        let torn :=
          set_fake_id_opt
            (set_unprocessed_opts
               (set_gqueues ov1 (g_hash_table_destroy t (gqueues ov1))) None) None in
        match g_hash_table_find t ghr_true with
        | None => Ret torn None
        | Some any =>
            match gqueues ov1 !! any with
            | Some (first :: _) => Ret torn (Some (QERR_INVALID_PARAMETER (opt_name first)))
            | _ => Fault
            end
        end
    end.

(** ** Lists *)

(** [lookup_distinct]: the queue of [name], or the error for a missing
    parameter.  [None] for a null table. *)
Definition lookup_distinct (ov : OptsVisitor) (name : string) : option (Outcome loc) :=
  match unprocessed_opts ov with
  | None => None
  | Some t =>
      match t !! name with
      | Some l => Some (Ok l)
      | None => Some (Err (QERR_MISSING_PARAMETER name))
      end
  end.

Definition opts_start_list (ov : OptsVisitor) (name : string) : Res (option Error) :=
  match list_mode ov with
  | LM_NONE =>
      match lookup_distinct ov name with
      | None => Fault
      | Some (Ok l) => Ret (set_list_mode (set_repeated_opts ov (Some l)) LM_STARTED) None
      | Some (Err e) => Ret (set_repeated_opts ov None) (Some e)
      | Some Silent => Ret (set_repeated_opts ov None) None
      end
  | _ => Fault
  end.

(** The [LM_IN_PROGRESS] case of [opts_next_list]: the head of the queue is
    popped; when the queue is empty then, its name leaves the table and the
    list is over ([false], the null link). *)
Definition pop_repeated (ov : OptsVisitor) : Res bool :=
  match repeated_opts ov with
  | None => Fault
  | Some l =>
      match gqueues ov !! l with
      | Some (opt :: q) =>
          let ov1 := set_gqueues ov (<[l := q]> (gqueues ov)) in
          match q with
          | [] =>
              match g_hash_table_remove ov1 (opt_name opt) with
              | Some ov2 => Ret ov2 false
              | None => Fault
              end
          | _ => Ret ov1 true
          end
      | _ => Fault
      end
  end.

(** [opts_next_list]: [true] when a new link is handed back, [false] for the
    null pointer that ends the list. *)
Definition opts_next_list (ov : OptsVisitor) : Res bool :=
  match list_mode ov with
  | LM_STARTED => Ret (set_list_mode ov LM_IN_PROGRESS) true
  | LM_SIGNED_INTERVAL =>
      if to_s64 (range_next ov) <? to_s64 (range_limit ov)
      then Ret (set_range_next ov (of_s64 (to_s64 (range_next ov) + 1))) true
      else pop_repeated (set_list_mode ov LM_IN_PROGRESS)
  | LM_UNSIGNED_INTERVAL =>
      if range_next ov <? range_limit ov
      then Ret (set_range_next ov ((range_next ov + 1) mod 2 ^ 64)) true
      else pop_repeated (set_list_mode ov LM_IN_PROGRESS)
  | LM_IN_PROGRESS => pop_repeated ov
  | LM_NONE => Fault
  end.

Definition opts_end_list (ov : OptsVisitor) : Res unit :=
  match list_mode ov with
  | LM_NONE => Fault
  | _ => Ret (set_list_mode (set_repeated_opts ov None) LM_NONE) ()
  end.

(** ** Scalars *)

(** [lookup_scalar]: outside a list the last occurrence of [name] takes
    effect; inside one, the head of the queue being traversed.  [None] when
    the assertion fails or a pointer cannot be followed. *)
Definition lookup_scalar (ov : OptsVisitor) (name : string) : option (Outcome QemuOpt) :=
  match list_mode ov with
  | LM_NONE =>
      match lookup_distinct ov name with
      | None => None
      | Some (Ok l) =>
          match gqueues ov !! l with
          | None => None
          | Some q => Some (from_option Ok Silent (last q))
          end
      | Some (Err e) => Some (Err e)
      | Some Silent => Some Silent
      end
  | LM_IN_PROGRESS =>
      match repeated_opts ov with
      | None => None
      | Some l =>
          match gqueues ov !! l with
          | None => None
          | Some q => Some (from_option Ok Silent (head q))
          end
      end
  | _ => None
  end.

Definition processed (ov : OptsVisitor) (name : string) : option OptsVisitor :=
  match list_mode ov with
  | LM_NONE => g_hash_table_remove ov name
  | LM_IN_PROGRESS => Some ov
  | _ => None
  end.

(** The tail shared by the decoders: [*obj = v; processed(ov, name)]. *)
Definition store_processed {V : Type} (ov : OptsVisitor) (name : string) (v : V) : Res (Outcome V) :=
  match processed ov name with
  | Some ov' => Ret ov' (Ok v)
  | None => Fault
  end.

Definition opts_type_str (ov : OptsVisitor) (name : string) : Res (Outcome string) :=
  match lookup_scalar ov name with
  | None => Fault
  | Some (Err e) => Ret ov (Err e)
  | Some Silent => Ret ov Silent
  | Some (Ok opt) => store_processed ov name (default ""%string (opt_str opt))
  end.

Definition opts_type_bool (ov : OptsVisitor) (name : string) : Res (Outcome bool) :=
  match lookup_scalar ov name with
  | None => Fault
  | Some (Err e) => Ret ov (Err e)
  | Some Silent => Ret ov Silent
  | Some (Ok opt) =>
      match opt_str opt with
      | Some s =>
          if String.eqb s "on" || String.eqb s "yes" || String.eqb s "y"
          then store_processed ov name true
          else if String.eqb s "off" || String.eqb s "no" || String.eqb s "n"
          then store_processed ov name false
          else Ret ov (Err (QERR_INVALID_PARAMETER_VALUE (opt_name opt) "on|yes|y|off|no|n"))
      | None => store_processed ov name true
      end
  end.

Definition opts_start_optional (ov : OptsVisitor) (name : string) : Res bool :=
  match list_mode ov with
  | LM_NONE =>
      match lookup_distinct ov name with
      | None => Fault
      | Some (Ok _) => Ret ov true
      | Some _ => Ret ov false
      end
  | _ => Fault
  end.

(** [opts_visitor_new]: the zeroed visitor for [opts], with no queue yet. *)
Definition opts_visitor_new (opts : QemuOpts) : OptsVisitor :=
  mkOptsVisitor opts 0 None LM_NONE None 0 0 None ∅ 0%nat.

Section Decoders.

(** [OPTS_VISITOR_RANGE_MAX] is defined in qapi/opts-visitor.h, which is not
    among the sources: the cap on the size of an interval is a parameter. *)
Variable OPTS_VISITOR_RANGE_MAX : Z.

(** The last conjunct of the signed interval test,
    [val > INT64_MAX - OPTS_VISITOR_RANGE_MAX || val2 < val + OPTS_VISITOR_RANGE_MAX],
    in [int64_t] arithmetic: [None] when a subexpression that is evaluated
    overflows. *)
Definition signed_span_ok (val val2 : Z) : option bool :=
  d ← checked_s64 (INT64_MAX - OPTS_VISITOR_RANGE_MAX);
  if d <? val then Some true
  else s ← checked_s64 (val + OPTS_VISITOR_RANGE_MAX); Some (val2 <? s).

(** The last conjunct of the unsigned interval test,
    [val2 - val < OPTS_VISITOR_RANGE_MAX], in [uint64_t] arithmetic. *)
Definition unsigned_span_ok (val val2 : Z) : bool :=
  (val2 - val) mod 2 ^ 64 <? OPTS_VISITOR_RANGE_MAX.

Definition opts_type_int (ov : OptsVisitor) (name : string) : Res (Outcome Z) :=
  match list_mode ov with
  | LM_SIGNED_INTERVAL => Ret ov (Ok (to_s64 (range_next ov)))
  | _ =>
      match lookup_scalar ov name with
      | None => Fault
      | Some (Err e) => Ret ov (Err e)
      | Some Silent => Ret ov Silent
      | Some (Ok opt) =>
          let str := default ""%string (opt_str opt) in
          let failed :=
            Ret ov (Err (QERR_INVALID_PARAMETER_VALUE (opt_name opt)
                           (match list_mode ov with
                            | LM_NONE => "an int64 value"
                            | _ => "an int64 value or range"
                            end))) in
          let '(val, endptr, errno) := strtoll 0 str in
          if (errno =? 0) && advanced str endptr && (INT64_MIN <=? val) && (val <=? INT64_MAX)
          then
            match endptr, list_mode ov with
            | EmptyString, _ => store_processed ov name val
            | String "-" str2, LM_IN_PROGRESS =>
                let '(val2, endptr2, errno2) := strtoll errno str2 in
                if (errno2 =? 0) && advanced str2 endptr2
                   && bool_decide (endptr2 = EmptyString)
                   && (INT64_MIN <=? val2) && (val2 <=? INT64_MAX) && (val <=? val2)
                then
                  match signed_span_ok val val2 with
                  | None => Fault
                  | Some true =>
                      Ret (set_list_mode
                             (set_range_limit (set_range_next ov (of_s64 val)) (of_s64 val2))
                             LM_SIGNED_INTERVAL)
                          (Ok val)
                  | Some false => failed
                  end
                else failed
            | _, _ => failed
            end
          else failed
      end
  end.

Definition opts_type_uint64 (ov : OptsVisitor) (name : string) : Res (Outcome Z) :=
  match list_mode ov with
  | LM_UNSIGNED_INTERVAL => Ret ov (Ok (range_next ov))
  | _ =>
      match lookup_scalar ov name with
      | None => Fault
      | Some (Err e) => Ret ov (Err e)
      | Some Silent => Ret ov Silent
      | Some (Ok opt) =>
          let failed :=
            Ret ov (Err (QERR_INVALID_PARAMETER_VALUE (opt_name opt)
                           (match list_mode ov with
                            | LM_NONE => "a uint64 value"
                            | _ => "a uint64 value or range"
                            end))) in
          let '(r, val, endptr) := parse_uint (opt_str opt) in
          if (r =? 0) && (val <=? UINT64_MAX)
          then
            match endptr, list_mode ov with
            | None, _ => Fault
            | Some EmptyString, _ => store_processed ov name val
            | Some (String "-" str2), LM_IN_PROGRESS =>
                let '(r2, val2) := parse_uint_full (Some str2) in
                if (r2 =? 0) && (val2 <=? UINT64_MAX) && (val <=? val2)
                   && unsigned_span_ok val val2
                then
                  Ret (set_list_mode
                         (set_range_limit (set_range_next ov val) val2)
                         LM_UNSIGNED_INTERVAL)
                      (Ok val)
                else failed
            | _, _ => failed
            end
          else failed
      end
  end.

(** [strtosz_suffix] (util/cutils.c) is not among the sources and parses a
    floating point literal: it is a parameter, from the text and the default
    suffix to the value and the text from the end pointer on. *)
Variable strtosz_suffix : string → ascii → Z * string.

Definition STRTOSZ_DEFSUFFIX_B : ascii := "B"%char.

Definition opts_type_size (ov : OptsVisitor) (name : string) : Res (Outcome Z) :=
  match lookup_scalar ov name with
  | None => Fault
  | Some (Err e) => Ret ov (Err e)
  | Some Silent => Ret ov Silent
  | Some (Ok opt) =>
      let '(val, endptr) :=
        strtosz_suffix (default ""%string (opt_str opt)) STRTOSZ_DEFSUFFIX_B in
      if (val <? 0) || negb (bool_decide (endptr = EmptyString))
      then Ret ov (Err (QERR_INVALID_PARAMETER_VALUE (opt_name opt)
                          "a size value representible as a non-negative int64"))
      else store_processed ov name val
  end.

(** ** The visitor's methods *)

(** The scalar methods that [opts_visitor_new] installs from this file, and
    the values they decode. *)
Inductive Scalar := type_int | type_uint64 | type_size | type_bool | type_str.

Inductive Value :=
  | VInt (v : Z)
  | VUint64 (v : Z)
  | VSize (v : Z)
  | VBool (b : bool)
  | VStr (s : string).

Definition outcome_map {A B : Type} (f : A → B) (o : Outcome A) : Outcome B :=
  match o with
  | Ok v => Ok (f v)
  | Err e => Err e
  | Silent => Silent
  end.

Definition res_map {A B : Type} (f : A → B) (r : Res A) : Res B :=
  match r with
  | Fault => Fault
  | Ret ov a => Ret ov (f a)
  end.

Definition visit_scalar (k : Scalar) (ov : OptsVisitor) (name : string) : Res (Outcome Value) :=
  match k with
  | type_int => res_map (outcome_map VInt) (opts_type_int ov name)
  | type_uint64 => res_map (outcome_map VUint64) (opts_type_uint64 ov name)
  | type_size => res_map (outcome_map VSize) (opts_type_size ov name)
  | type_bool => res_map (outcome_map VBool) (opts_type_bool ov name)
  | type_str => res_map (outcome_map VStr) (opts_type_str ov name)
  end.

(** A call of one of the visitor's methods, and what it hands back. *)
Inductive Call :=
  | start_struct
  | end_struct
  | start_list (name : string)
  | next_list
  | end_list
  | scalar (k : Scalar) (name : string)
  | start_optional (name : string).

Inductive Reply :=
  | RVoid
  | RError (e : option Error)
  | RLink (more : bool)
  | RPresent (present : bool)
  | RValue (o : Outcome Value).

Definition exec (c : Call) (ov : OptsVisitor) : Res Reply :=
  match c with
  | start_struct => res_map (λ _, RVoid) (opts_start_struct ov)
  | end_struct => res_map RError (opts_end_struct ov)
  | start_list name => res_map RError (opts_start_list ov name)
  | next_list => res_map RLink (opts_next_list ov)
  | end_list => res_map (λ _, RVoid) (opts_end_list ov)
  | scalar k name => res_map RValue (visit_scalar k ov name)
  | start_optional name => res_map RPresent (opts_start_optional ov name)
  end.

(** A sequence of calls made one after the other: the visitor at the end and,
    for every call, its reply with the visitor right after it. *)
Fixpoint run (cs : list Call) (ov : OptsVisitor) : Res (list (Reply * OptsVisitor)) :=
  match cs with
  | [] => Ret ov []
  | c :: cs' =>
      match exec c ov with
      | Fault => Fault
      | Ret ov1 r =>
          match run cs' ov1 with
          | Fault => Fault
          | Ret ov2 tr => Ret ov2 ((r, ov1) :: tr)
          end
      end
  end.

End Decoders.

(** ** Invariants *)

(** Every occurrence of the queue [q] has the name [k]. *)
Definition named (k : string) (q : list QemuOpt) : Prop :=
  Forall (λ o, opt_name o = k) q.

(** The comment on [unprocessed_opts]: each value is a non-empty queue of
    occurrences with the key's name; the queue is live. *)
Definition table_ok (t : gmap string loc) (h : gmap loc (list QemuOpt)) : Prop :=
  ∀ k l, t !! k = Some l → ∃ q, h !! l = Some q ∧ q ≠ [] ∧ named k q.

(** Every live queue is the value of some key. *)
Definition no_leak (t : gmap string loc) (h : gmap loc (list QemuOpt)) : Prop :=
  ∀ l, is_Some (h !! l) → ∃ k, t !! k = Some l.

(** Live queues sit below the next address handed out. *)
Definition heap_bounded (h : gmap loc (list QemuOpt)) (n : loc) : Prop :=
  ∀ l, is_Some (h !! l) → (l < n)%nat.

(** The visitor between the outermost [opts_start_struct] and
    [opts_end_struct]. *)
Record index_wf (ov : OptsVisitor) : Prop := {
  wf_depth : 0 < depth ov;
  wf_table : ∃ t, unprocessed_opts ov = Some t ∧
               table_ok t (gqueues ov) ∧ no_leak t (gqueues ov)
}.

(** The visitor outside any struct: as [opts_visitor_new] and the outermost
    [opts_end_struct] leave it. *)
Definition idle (ov : OptsVisitor) : Prop :=
  depth ov = 0 ∧ unprocessed_opts ov = None ∧ gqueues ov = ∅.

(** The occurrences not consumed yet: those still in a live queue. *)
Definition unconsumed (ov : OptsVisitor) : list QemuOpt :=
  mjoin (snd <$> map_to_list (gqueues ov)).

(** The name [k] is in the index. *)
Definition in_index (ov : OptsVisitor) (k : string) : Prop :=
  ∃ t, unprocessed_opts ov = Some t ∧ is_Some (t !! k).

(** The table being built by [opts_start_struct] over the store [h0] with
    next address [n0]: it is sound, its queues are new, and the old queues are
    as they were. *)
Definition building_ok (h0 : gmap loc (list QemuOpt)) (n0 : loc) (b : Building) : Prop :=
  let '(t, h, n) := b in
  table_ok t h ∧ (n0 ≤ n)%nat ∧ heap_bounded h n ∧
  (∀ l, (l < n0)%nat → h !! l = h0 !! l) ∧
  (∀ k l, t !! k = Some l → (n0 ≤ l)%nat) ∧
  (∀ l, (n0 ≤ l)%nat → is_Some (h !! l) → ∃ k, t !! k = Some l).

(** The names the source provides: those of its options, and "id" when the
    identifier is set. *)
Definition provided (opts : QemuOpts) (n : string) : Prop :=
  n ∈ opt_name <$> opts_head opts ∨ (n = "id"%string ∧ is_Some (opts_id opts)).

(** A call that decodes the name [n]: a scalar method or a list start for it. *)
Definition decodes (n : string) (c : Call) : Prop :=
  match c with
  | start_list name | scalar _ name => name = n
  | _ => False
  end.

(** What keeps the name [n] in the index while no call decodes it: the
    source provides [n]; the table, when there is one, is sound and has [n];
    the queue being traversed, if it is still live, holds no occurrence of
    [n]. *)
Definition keeps (n : string) (ov : OptsVisitor) : Prop :=
  provided (opts_root ov) n ∧
  heap_bounded (gqueues ov) (next_loc ov) ∧
  (∀ t, unprocessed_opts ov = Some t → table_ok t (gqueues ov) ∧ is_Some (t !! n)) ∧
  (∀ l, repeated_opts ov = Some l →
     (l < next_loc ov)%nat ∧
     ∀ q, gqueues ov !! l = Some q → Forall (λ o, opt_name o ≠ n) q).

(** The visitor the outermost [opts_end_struct] leaves, for the table [t]. *)
Definition torn_down (ov : OptsVisitor) (t : gmap string loc) : OptsVisitor :=
  set_fake_id_opt
    (set_unprocessed_opts
       (set_gqueues (set_depth ov 0) (g_hash_table_destroy t (gqueues ov))) None) None.

(** The calls a list of signed integers with five elements takes: the list
    [name] is started, then a link is asked for and its member decoded five
    times, and a last link is asked for. *)
Definition five_int_calls (name member : string) : list Call :=
  [start_list name; next_list;
   scalar type_int member; next_list;
   scalar type_int member; next_list;
   scalar type_int member; next_list;
   scalar type_int member; next_list;
   scalar type_int member; next_list].

(** ** Example runs *)

(** A cap on the size of an interval to run the examples with. *)
Definition RANGE_MAX_65536 : Z := 65536.

(** A size parser to run the examples with: a decimal count of bytes and
    nothing else; -1 when there is no digit. *)
Definition strtosz_bytes (s : string) (default_suffix : ascii) : Z * string :=
  let '(v, rest) := scan_digits 10 0 s in
  if advanced s rest then (v, rest) else (-1, s).

(** The visitor that the calls [cs] leave when made on a new visitor for
    [opts], and their replies. *)
Definition reached (opts : QemuOpts) (cs : list Call) : OptsVisitor :=
  match run RANGE_MAX_65536 strtosz_bytes cs (opts_visitor_new opts) with
  | Ret ov _ => ov
  | Fault => opts_visitor_new opts
  end.

Definition replies (opts : QemuOpts) (cs : list Call) : list (Reply * OptsVisitor) :=
  match run RANGE_MAX_65536 strtosz_bytes cs (opts_visitor_new opts) with
  | Ret _ tr => tr
  | Fault => []
  end.

Definition nums_opts : QemuOpts :=
  mkQemuOpts None [mkQemuOpt "nums" (Some "3-7"%string)].

Definition sizes_opts : QemuOpts :=
  mkQemuOpts None
    [mkQemuOpt "size" (Some "10"%string); mkQemuOpt "size" (Some "20"%string);
     mkQemuOpt "name" (Some "x"%string)].

Definition flag_opts : QemuOpts := mkQemuOpts None [mkQemuOpt "flag" None].

Definition count_opts : QemuOpts :=
  mkQemuOpts None [mkQemuOpt "count" (Some "5-3"%string)].

Definition junk_opts : QemuOpts :=
  mkQemuOpts (Some "dev0"%string) [mkQemuOpt "flag" (Some "maybe"%string)].

(** The visitors right after the outermost [opts_start_struct]. *)
Definition nums_struct : OptsVisitor := reached nums_opts [start_struct].
Definition sizes_struct : OptsVisitor := reached sizes_opts [start_struct].
Definition flag_struct : OptsVisitor := reached flag_opts [start_struct].
Definition junk_struct : OptsVisitor := reached junk_opts [start_struct].

(** [sizes_struct] after "size" has been decoded as a string. *)
Definition sizes_decoded : OptsVisitor :=
  reached sizes_opts [start_struct; scalar type_str "size"].

(** [nums_opts] inside the list of "nums", the first link asked for. *)
Definition nums_in_list : OptsVisitor :=
  reached nums_opts [start_struct; start_list "nums"; next_list].

(** Inside the outermost struct of [count_opts], in the list of "count", the
    first link asked for. *)
Definition count_in_list : OptsVisitor :=
  reached count_opts [start_struct; start_list "count"; next_list].

(** The same with the struct of the list's element started as well. *)
Definition count_in_element : OptsVisitor :=
  reached count_opts [start_struct; start_list "count"; next_list; start_struct].

(** The calls that decode the list "size" of unsigned integers. *)
Definition sizes_list_calls : list Call :=
  [start_struct; start_list "size"; next_list;
   scalar type_uint64 "size"; next_list;
   scalar type_uint64 "size"; next_list; end_list].

(** A name given three times, once with no value. *)
Definition tags_opts : QemuOpts :=
  mkQemuOpts None
    [mkQemuOpt "tag" (Some "a"%string); mkQemuOpt "tag" None;
     mkQemuOpt "tag" (Some "c"%string)].

Definition tags_struct : OptsVisitor := reached tags_opts [start_struct].

(** An interval and then a number under one name. *)
Definition spans_opts : QemuOpts :=
  mkQemuOpts None
    [mkQemuOpt "span" (Some "2-4"%string); mkQemuOpt "span" (Some "9"%string)].

Definition spans_struct : OptsVisitor := reached spans_opts [start_struct].

(** [spans_opts] inside the list of "span", the first link asked for. *)
Definition spans_in_list : OptsVisitor :=
  reached spans_opts [start_struct; start_list "span"; next_list].

(** ** What a scalar field denotes *)

(** The value that a scalar field of kind [k] denotes for ONE occurrence
    outside a list, written after the spec's decodeString, decodeBool,
    decodeInt64, decodeUint64 and decodeSize rather than after the methods
    above, which are compared with it: the value, or the empty string when
    there is none; true when there is no value, else what one of the six words
    says; the whole text read as one signed integer; the whole text read as
    one unsigned integer; the whole text read as a size that is not negative.
    [None] for a malformed value. *)
Definition field_value (strtosz_suffix : string → ascii → Z * string)
    (k : Scalar) (opt : QemuOpt) : option Value :=
  let text := default ""%string (opt_str opt) in
  match k with
  | type_str => Some (VStr text)
  | type_bool =>
      match opt_str opt with
      | None => Some (VBool true)
      | Some s =>
          if bool_decide (s = "on" ∨ s = "yes" ∨ s = "y")%string then Some (VBool true)
          else if bool_decide (s = "off" ∨ s = "no" ∨ s = "n")%string then Some (VBool false)
          else None
      end
  | type_int =>
      match strtoll 0 text with
      | (v, EmptyString, 0) => if advanced text EmptyString then Some (VInt v) else None
      | _ => None
      end
  | type_uint64 =>
      match parse_uint_full (opt_str opt) with
      | (0, v) => Some (VUint64 v)
      | _ => None
      end
  | type_size =>
      let '(v, rest) := strtosz_suffix text STRTOSZ_DEFSUFFIX_B in
      if bool_decide (0 ≤ v ∧ rest = EmptyString) then Some (VSize v) else None
  end.

(** What the error for a malformed value says was expected, outside a list. *)
Definition expected (k : Scalar) : string :=
  match k with
  | type_int => "an int64 value"
  | type_uint64 => "a uint64 value"
  | type_size => "a size value representible as a non-negative int64"
  | type_bool => "on|yes|y|off|no|n"
  | type_str => ""
  end.

(** ** Interval literals *)

(** The text [s] starts with a signed integer [v] that [strtoll] reads without
    error, and [rest] is what follows it. *)
Definition parses_signed (s : string) (v : Z) (rest : string) : Prop :=
  strtoll 0 s = (v, rest, 0) ∧ advanced s rest = true.

(** The same for [parse_uint]. *)
Definition parses_unsigned (s : string) (v : Z) (rest : string) : Prop :=
  parse_uint (Some s) = (0, v, Some rest).

(** An interval literal [lower-upper]: the lower bound, a dash, and the upper
    bound up to the end of the text. *)
Definition signed_interval_literal (s : string) (lo hi : Z) : Prop :=
  ∃ s2, parses_signed s lo (String "-" s2) ∧ parses_signed s2 hi EmptyString.

Definition unsigned_interval_literal (s : string) (lo hi : Z) : Prop :=
  ∃ s2, parses_unsigned s lo (String "-" s2) ∧ parses_unsigned s2 hi EmptyString.

(** The visitor in an interval: what [opts_type_int] and [opts_type_uint64]
    leave when they accept a literal. *)
Definition in_interval (ov : OptsVisitor) (m : ListMode) (next limit : Z) : OptsVisitor :=
  set_list_mode (set_range_limit (set_range_next ov next) limit) m.

(** ** Cleanup, and what the properties of whole decodes speak about *)

(** [opts_visitor_cleanup]: the table, if there is one, is destroyed with its
    queues, then the fake "id" option and the visitor are freed.  What is
    left is the store of queues. *)
Definition opts_visitor_cleanup (ov : OptsVisitor) : gmap loc (list QemuOpt) :=
  match unprocessed_opts ov with
  | Some t => g_hash_table_destroy t (gqueues ov)
  | None => gqueues ov
  end.

(** The fake option [opts_start_struct] makes of the identifier. *)
Definition fake_id (opts : QemuOpts) : list QemuOpt :=
  match opts_id opts with
  | Some i => [mkQemuOpt "id" (Some i)]
  | None => []
  end.

(** The occurrences of the name [k] in the source, in the order of the
    source, the identifier's last. *)
Definition occurrences (opts : QemuOpts) (k : string) : list QemuOpt :=
  filter (λ o, opt_name o = k) (opts_head opts ++ fake_id opts).

(** The queue a table under construction holds for the name [k]. *)
Definition queue_of (b : Building) (k : string) : list QemuOpt :=
  match b.1.1 !! k with
  | Some l => default [] (b.1.2 !! l)
  | None => []
  end.

(** The calls that decode the list [name] with [n] elements whose member is
    decoded by the method [k]: after the start, a link is asked for, and
    then [n] times the member is decoded and the next link asked for. *)
Definition list_calls (name member : string) (k : Scalar) (n : nat) : list Call :=
  start_list name :: next_list :: mjoin (replicate n [scalar k member; next_list]).

(** The calls inside an interval with [n] elements after the first: the next
    link is asked for and the member decoded, [n] times. *)
Definition interval_calls (member : string) (k : Scalar) (n : nat) : list Call :=
  mjoin (replicate n [next_list; scalar k member]).

(** The outcomes of the scalar methods among the replies, and the answers
    of [opts_next_list]. *)
Definition values (tr : list (Reply * OptsVisitor)) : list (Outcome Value) :=
  omap (λ p, match p.1 with RValue o => Some o | _ => None end) tr.

Definition links (tr : list (Reply * OptsVisitor)) : list bool :=
  omap (λ p, match p.1 with RLink b => Some b | _ => None end) tr.

(** The reply to the last call. *)
Definition last_reply (tr : list (Reply * OptsVisitor)) : option Reply :=
  fst <$> last tr.

(** What an element of a list of signed integers stands for: the number it
    spells, or the bounds of the interval it spells, within the cap. *)
Definition int_element (cap : Z) (o : QemuOpt) (iv : Z * Z) : Prop :=
  let s := default ""%string (opt_str o) in
  (iv.1 = iv.2 ∧ parses_signed s iv.1 EmptyString) ∨
  (signed_interval_literal s iv.1 iv.2 ∧ iv.1 ≤ iv.2 ∧ iv.2 - iv.1 < cap).

(** The integers from the lower to the upper bound. *)
Definition interval_values (iv : Z * Z) : list Z := seqZ iv.1 (iv.2 - iv.1 + 1).

(** The visitor after [opts_next_list] has popped the head of the queue at
    [l], whose tail is [q]: the list goes on with [q], or the name has left
    the table [t] and the queue the store [h]. *)
Definition popped (l : loc) (name : string) (t : gmap string loc)
    (h : gmap loc (list QemuOpt)) (q : list QemuOpt) (ov : OptsVisitor) : Prop :=
  list_mode ov = LM_IN_PROGRESS ∧ repeated_opts ov = Some l ∧
  match q with
  | [] => unprocessed_opts ov = Some (delete name t) ∧ gqueues ov = delete l h
  | _ => unprocessed_opts ov = Some t ∧ gqueues ov = <[l := q]> h
  end.

(** The visitor after at most [d] calls: either it has no table and no
    queue, or it is inside a struct, at a depth of [d] at most. *)
Definition tidy (d : Z) (ov : OptsVisitor) : Prop :=
  (unprocessed_opts ov = None ∧ gqueues ov = ∅ ∧ 0 ≤ depth ov < 2 ^ 32) ∨
  (index_wf ov ∧ depth ov ≤ d).

(** * Properties *)

(** Turns the integer limits into numerals for [lia]. *)
Ltac limits :=
  unfold INT64_MIN, INT64_MAX, UINT64_MAX, ERANGE, EINVAL in *;
  change (2 ^ 63) with 9223372036854775808 in *;
  change (2 ^ 64) with 18446744073709551616 in *;
  change (2 ^ 32) with 4294967296 in *.

(** Turns boolean tests in the hypotheses into propositions. *)
Ltac bools :=
  repeat match goal with
    | H : _ && _ = true |- _ => apply andb_true_iff in H as [? ?]
    | H : (_ <=? _) = true |- _ => apply Z.leb_le in H
    | H : (_ <=? _) = false |- _ => apply Z.leb_gt in H
    | H : (_ <? _) = true |- _ => apply Z.ltb_lt in H
    | H : (_ <? _) = false |- _ => apply Z.ltb_ge in H
    | H : (_ =? _) = true |- _ => apply Z.eqb_eq in H
    | H : (_ =? _) = false |- _ => apply Z.eqb_neq in H
    | H : bool_decide _ = true |- _ => apply bool_decide_eq_true in H
    | H : bool_decide _ = false |- _ => apply bool_decide_eq_false in H
    | H : negb _ = true |- _ => apply negb_true_iff in H
    | H : negb _ = false |- _ => apply negb_false_iff in H
    end.

(** ** The parsers *)

Example strtoll_range : strtoll 0 "3-7" = (3, "-7"%string, 0).
Proof. reflexivity. Qed.

Example strtoll_hex : strtoll 0 "  -0x1F," = (-31, ","%string, 0).
Proof. reflexivity. Qed.

Example strtoll_clamp : strtoll 0 "9223372036854775808" = (INT64_MAX, ""%string, ERANGE).
Proof. reflexivity. Qed.

Example strtoll_none : strtoll 0 "-" = (0, "-"%string, 0).
Proof. reflexivity. Qed.

Example parse_uint_range : parse_uint (Some "5-3"%string) = (0, 5, Some "-3"%string).
Proof. reflexivity. Qed.

Example parse_uint_negative : parse_uint (Some " -5"%string) = (- ERANGE, 0, Some ""%string).
Proof. reflexivity. Qed.

Lemma strtoll_bounds errno s v rest e :
  strtoll errno s = (v, rest, e) → INT64_MIN ≤ v ≤ INT64_MAX.
Proof.
  unfold strtoll. intros H.
  destruct (scan_subject s) as [[[neg mag] r]|]; simplify_eq; [|done].
  repeat case_match; simplify_eq; unfold INT64_MIN, INT64_MAX in *; lia.
Qed.

Lemma digit_of_nonneg c d : digit_of c = Some d → 0 ≤ d.
Proof. unfold digit_of. intros H. repeat case_match; simplify_eq; lia. Qed.

Lemma scan_digits_nonneg base s : ∀ acc v rest,
  0 ≤ base → 0 ≤ acc → scan_digits base acc s = (v, rest) → 0 ≤ v.
Proof.
  induction s as [|c s IH]; simpl; intros acc v rest Hb Ha H; [by simplify_eq|].
  unfold digit_in in H. destruct (digit_of c) as [d|] eqn:Hd; [|by simplify_eq].
  destruct (d <? base); [|by simplify_eq].
  apply IH in H; [done..|]. apply digit_of_nonneg in Hd. nia.
Qed.

Lemma scan_number_nonneg s v rest : scan_number s = Some (v, rest) → 0 ≤ v.
Proof.
  unfold scan_number. intros H.
  repeat case_match; simplify_eq.
  all: match goal with H : scan_digits _ _ _ = _ |- _ =>
         by apply scan_digits_nonneg in H end.
Qed.

Lemma scan_subject_nonneg s neg mag rest :
  scan_subject s = Some (neg, mag, rest) → 0 ≤ mag.
Proof.
  unfold scan_subject. intros H.
  repeat case_match; simplify_eq.
  all: match goal with H : _ <$> scan_number ?r = Some _ |- _ =>
         destruct (scan_number r) as [[v r']|] eqn:Hn; cbn in H; simplify_eq;
         by apply scan_number_nonneg in Hn end.
Qed.

Lemma strtoull_bounds errno s v rest e :
  strtoull errno s = (v, rest, e) → 0 ≤ v ≤ UINT64_MAX.
Proof.
  unfold strtoull. intros H.
  destruct (scan_subject s) as [[[neg mag] r]|] eqn:Hs; simplify_eq; [|done].
  apply scan_subject_nonneg in Hs.
  repeat case_match; simplify_eq; unfold UINT64_MAX in *; try lia.
  pose proof (Z.mod_pos_bound (- mag) (2 ^ 64)). lia.
Qed.

Lemma parse_uint_bounds s r v endp :
  parse_uint s = (r, v, endp) → 0 ≤ v ≤ UINT64_MAX.
Proof.
  unfold parse_uint. intros H. destruct s as [s|]; [|by simplify_eq].
  destruct (strtoull 0 s) as [[val e] errno] eqn:Hs.
  apply strtoull_bounds in Hs.
  repeat case_match; simplify_eq; unfold UINT64_MAX in *; lia.
Qed.

Lemma parse_uint_full_bounds s r v :
  parse_uint_full s = (r, v) → 0 ≤ v ≤ UINT64_MAX.
Proof.
  unfold parse_uint_full. intros H.
  destruct (parse_uint s) as [[r' val] endp] eqn:Hp.
  apply parse_uint_bounds in Hp.
  repeat case_match; simplify_eq; unfold UINT64_MAX in *; lia.
Qed.

(** ** Lookup and consumption *)

Lemma lookup_scalar_processed ov name opt :
  lookup_scalar ov name = Some (Ok opt) → is_Some (processed ov name).
Proof.
  unfold lookup_scalar, processed, lookup_distinct, g_hash_table_remove.
  intros H. repeat case_match; simplify_eq; eauto.
Qed.

Lemma lookup_scalar_mode ov name o :
  lookup_scalar ov name = Some o →
  list_mode ov = LM_NONE ∨ list_mode ov = LM_IN_PROGRESS.
Proof. unfold lookup_scalar. intros H. repeat case_match; simplify_eq; eauto. Qed.

Section Properties.

Variable OPTS_VISITOR_RANGE_MAX : Z.
Variable strtosz_suffix : string → ascii → Z * string.

Set Default Proof Using "Type".

Local Abbreviation opts_type_int := (opts_type_int OPTS_VISITOR_RANGE_MAX).
Local Abbreviation opts_type_uint64 := (opts_type_uint64 OPTS_VISITOR_RANGE_MAX).
Local Abbreviation opts_type_size := (opts_type_size strtosz_suffix).
Local Abbreviation visit_scalar := (visit_scalar OPTS_VISITOR_RANGE_MAX strtosz_suffix).
Local Abbreviation exec := (exec OPTS_VISITOR_RANGE_MAX strtosz_suffix).
Local Abbreviation run := (run OPTS_VISITOR_RANGE_MAX strtosz_suffix).

(** ** Scalar decoders *)

Lemma opts_type_int_Ret ov name ov' o :
  opts_type_int ov name = Ret ov' o →
  (ov' = ov ∧ ∀ v, o ≠ Ok v ∨ list_mode ov = LM_SIGNED_INTERVAL)
  ∨ (∃ v, o = Ok v ∧ processed ov name = Some ov')
  ∨ (∃ lo hi, o = Ok lo ∧ list_mode ov = LM_IN_PROGRESS ∧
       ov' = set_list_mode (set_range_limit (set_range_next ov (of_s64 lo)) (of_s64 hi))
               LM_SIGNED_INTERVAL).
Proof.
  unfold opts_type_int, store_processed. intros H.
  repeat case_match; simplify_eq; eauto 10.
Qed.

Lemma opts_type_uint64_Ret ov name ov' o :
  opts_type_uint64 ov name = Ret ov' o →
  (ov' = ov ∧ ∀ v, o ≠ Ok v ∨ list_mode ov = LM_UNSIGNED_INTERVAL)
  ∨ (∃ v, o = Ok v ∧ processed ov name = Some ov')
  ∨ (∃ lo hi, o = Ok lo ∧ list_mode ov = LM_IN_PROGRESS ∧
       ov' = set_list_mode (set_range_limit (set_range_next ov lo) hi)
               LM_UNSIGNED_INTERVAL).
Proof.
  unfold opts_type_uint64, store_processed. intros H.
  repeat case_match; simplify_eq; eauto 10.
Qed.

Lemma opts_type_size_Ret ov name ov' o :
  opts_type_size ov name = Ret ov' o →
  (ov' = ov ∧ ∀ v, o ≠ Ok v) ∨ (∃ v, o = Ok v ∧ processed ov name = Some ov').
Proof.
  unfold opts_type_size, store_processed. intros H.
  repeat case_match; simplify_eq; eauto 10.
Qed.

Lemma opts_type_bool_Ret ov name ov' o :
  opts_type_bool ov name = Ret ov' o →
  (ov' = ov ∧ ∀ v, o ≠ Ok v) ∨ (∃ v, o = Ok v ∧ processed ov name = Some ov').
Proof.
  unfold opts_type_bool, store_processed. intros H.
  repeat case_match; simplify_eq; eauto 10.
Qed.

Lemma opts_type_str_Ret ov name ov' o :
  opts_type_str ov name = Ret ov' o →
  (ov' = ov ∧ ∀ v, o ≠ Ok v) ∨ (∃ v, o = Ok v ∧ processed ov name = Some ov').
Proof.
  unfold opts_type_str, store_processed. intros H.
  repeat case_match; simplify_eq; eauto 10.
Qed.

Lemma res_map_Ret {A B} (f : A → B) r ov b :
  res_map f r = Ret ov b → ∃ a, r = Ret ov a ∧ b = f a.
Proof. destruct r; intros; simplify_eq/=; eauto. Qed.

(** What a scalar method can do to the visitor: nothing; [processed]; or,
    for the two integer methods inside a list, enter an interval. *)
Lemma visit_scalar_Ret k ov name ov' o :
  visit_scalar k ov name = Ret ov' o →
  (ov' = ov ∧ ((∀ v, o ≠ Ok v) ∨ list_mode ov = LM_SIGNED_INTERVAL
               ∨ list_mode ov = LM_UNSIGNED_INTERVAL))
  ∨ (∃ v, o = Ok v ∧ processed ov name = Some ov')
  ∨ (∃ lo hi m v, o = Ok v ∧ list_mode ov = LM_IN_PROGRESS ∧
       (m = LM_SIGNED_INTERVAL ∨ m = LM_UNSIGNED_INTERVAL) ∧
       ov' = set_list_mode (set_range_limit (set_range_next ov lo) hi) m).
Proof.
  intros H. destruct k; apply res_map_Ret in H as (o' & H & ->).
  - apply opts_type_int_Ret in H as [?|[?|(lo & hi & -> & Hm & ->)]];
      [destruct o'; naive_solver..|].
    right; right. by exists (of_s64 lo), (of_s64 hi), LM_SIGNED_INTERVAL, (VInt lo); eauto.
  - apply opts_type_uint64_Ret in H as [?|[?|(lo & hi & -> & Hm & ->)]];
      [destruct o'; naive_solver..|].
    right; right. by exists lo, hi, LM_UNSIGNED_INTERVAL, (VUint64 lo); eauto.
  - apply opts_type_size_Ret in H. destruct o'; naive_solver.
  - apply opts_type_bool_Ret in H. destruct o'; naive_solver.
  - apply opts_type_str_Ret in H. destruct o'; naive_solver.
Qed.

(** C7.  An occurrence decoded as a boolean: with no value the result is
    [true]; "on", "yes" and "y" give [true]; "off", "no" and "n" give
    [false]; with any other value the decode fails with
    [QERR_INVALID_PARAMETER_VALUE] for the occurrence's name and the text
    "on|yes|y|off|no|n", and the visitor is as before. *)
Theorem opts_type_bool_values ov name opt :
  lookup_scalar ov name = Some (Ok opt) →
  ∃ ov', processed ov name = Some ov' ∧
    match opt_str opt with
    | None => opts_type_bool ov name = Ret ov' (Ok true)
    | Some s =>
        (s ∈ ["on"; "yes"; "y"]%string → opts_type_bool ov name = Ret ov' (Ok true)) ∧
        (s ∈ ["off"; "no"; "n"]%string → opts_type_bool ov name = Ret ov' (Ok false)) ∧
        (s ∉ ["on"; "yes"; "y"; "off"; "no"; "n"]%string →
         opts_type_bool ov name =
           Ret ov (Err (QERR_INVALID_PARAMETER_VALUE (opt_name opt) "on|yes|y|off|no|n")))
    end.
Proof.
  clear OPTS_VISITOR_RANGE_MAX strtosz_suffix.
  intros Hl. destruct (lookup_scalar_processed _ _ _ Hl) as [ov' Hp].
  exists ov'. split; [done|].
  unfold opts_type_bool, store_processed. rewrite Hl, Hp.
  destruct (opt_str opt) as [s|]; [|done].
  destruct (String.eqb_spec s "on"), (String.eqb_spec s "yes"),
    (String.eqb_spec s "y"), (String.eqb_spec s "off"),
    (String.eqb_spec s "no"), (String.eqb_spec s "n"); subst; simpl;
    repeat split; intros Hin; try done;
    repeat (apply elem_of_cons in Hin as [?|Hin]; [by simplify_eq|]);
    try (by apply elem_of_nil in Hin);
    exfalso; apply Hin; set_solver.
Qed.

(** C8.  Outside a list ([LM_NONE]) a signed integer whose text goes on after
    the number fails with [QERR_INVALID_PARAMETER_VALUE] and "an int64
    value"; so does the interval "3-7".  [opts_type_int] enters
    [LM_SIGNED_INTERVAL] from [LM_IN_PROGRESS] only. *)
Theorem opts_type_int_no_range_outside_list ov name opt :
  list_mode ov = LM_NONE →
  lookup_scalar ov name = Some (Ok opt) →
  (∀ v c rest e,
     strtoll 0 (default ""%string (opt_str opt)) = (v, String c rest, e) →
     opts_type_int ov name =
       Ret ov (Err (QERR_INVALID_PARAMETER_VALUE (opt_name opt) "an int64 value"))) ∧
  (opt_str opt = Some "3-7"%string →
   opts_type_int ov name =
     Ret ov (Err (QERR_INVALID_PARAMETER_VALUE (opt_name opt) "an int64 value"))) ∧
  (∀ ov' o, opts_type_int ov name = Ret ov' o → list_mode ov' = LM_NONE).
Proof.
  intros Hm Hl.
  assert (∀ v c rest e,
     strtoll 0 (default ""%string (opt_str opt)) = (v, String c rest, e) →
     opts_type_int ov name =
       Ret ov (Err (QERR_INVALID_PARAMETER_VALUE (opt_name opt) "an int64 value"))) as Hgen.
  { intros v c rest e Hs. unfold opts_type_int. rewrite Hm, Hl, Hs.
    repeat case_match; simplify_eq; done. }
  split; [done|]. split.
  - intros Hs. eapply (Hgen 3 "-"%char "7"%string 0). by rewrite Hs.
  - intros ov' o H. apply opts_type_int_Ret in H as [[-> _]|[(v & -> & H)|(lo & hi & _ & H & _)]].
    + done.
    + unfold processed, g_hash_table_remove in H. rewrite Hm in H.
      repeat case_match; by simplify_eq.
    + congruence.
Qed.

(** C10.  A scalar method that hands back an error (in particular
    [QERR_INVALID_PARAMETER_VALUE] from the boolean, the two integer and the
    size methods) hands back the visitor it was given: table, queues, list mode
    and interval counters are all as before the call. *)
Theorem scalar_error_keeps_visitor k ov name ov' e :
  visit_scalar k ov name = Ret ov' (Err e) → ov' = ov.
Proof.
  intros H.
  apply visit_scalar_Ret in H as [[-> _]|[(v & ? & _)|(lo & hi & m & v & ? & _)]]; done.
Qed.

(** A lookup that finds nothing is reported by every scalar method, with the
    visitor untouched. *)
Lemma visit_scalar_lookup_Err k ov name e :
  lookup_scalar ov name = Some (Err e) → visit_scalar k ov name = Ret ov (Err e).
Proof.
  intros Hl. destruct (lookup_scalar_mode _ _ _ Hl) as [Hm|Hm];
    destruct k; simpl;
    unfold opts_type_int, opts_type_uint64,
      opts_type_size, opts_type_bool, opts_type_str;
    by rewrite ?Hm, Hl.
Qed.

Lemma processed_LM_NONE ov name ov' :
  list_mode ov = LM_NONE → processed ov name = Some ov' →
  list_mode ov' = LM_NONE ∧
  ∃ t, unprocessed_opts ov = Some t ∧ unprocessed_opts ov' = Some (delete name t).
Proof.
  unfold processed, g_hash_table_remove. intros Hm H. rewrite Hm in H.
  destruct (unprocessed_opts ov) as [t|] eqn:Ht; [|done].
  destruct (t !! name) as [l|] eqn:Hn; simplify_eq/=.
  - eauto.
  - split; [done|]. exists t. by rewrite Ht, delete_id.
Qed.

(** C6.  An occurrence with no value decoded as an unsigned integer: the
    null string goes to [parse_uint], which rejects it, and the method fails
    with [QERR_INVALID_PARAMETER_VALUE] and the visitor untouched, as it does
    for the empty string and as [opts_type_int] does for an occurrence with
    no value.  Nothing is read through the null pointer. *)
Theorem opts_type_uint64_no_value ov name opt :
  lookup_scalar ov name = Some (Ok opt) →
  opt_str opt = None →
  opts_type_uint64 ov name =
    Ret ov (Err (QERR_INVALID_PARAMETER_VALUE (opt_name opt)
                   (match list_mode ov with
                    | LM_NONE => "a uint64 value"
                    | _ => "a uint64 value or range"
                    end))) ∧
  opts_type_int ov name =
    Ret ov (Err (QERR_INVALID_PARAMETER_VALUE (opt_name opt)
                   (match list_mode ov with
                    | LM_NONE => "an int64 value"
                    | _ => "an int64 value or range"
                    end))) ∧
  (∀ ov2 name2 opt2,
     lookup_scalar ov2 name2 = Some (Ok opt2) →
     opt_str opt2 = Some ""%string →
     opt_name opt2 = opt_name opt →
     list_mode ov2 = list_mode ov →
     ∃ e, opts_type_uint64 ov name = Ret ov (Err e) ∧
          opts_type_uint64 ov2 name2 = Ret ov2 (Err e)).
Proof.
  intros Hl Hs.
  assert (opts_type_uint64 ov name =
    Ret ov (Err (QERR_INVALID_PARAMETER_VALUE (opt_name opt)
                   (match list_mode ov with
                    | LM_NONE => "a uint64 value"
                    | _ => "a uint64 value or range"
                    end)))) as Hu.
  { unfold opts_type_uint64. rewrite Hl, Hs.
    by destruct (lookup_scalar_mode _ _ _ Hl) as [-> | ->]. }
  split_and!; [done| |].
  - unfold opts_type_int. rewrite Hl, Hs.
    by destruct (lookup_scalar_mode _ _ _ Hl) as [-> | ->].
  - intros ov2 name2 opt2 Hl2 Hs2 Hn Hm. eexists. split; [exact Hu|].
    unfold opts_type_uint64. rewrite Hl2, Hs2, Hn, Hm.
    by destruct (lookup_scalar_mode _ _ _ Hl) as [-> | ->].
Qed.

(** ** Intervals *)

Section Intervals.

Hypothesis range_max_fits : 0 ≤ OPTS_VISITOR_RANGE_MAX ≤ INT64_MAX.

Lemma signed_span_ok_spec val val2 :
  INT64_MIN ≤ val ≤ INT64_MAX → INT64_MIN ≤ val2 ≤ INT64_MAX →
  signed_span_ok OPTS_VISITOR_RANGE_MAX val val2 =
    Some (bool_decide (val2 - val < OPTS_VISITOR_RANGE_MAX)).
Proof using Type range_max_fits.
  intros Hv Hv2. unfold signed_span_ok, checked_s64.
  pose proof range_max_fits as Hc. limits.
  repeat (match goal with
          | |- context [?a <=? ?b] => destruct (Z.leb_spec a b)
          | |- context [?a <? ?b] => destruct (Z.ltb_spec a b)
          end; simpl); try lia; f_equal; symmetry;
    (apply bool_decide_eq_true || apply bool_decide_eq_false); lia.
Qed.

Lemma unsigned_span_ok_spec val val2 :
  0 ≤ val → val ≤ val2 → val2 ≤ UINT64_MAX →
  unsigned_span_ok OPTS_VISITOR_RANGE_MAX val val2 =
    bool_decide (val2 - val < OPTS_VISITOR_RANGE_MAX).
Proof.
  intros H0 Hle Hmax. unfold unsigned_span_ok. limits.
  rewrite Z.mod_small by lia.
  destruct (Z.ltb_spec (val2 - val) OPTS_VISITOR_RANGE_MAX); symmetry;
    [apply bool_decide_eq_true|apply bool_decide_eq_false]; lia.
Qed.

Lemma parse_uint_return s r v endp : parse_uint s = (r, v, endp) → r ≤ 0.
Proof.
  unfold parse_uint, strtoull. intros H. unfold EINVAL, ERANGE in *.
  repeat case_match; simplify_eq; try lia.
  all: repeat match goal with H : negb _ = _ |- _ => apply negb_false_iff in H
                         | H : (_ =? _) = true |- _ => apply Z.eqb_eq in H end; lia.
Qed.

Lemma parse_uint_full_0 s v :
  parse_uint_full (Some s) = (0, v) ↔ parses_unsigned s v EmptyString.
Proof.
  unfold parse_uint_full, parses_unsigned.
  destruct (parse_uint (Some s)) as [[r val] endp] eqn:Hp.
  pose proof (parse_uint_return _ _ _ _ Hp) as Hr. split.
  - intros H. destruct (Z.ltb_spec r 0); simplify_eq.
    + lia.
    + repeat case_match; simplify_eq. by replace r with 0 by lia.
  - intros H. by simplify_eq.
Qed.

Lemma opts_type_int_accepts ov name opt lo hi :
  list_mode ov = LM_IN_PROGRESS →
  lookup_scalar ov name = Some (Ok opt) →
  signed_interval_literal (default ""%string (opt_str opt)) lo hi →
  opts_type_int ov name =
    if bool_decide (lo ≤ hi ∧ hi - lo < OPTS_VISITOR_RANGE_MAX)
    then Ret (in_interval ov LM_SIGNED_INTERVAL (of_s64 lo) (of_s64 hi)) (Ok lo)
    else Ret ov (Err (QERR_INVALID_PARAMETER_VALUE (opt_name opt) "an int64 value or range")).
Proof using Type range_max_fits.
  clear strtosz_suffix.
  intros Hm Hl (s2 & [Hs1 Ha1] & [Hs2 Ha2]).
  pose proof (strtoll_bounds _ _ _ _ _ Hs1) as [Hlo1 Hlo2].
  pose proof (strtoll_bounds _ _ _ _ _ Hs2) as [Hhi1 Hhi2].
  unfold opts_type_int. rewrite Hm, Hl. cbv zeta. rewrite Hs1. cbv beta iota.
  rewrite Ha1, (proj2 (Z.leb_le _ _) Hlo1), (proj2 (Z.leb_le _ _) Hlo2).
  cbn [andb Z.eqb]. rewrite Hs2. cbv beta iota.
  rewrite Ha2, (proj2 (Z.leb_le _ _) Hhi1), (proj2 (Z.leb_le _ _) Hhi2).
  rewrite bool_decide_eq_true_2 by done. cbn [andb Z.eqb].
  rewrite signed_span_ok_spec by done.
  destruct (Z.leb_spec lo hi).
  - destruct (decide (hi - lo < OPTS_VISITOR_RANGE_MAX)).
    + rewrite (bool_decide_eq_true_2 (hi - lo < _)) by done.
      by rewrite bool_decide_eq_true_2 by (split; lia).
    + rewrite (bool_decide_eq_false_2 (hi - lo < _)) by done.
      by rewrite bool_decide_eq_false_2 by tauto.
  - by rewrite bool_decide_eq_false_2 by lia.
Qed.

Lemma opts_type_int_interval_only_if ov name opt ov' o :
  list_mode ov = LM_IN_PROGRESS →
  lookup_scalar ov name = Some (Ok opt) →
  opts_type_int ov name = Ret ov' o →
  list_mode ov' = LM_SIGNED_INTERVAL →
  ∃ lo hi, signed_interval_literal (default ""%string (opt_str opt)) lo hi ∧
    lo ≤ hi ∧ hi - lo < OPTS_VISITOR_RANGE_MAX.
Proof using Type range_max_fits.
  intros Hm Hl H Hm'. unfold opts_type_int, store_processed, processed in H.
  rewrite Hm, Hl in H. cbv zeta in H.
  destruct (strtoll 0 (default ""%string (opt_str opt))) as [[lo rest] e] eqn:Hs1.
  cbv beta iota in H.
  repeat case_match; simplify_eq; try (simpl in Hm'; congruence).
  bools. subst.
  match goal with H : signed_span_ok _ _ _ = Some true |- _ =>
    rewrite signed_span_ok_spec in H by (split; assumption); simplify_eq end.
  bools. eexists _, _. split; [|split; eassumption].
  eexists. split; split; eassumption.
Qed.

Lemma opts_type_uint64_accepts ov name opt s lo hi :
  list_mode ov = LM_IN_PROGRESS →
  lookup_scalar ov name = Some (Ok opt) →
  opt_str opt = Some s →
  unsigned_interval_literal s lo hi →
  opts_type_uint64 ov name =
    if bool_decide (lo ≤ hi ∧ hi - lo < OPTS_VISITOR_RANGE_MAX)
    then Ret (in_interval ov LM_UNSIGNED_INTERVAL lo hi) (Ok lo)
    else Ret ov (Err (QERR_INVALID_PARAMETER_VALUE (opt_name opt) "a uint64 value or range")).
Proof.
  clear strtosz_suffix range_max_fits.
  intros Hm Hl Hs (s2 & Hp1 & Hp2).
  pose proof (parse_uint_bounds _ _ _ _ Hp1) as [Hlo1 Hlo2].
  pose proof (parse_uint_bounds _ _ _ _ Hp2) as [Hhi1 Hhi2].
  apply parse_uint_full_0 in Hp2.
  unfold opts_type_uint64. rewrite Hm, Hl, Hs, Hp1. cbv beta iota.
  rewrite (proj2 (Z.leb_le _ _) Hlo2). cbn [andb Z.eqb]. rewrite Hp2. cbv beta iota.
  rewrite (proj2 (Z.leb_le _ _) Hhi2). cbn [andb Z.eqb].
  destruct (Z.leb_spec lo hi).
  - rewrite unsigned_span_ok_spec by done. cbn [andb].
    destruct (decide (hi - lo < OPTS_VISITOR_RANGE_MAX)).
    + rewrite (bool_decide_eq_true_2 (hi - lo < _)) by done.
      by rewrite bool_decide_eq_true_2 by (split; lia).
    + rewrite (bool_decide_eq_false_2 (hi - lo < _)) by done.
      by rewrite bool_decide_eq_false_2 by tauto.
  - by rewrite bool_decide_eq_false_2 by lia.
Qed.

Lemma opts_type_uint64_interval_only_if ov name opt ov' o :
  list_mode ov = LM_IN_PROGRESS →
  lookup_scalar ov name = Some (Ok opt) →
  opts_type_uint64 ov name = Ret ov' o →
  list_mode ov' = LM_UNSIGNED_INTERVAL →
  ∃ s lo hi, opt_str opt = Some s ∧ unsigned_interval_literal s lo hi ∧
    lo ≤ hi ∧ hi - lo < OPTS_VISITOR_RANGE_MAX.
Proof.
  intros Hm Hl H Hm'. unfold opts_type_uint64, store_processed, processed in H.
  rewrite Hm, Hl in H.
  destruct (parse_uint (opt_str opt)) as [[r lo] endp] eqn:Hp1.
  cbv beta iota in H.
  repeat case_match; simplify_eq; try (simpl in Hm'; congruence).
  bools. subst.
  destruct (opt_str opt) as [s|] eqn:Hs; [|by vm_compute in Hp1].
  pose proof (parse_uint_bounds _ _ _ _ Hp1) as [Hlo1 Hlo2].
  match goal with H : parse_uint_full _ = _ |- _ =>
    pose proof (parse_uint_full_bounds _ _ _ H) as [Hhi1 Hhi2];
    apply parse_uint_full_0 in H end.
  match goal with H : unsigned_span_ok _ _ _ = true |- _ =>
    rewrite unsigned_span_ok_spec in H by assumption end.
  bools.
  match goal with H : parses_unsigned ?s2 ?hi _ |- _ =>
    exists s, lo, hi; split_and!; [done|exists s2; by split|done..] end.
Qed.

Lemma opts_type_int_no_fault ov name opt :
  lookup_scalar ov name = Some (Ok opt) → opts_type_int ov name ≠ Fault.
Proof using Type range_max_fits.
  intros Hl. destruct (lookup_scalar_processed _ _ _ Hl) as [ov' Hp].
  unfold opts_type_int, store_processed. rewrite Hl, Hp. cbv zeta.
  destruct (strtoll 0 (default ""%string (opt_str opt))) as [[lo rest] e] eqn:Hs1.
  cbv beta iota.
  repeat case_match; simplify_eq; try done.
  bools.
  match goal with H : signed_span_ok _ _ _ = None |- _ =>
    rewrite signed_span_ok_spec in H by (split; assumption); simplify_eq end.
Qed.

(** C4.  Inside a list ([LM_IN_PROGRESS]) an interval literal, whose two
    bounds parse (the upper one to the end of the text), is accepted by
    [opts_type_int] and by [opts_type_uint64] exactly when
    [lower <= upper] and [upper - lower < OPTS_VISITOR_RANGE_MAX], and either
    method enters its interval only on such a literal.  The signed test never
    overflows [int64_t], and [opts_type_int] never faults.  The unsigned
    literal "5-3" fails with [QERR_INVALID_PARAMETER_VALUE]. *)
Theorem interval_acceptance ov name opt :
  list_mode ov = LM_IN_PROGRESS →
  lookup_scalar ov name = Some (Ok opt) →
  (∀ lo hi, signed_interval_literal (default ""%string (opt_str opt)) lo hi →
     opts_type_int ov name =
       if bool_decide (lo ≤ hi ∧ hi - lo < OPTS_VISITOR_RANGE_MAX)
       then Ret (in_interval ov LM_SIGNED_INTERVAL (of_s64 lo) (of_s64 hi)) (Ok lo)
       else Ret ov (Err (QERR_INVALID_PARAMETER_VALUE (opt_name opt)
                           "an int64 value or range"))) ∧
  (∀ ov' o, opts_type_int ov name = Ret ov' o → list_mode ov' = LM_SIGNED_INTERVAL →
     ∃ lo hi, signed_interval_literal (default ""%string (opt_str opt)) lo hi ∧
       lo ≤ hi ∧ hi - lo < OPTS_VISITOR_RANGE_MAX) ∧
  (∀ s lo hi, opt_str opt = Some s → unsigned_interval_literal s lo hi →
     opts_type_uint64 ov name =
       if bool_decide (lo ≤ hi ∧ hi - lo < OPTS_VISITOR_RANGE_MAX)
       then Ret (in_interval ov LM_UNSIGNED_INTERVAL lo hi) (Ok lo)
       else Ret ov (Err (QERR_INVALID_PARAMETER_VALUE (opt_name opt)
                           "a uint64 value or range"))) ∧
  (∀ ov' o, opts_type_uint64 ov name = Ret ov' o → list_mode ov' = LM_UNSIGNED_INTERVAL →
     ∃ s lo hi, opt_str opt = Some s ∧ unsigned_interval_literal s lo hi ∧
       lo ≤ hi ∧ hi - lo < OPTS_VISITOR_RANGE_MAX) ∧
  (∀ val val2, INT64_MIN ≤ val ≤ INT64_MAX → INT64_MIN ≤ val2 ≤ INT64_MAX →
     signed_span_ok OPTS_VISITOR_RANGE_MAX val val2 =
       Some (bool_decide (val2 - val < OPTS_VISITOR_RANGE_MAX))) ∧
  opts_type_int ov name ≠ Fault ∧
  (opt_str opt = Some "5-3"%string →
   opts_type_uint64 ov name =
     Ret ov (Err (QERR_INVALID_PARAMETER_VALUE (opt_name opt) "a uint64 value or range"))).
Proof using Type range_max_fits.
  intros Hm Hl. split_and!.
  - intros lo hi. by apply opts_type_int_accepts.
  - intros ov' o. by apply opts_type_int_interval_only_if.
  - intros s lo hi. by apply opts_type_uint64_accepts.
  - intros ov' o. by apply opts_type_uint64_interval_only_if.
  - apply signed_span_ok_spec.
  - by eapply opts_type_int_no_fault.
  - intros Hs. unfold opts_type_uint64. by rewrite Hm, Hl, Hs.
Qed.

End Intervals.

(** ** Building the index *)

Lemma table_ok_inj t h k1 k2 l :
  table_ok t h → t !! k1 = Some l → t !! k2 = Some l → k1 = k2.
Proof.
  intros Hok H1 H2.
  destruct (Hok _ _ H1) as (q1 & Hq1 & Hne & Hn1).
  destruct (Hok _ _ H2) as (q2 & Hq2 & _ & Hn2). simplify_eq.
  destruct q1 as [|o q]; [done|].
  apply Forall_cons in Hn1 as [? _]. apply Forall_cons in Hn2 as [? _]. congruence.
Qed.

Lemma opts_visitor_insert_ok h0 n0 b opt :
  building_ok h0 n0 b →
  ∃ b', opts_visitor_insert b opt = Some b' ∧ building_ok h0 n0 b' ∧
    ∀ k, is_Some (b'.1.1 !! k) ↔ is_Some (b.1.1 !! k) ∨ k = opt_name opt.
Proof.
  destruct b as [[t h] n]. intros (Hok & Hn & Hb & Hold & Hnew & Hleak).
  unfold opts_visitor_insert.
  destruct (t !! opt_name opt) as [l|] eqn:Hl.
  - destruct (Hok _ _ Hl) as (q & Hq & Hne & Hnamed). rewrite Hq.
    eexists. split; [done|]. split; [|simpl; intros k; split; [eauto|]].
    + split_and!; try done.
      * intros k l' Hk. destruct (decide (l' = l)) as [->|Hne'].
        -- rewrite lookup_insert_eq. eexists. split; [done|].
           assert (k = opt_name opt) as -> by eauto using table_ok_inj.
           split; [by destruct q|]. apply Forall_app. split; [done|].
           by apply Forall_singleton.
        -- rewrite lookup_insert_ne by done. eauto.
      * intros l' Hl'. apply Hb. destruct (decide (l' = l)) as [->|Hne'];
          [by rewrite Hq|by rewrite lookup_insert_ne in Hl'].
      * intros l' Hl'. rewrite lookup_insert_ne; [by apply Hold|].
        apply Hnew in Hl. lia.
      * intros l' Hn0 Hl'. apply Hleak; [done|].
        destruct (decide (l' = l)) as [->|Hne'];
          [by rewrite Hq|by rewrite lookup_insert_ne in Hl'].
    + intros [?| ->]; [done|by rewrite Hl].
  - eexists. split; [done|]. split; [|simpl; intros k].
    + split_and!.
      * intros k l' Hk. destruct (decide (k = opt_name opt)) as [->|Hne'].
        -- rewrite lookup_insert_eq in Hk. simplify_eq. rewrite lookup_insert_eq.
           eexists. split; [done|]. split; [done|]. by apply Forall_singleton.
        -- rewrite lookup_insert_ne in Hk by done.
           destruct (Hok _ _ Hk) as (q & Hq & ?).
           assert (l' < n)%nat by (apply Hb; by rewrite Hq).
           rewrite lookup_insert_ne by lia. eauto.
      * lia.
      * intros l' Hl'. destruct (decide (l' = n)) as [->|Hne']; [lia|].
        rewrite lookup_insert_ne in Hl' by done. apply Hb in Hl'. lia.
      * intros l' Hl'. rewrite lookup_insert_ne by lia. by apply Hold.
      * intros k l' Hk. destruct (decide (k = opt_name opt)) as [->|Hne'].
        -- rewrite lookup_insert_eq in Hk. by simplify_eq.
        -- rewrite lookup_insert_ne in Hk by done. eauto.
      * intros l' Hn0 Hl'. destruct (decide (l' = n)) as [->|Hne'].
        -- exists (opt_name opt). by rewrite lookup_insert_eq.
        -- rewrite lookup_insert_ne in Hl' by done.
           destruct (Hleak _ Hn0 Hl') as [k Hk]. exists k.
           rewrite lookup_insert_ne; [done|]. intros <-. congruence.
    + destruct (decide (k = opt_name opt)) as [->|Hne'].
      * rewrite lookup_insert_eq. split; eauto.
      * rewrite lookup_insert_ne by done. split; [eauto|]. by intros [?|?].
Qed.

Lemma insert_all_ok h0 n0 opts : ∀ b,
  building_ok h0 n0 b →
  Forall (λ o, opt_name o ≠ "id"%string) opts →
  ∃ b', insert_all b opts = Some b' ∧ building_ok h0 n0 b' ∧
    ∀ k, is_Some (b'.1.1 !! k) ↔ is_Some (b.1.1 !! k) ∨ k ∈ opt_name <$> opts.
Proof.
  clear strtosz_suffix.
  induction opts as [|o opts IH]; intros b Hb Hid; simpl.
  - exists b. split_and!; [done..|]. intros k. rewrite elem_of_nil. tauto.
  - apply Forall_cons in Hid as [Ho Hid]. rewrite bool_decide_eq_false_2 by done.
    destruct (opts_visitor_insert_ok _ _ _ o Hb) as (b1 & -> & Hb1 & Hd1).
    destruct (IH _ Hb1 Hid) as (b' & -> & Hb' & Hd').
    exists b'. split_and!; [done..|]. intros k.
    rewrite Hd', Hd1, elem_of_cons. tauto.
Qed.

Lemma insert_all_Some b opts b' :
  insert_all b opts = Some b' → Forall (λ o, opt_name o ≠ "id"%string) opts.
Proof.
  revert b. induction opts as [|o opts IH]; intros b H; simpl in *; [done|].
  case_bool_decide; [done|]. destruct (opts_visitor_insert b o); [|done].
  apply Forall_cons. eauto.
Qed.

Lemma building_ok_start h0 n0 : heap_bounded h0 n0 → building_ok h0 n0 (∅, h0, n0).
Proof.
  intros Hb. split_and!; try done.
  intros l Hn Hl. apply Hb in Hl. lia.
Qed.

(** The outermost [opts_start_struct]: it builds a sound table with a key for
    every name provided, and it returns unless an option is named "id". *)
Lemma opts_start_struct_outermost ov :
  depth ov ≤ 0 →
  heap_bounded (gqueues ov) (next_loc ov) →
  (∀ ov', opts_start_struct ov = Ret ov' () →
     ∃ t, unprocessed_opts ov' = Some t ∧
       building_ok (gqueues ov) (next_loc ov) (t, gqueues ov', next_loc ov') ∧
       (∀ k, is_Some (t !! k) ↔ provided (opts_root ov) k) ∧
       depth ov' = (depth ov + 1) mod 2 ^ 32 ∧ list_mode ov' = list_mode ov ∧
       repeated_opts ov' = repeated_opts ov ∧ opts_root ov' = opts_root ov) ∧
  (Forall (λ o, opt_name o ≠ "id"%string) (opts_head (opts_root ov)) →
   ∃ ov', opts_start_struct ov = Ret ov' ()).
Proof.
  clear strtosz_suffix.
  intros Hd Hb. unfold opts_start_struct.
  rewrite (proj2 (Z.ltb_ge _ _) Hd). cbv zeta.
  change (gqueues (set_depth ov ?d)) with (gqueues ov).
  change (next_loc (set_depth ov ?d)) with (next_loc ov).
  change (opts_root (set_depth ov ?d)) with (opts_root ov).
  pose proof (building_ok_start _ _ Hb) as Hb0.
  destruct (insert_all (∅, gqueues ov, next_loc ov) (opts_head (opts_root ov)))
    as [b|] eqn:Hins.
  - pose proof (insert_all_Some _ _ _ Hins) as Hid.
    destruct (insert_all_ok _ _ _ _ Hb0 Hid) as (b' & Hins' & Hb' & Hdom).
    rewrite Hins in Hins'. simplify_eq. unfold provided.
    destruct (opts_id (opts_root ov)) as [i|] eqn:Hi.
    + destruct (opts_visitor_insert_ok _ _ _ (mkQemuOpt "id" (Some i)) Hb')
        as ([[t h] n] & -> & Hb2 & Hdom2). simpl in *. split; [|eauto].
      intros ov' ?. simplify_eq/=. exists t.
      split; [done|]. split; [done|]. split; [|done].
      intros k. rewrite Hdom2, Hdom, lookup_empty, is_Some_alt. naive_solver.
    + destruct b' as [[t h] n]. simpl in *. split; [|eauto].
      intros ov' ?. simplify_eq/=. exists t.
      split; [done|]. split; [done|]. split; [|done].
      intros k. rewrite Hdom, lookup_empty, !is_Some_alt. naive_solver.
  - split; [done|]. intros Hid.
    destruct (insert_all_ok _ _ _ _ Hb0 Hid) as (b' & Hins' & _). congruence.
Qed.

(** ** The index invariant *)

Lemma index_wf_ext ov ov' :
  depth ov' = depth ov → unprocessed_opts ov' = unprocessed_opts ov →
  gqueues ov' = gqueues ov → index_wf ov → index_wf ov'.
Proof. intros Hd Ht Hh [? ?]. split; by rewrite ?Hd, ?Ht, ?Hh. Qed.

Lemma table_ok_delete t h k l :
  table_ok t h → t !! k = Some l → table_ok (delete k t) (delete l h).
Proof.
  intros Hok Hk k' l' Hk'. apply lookup_delete_Some in Hk' as [Hne Hk'].
  assert (l' ≠ l) by (intros ->; eauto using table_ok_inj).
  rewrite lookup_delete_ne by done. eauto.
Qed.

Lemma no_leak_delete t h k l :
  table_ok t h → no_leak t h → t !! k = Some l → no_leak (delete k t) (delete l h).
Proof.
  intros Hok Hleak Hk l' Hl'. apply lookup_delete_is_Some in Hl' as [Hne Hl'].
  destruct (Hleak _ Hl') as [k' Hk']. exists k'.
  rewrite lookup_delete_ne; [done|]. intros <-. congruence.
Qed.

Lemma g_hash_table_remove_Some ov key ov' :
  g_hash_table_remove ov key = Some ov' →
  ∃ t, unprocessed_opts ov = Some t ∧
    ((t !! key = None ∧ ov' = ov) ∨
     (∃ l, t !! key = Some l ∧
        ov' = set_gqueues (set_unprocessed_opts ov (Some (delete key t)))
                (delete l (gqueues ov)))).
Proof.
  unfold g_hash_table_remove. intros H.
  destruct (unprocessed_opts ov) as [t|]; [|done]. exists t. split; [done|].
  destruct (t !! key) as [l|]; simplify_eq; eauto.
Qed.

Lemma pop_repeated_Ret ov ov' b :
  pop_repeated ov = Ret ov' b →
  ∃ l opt q, repeated_opts ov = Some l ∧ gqueues ov !! l = Some (opt :: q) ∧
    ((q ≠ [] ∧ b = true ∧ ov' = set_gqueues ov (<[l := q]> (gqueues ov))) ∨
     (q = [] ∧ b = false ∧
      g_hash_table_remove (set_gqueues ov (<[l := []]> (gqueues ov))) (opt_name opt)
        = Some ov')).
Proof.
  unfold pop_repeated. intros H.
  destruct (repeated_opts ov) as [l|]; [|done].
  destruct (gqueues ov !! l) as [[|opt q]|] eqn:Hq; try done.
  exists l, opt, q. split_and!; [done..|].
  destruct q; [right|left]; repeat case_match; by simplify_eq.
Qed.

Lemma g_hash_table_remove_wf ov key ov' :
  index_wf ov → g_hash_table_remove ov key = Some ov' → index_wf ov'.
Proof.
  intros [Hd (t & Ht & Hok & Hleak)] H.
  apply g_hash_table_remove_Some in H as (t' & Ht' & [[_ ->]|(l & Hl & ->)]);
    [by split; eauto|]. simplify_eq.
  split; [done|]. exists (delete key t). simpl.
  eauto using table_ok_delete, no_leak_delete.
Qed.

Lemma pop_repeated_wf ov ov' b :
  index_wf ov → pop_repeated ov = Ret ov' b → index_wf ov'.
Proof.
  intros [Hd (t & Ht & Hok & Hleak)] H.
  apply pop_repeated_Ret in H
    as (l & opt & q & Hr & Hq & [(Hne & -> & ->)|(-> & -> & H)]).
  - split; [done|]. exists t. simpl. split_and!; [done| |].
    + intros k l' Hk. destruct (decide (l' = l)) as [->|Hne'].
      * rewrite lookup_insert_eq. destruct (Hok _ _ Hk) as (q' & Hq' & _ & Hn).
        simplify_eq. apply Forall_cons in Hn as [_ Hn]. eauto.
      * rewrite lookup_insert_ne by done. eauto.
    + intros l' Hl'. apply Hleak. destruct (decide (l' = l)) as [->|Hne'];
        [by rewrite Hq|by rewrite lookup_insert_ne in Hl'].
  - destruct (Hleak l) as [k Hk]; [by rewrite Hq|].
    destruct (Hok _ _ Hk) as (q' & Hq' & _ & Hn). simplify_eq.
    apply Forall_cons in Hn as [Hname _].
    unfold g_hash_table_remove in H. simpl in H. rewrite Ht, Hname, Hk in H.
    simplify_eq. split; [done|]. exists (delete (opt_name opt) t). simpl.
    rewrite delete_insert_eq. eauto using table_ok_delete, no_leak_delete.
Qed.

Lemma processed_wf ov name ov' :
  index_wf ov → processed ov name = Some ov' → index_wf ov'.
Proof.
  unfold processed. intros Hwf H.
  repeat case_match; simplify_eq; eauto using g_hash_table_remove_wf.
Qed.

Lemma opts_start_struct_idle ov :
  idle ov →
  (∀ ov', opts_start_struct ov = Ret ov' () → index_wf ov') ∧
  (Forall (λ o, opt_name o ≠ "id"%string) (opts_head (opts_root ov)) →
   ∃ ov', opts_start_struct ov = Ret ov' ()).
Proof.
  intros (Hd & _ & Hh).
  assert (heap_bounded (gqueues ov) (next_loc ov)) as Hb.
  { intros l. rewrite Hh, lookup_empty. by intros []. }
  destruct (opts_start_struct_outermost ov) as [Hret Htot]; [lia|done|].
  split; [|done]. intros ov' H.
  destruct (Hret _ H) as (t & Ht & (Hok & _ & _ & Hold & _ & Hnew) & _ & Hd' & _).
  rewrite Hd in Hd'. split; [by rewrite Hd'|]. exists t. split_and!; [done..|].
  intros l Hl. destruct (decide (l < next_loc ov)%nat) as [Hlt|Hge].
  - rewrite (Hold _ Hlt), Hh, lookup_empty in Hl. by destruct Hl.
  - apply Hnew; [lia|done].
Qed.

Lemma exec_wf c ov ov' r :
  index_wf ov → exec c ov = Ret ov' r → 0 < depth ov' → index_wf ov'.
Proof.
  intros Hwf H Hd'.
  assert (∀ ov1, depth ov1 = depth ov → unprocessed_opts ov1 = unprocessed_opts ov →
            gqueues ov1 = gqueues ov → index_wf ov1) as Hext
    by (intros; by apply (index_wf_ext ov)).
  destruct c; simpl in H; apply res_map_Ret in H as (a & H & ->).
  - unfold opts_start_struct in H. destruct Hwf as [Hd Ht].
    rewrite (proj2 (Z.ltb_lt _ _) Hd) in H. simplify_eq. by split.
  - unfold opts_end_struct in H. destruct Hwf as [Hd Ht].
    destruct (Z.ltb_spec 0 ((depth ov - 1) mod 2 ^ 32)).
    + simplify_eq. by split.
    + repeat case_match; simplify_eq; simpl in Hd'; lia.
  - unfold opts_start_list in H.
    repeat case_match; simplify_eq; by apply Hext.
  - unfold opts_next_list in H.
    repeat case_match; simplify_eq; try (by apply Hext);
      (eapply pop_repeated_wf; [|done]); by apply Hext.
  - unfold opts_end_list in H.
    repeat case_match; simplify_eq; by apply Hext.
  - apply visit_scalar_Ret in H
      as [[-> _]|[(v & _ & H)|(lo & hi & m & v & _ & _ & _ & ->)]];
      [done|by eapply processed_wf|by apply Hext].
  - unfold opts_start_optional in H. repeat case_match; by simplify_eq.
Qed.

Lemma elem_of_unconsumed ov o :
  o ∈ unconsumed ov ↔ ∃ l q, gqueues ov !! l = Some q ∧ o ∈ q.
Proof.
  unfold unconsumed. rewrite list_elem_of_join. split.
  - intros (q & Ho & Hq). apply list_elem_of_fmap in Hq as ([l q'] & -> & Hq).
    apply elem_of_map_to_list in Hq. eauto.
  - intros (l & q & Hq & Ho). exists q. split; [done|].
    apply list_elem_of_fmap. exists (l, q). split; [done|].
    by apply elem_of_map_to_list.
Qed.

Lemma index_wf_unconsumed ov k :
  index_wf ov → in_index ov k ↔ ∃ o, o ∈ unconsumed ov ∧ opt_name o = k.
Proof.
  intros [_ (t & Ht & Hok & Hleak)]. unfold in_index. split.
  - intros (t' & Ht' & [l Hl]). simplify_eq.
    destruct (Hok _ _ Hl) as ([|o q] & Hq & Hne & Hn); [done|].
    exists o. apply Forall_cons in Hn as [? _]. split; [|done].
    apply elem_of_unconsumed. exists l, (o :: q). split; [done|]. by left.
  - intros (o & Ho & <-). apply elem_of_unconsumed in Ho as (l & q & Hq & Ho).
    destruct (Hleak l) as [k Hk]; [by rewrite Hq|].
    destruct (Hok _ _ Hk) as (q' & Hq' & _ & Hn). simplify_eq.
    exists t. split; [done|]. exists l.
    by rewrite (proj1 (Forall_forall _ _) Hn _ Ho).
Qed.

Lemma opts_end_struct_idle ov ov' e :
  index_wf ov → depth ov = 1 → opts_end_struct ov = Ret ov' e → idle ov'.
Proof.
  intros [_ (t & Ht & Hok & Hleak)] Hd. unfold opts_end_struct.
  rewrite Hd. simpl. rewrite Ht. intros H.
  assert (g_hash_table_destroy t (gqueues ov) = ∅) as Hdestroy.
  { apply map_empty. intros l. apply map_lookup_filter_None. right.
    intros q Hq Hl. apply Hl. simpl. apply elem_of_map_img.
    apply Hleak. by rewrite Hq. }
  rewrite Hdestroy in H.
  repeat case_match; by simplify_eq.
Qed.

(** C9.  The index invariant: every key of the table has a live, non-empty
    queue of occurrences with its name, and every live queue is the value of
    a key.  The outermost [opts_start_struct] establishes it (and returns
    unless an option is named "id"), every method called while the depth stays
    positive preserves it, and the outermost [opts_end_struct] leaves nothing
    behind.  Under it a name is in the index exactly when one of its
    occurrences is not consumed yet, and no queue of the index is empty. *)
Theorem index_invariant ov :
  (idle ov →
   (∀ ov', opts_start_struct ov = Ret ov' () → index_wf ov') ∧
   (Forall (λ o, opt_name o ≠ "id"%string) (opts_head (opts_root ov)) →
    ∃ ov', opts_start_struct ov = Ret ov' ())) ∧
  (index_wf ov →
   (∀ c ov' r, exec c ov = Ret ov' r → 0 < depth ov' → index_wf ov') ∧
   (∀ k, in_index ov k ↔ ∃ o, o ∈ unconsumed ov ∧ opt_name o = k) ∧
   (∀ t k l, unprocessed_opts ov = Some t → t !! k = Some l →
      ∃ q, gqueues ov !! l = Some q ∧ q ≠ []) ∧
   (∀ ov' e, depth ov = 1 → opts_end_struct ov = Ret ov' e → idle ov')).
Proof.
  split; [apply opts_start_struct_idle|]. intros Hwf. split_and!.
  - intros c ov' r. by apply exec_wf.
  - intros k. by apply index_wf_unconsumed.
  - intros t k l Ht Hl. destruct Hwf as [_ (t' & Ht' & Hok & _)]. simplify_eq.
    destruct (Hok _ _ Hl) as (q & ? & ? & _). eauto.
  - intros ov' e. by apply opts_end_struct_idle.
Qed.

(** ** Leftovers at the outermost struct end *)

Lemma opts_end_struct_outermost ov t :
  depth ov = 1 →
  unprocessed_opts ov = Some t →
  table_ok t (gqueues ov) →
  (t = ∅ → opts_end_struct ov = Ret (torn_down ov t) None) ∧
  (t ≠ ∅ → ∃ k, is_Some (t !! k) ∧
     opts_end_struct ov = Ret (torn_down ov t) (Some (QERR_INVALID_PARAMETER k))).
Proof.
  intros Hd Ht Hok. unfold opts_end_struct, g_hash_table_find, torn_down.
  rewrite Hd. simpl. rewrite Ht. split.
  - intros ->. by rewrite map_to_list_empty.
  - intros Hne. destruct (map_to_list t) as [|[k l] kls] eqn:Hl.
    { by apply map_to_list_empty_iff in Hl. }
    assert (t !! k = Some l) as Hk.
    { apply elem_of_map_to_list. rewrite Hl. by left. }
    destruct (Hok _ _ Hk) as ([|first q] & Hq & ? & Hn); [done|].
    apply Forall_cons in Hn as [<- _].
    exists (opt_name first). split; [by rewrite Hk|]. simpl. by rewrite Hq.
Qed.

(** ** Struct end inside a list *)

(** C5, as amended.  [opts_end_struct] neither reads nor writes the list
    mode and the queue being traversed: with a list active it does what it
    does with [LM_NONE], and the list state is handed back as it was.  Nested,
    it only lowers the depth; when the depth returns to 0 over a sound table
    it returns, with the leftover check done and the table torn down. *)
Theorem opts_end_struct_ignores_list_mode ov m r :
  opts_end_struct (set_list_mode (set_repeated_opts ov r) m) =
    match opts_end_struct ov with
    | Fault => Fault
    | Ret ov' e => Ret (set_list_mode (set_repeated_opts ov' r) m) e
    end ∧
  (0 < (depth ov - 1) mod 2 ^ 32 →
   opts_end_struct ov = Ret (set_depth ov ((depth ov - 1) mod 2 ^ 32)) None) ∧
  (∀ t, depth ov = 1 → unprocessed_opts ov = Some t → table_ok t (gqueues ov) →
     ∃ e, opts_end_struct ov = Ret (torn_down ov t) e ∧
       list_mode (torn_down ov t) = list_mode ov ∧
       repeated_opts (torn_down ov t) = repeated_opts ov).
Proof.
  clear OPTS_VISITOR_RANGE_MAX strtosz_suffix.
  split_and!.
  - unfold opts_end_struct. simpl. repeat case_match; simplify_eq/=; done.
  - intros Hd. unfold opts_end_struct. by rewrite (proj2 (Z.ltb_lt _ _) Hd).
  - intros t Hd Ht Hok.
    destruct (opts_end_struct_outermost _ _ Hd Ht Hok) as [Hempty Hleft].
    destruct (decide (t = ∅)) as [->|Hne].
    + eexists. split; [by apply Hempty|done].
    + destruct (Hleft Hne) as (k & _ & ->). eauto.
Qed.

Lemma table_ok_pop t h l opt q :
  table_ok t h → h !! l = Some (opt :: q) →
  q ≠ [] ∨ t !! opt_name opt ≠ Some l →
  table_ok t (<[l := q]> h).
Proof.
  intros Hok Hq Hor k l' Hk. destruct (decide (l' = l)) as [->|Hne].
  - rewrite lookup_insert_eq. destruct (Hok _ _ Hk) as (q' & Hq' & _ & Hn).
    simplify_eq. apply Forall_cons in Hn as [<- Hn].
    exists q. split; [done|]. split; [|done]. by destruct Hor.
  - rewrite lookup_insert_ne by done. eauto.
Qed.

Lemma processed_Some ov name ov' :
  processed ov name = Some ov' →
  ov' = ov ∨ g_hash_table_remove ov name = Some ov'.
Proof. unfold processed. intros H. repeat case_match; simplify_eq; eauto. Qed.

Lemma keeps_remove n ov key ov' :
  keeps n ov → key ≠ n → g_hash_table_remove ov key = Some ov' → keeps n ov'.
Proof.
  intros (Hp & Hb & Ht & Hr) Hne H.
  apply g_hash_table_remove_Some in H as (t & Ht' & [[_ ->]|(l & Hl & ->)]);
    [done|].
  destruct (Ht _ Ht') as [Hok Hn]. split_and!; simpl; [done| | |].
  - intros l' Hl'. apply lookup_delete_is_Some in Hl' as [_ Hl']. by apply Hb.
  - intros t' ?. simplify_eq. split; [by apply table_ok_delete|].
    by rewrite lookup_delete_ne.
  - intros l' Hl'. destruct (Hr _ Hl') as [? Hq]. split; [done|].
    intros q Hq'. apply lookup_delete_Some in Hq' as [_ Hq']. eauto.
Qed.

Lemma keeps_pop n ov ov' b :
  keeps n ov → pop_repeated ov = Ret ov' b → keeps n ov'.
Proof.
  intros (Hp & Hb & Ht & Hr) H.
  apply pop_repeated_Ret in H
    as (l & opt & q & Hrep & Hq & [(Hne & -> & ->)|(-> & -> & H)]).
  - destruct (Hr _ Hrep) as [Hl Hnames]. split_and!; simpl; [done| | |].
    + intros l' Hl'. apply Hb. destruct (decide (l' = l)) as [->|?];
        [by rewrite Hq|by rewrite lookup_insert_ne in Hl'].
    + intros t Ht'. destruct (Ht _ Ht') as [Hok Hn].
      split; [|done]. eapply table_ok_pop; eauto.
    + intros l' Hl'. simplify_eq. split; [done|]. intros q'.
      rewrite lookup_insert_eq. intros ?. simplify_eq.
      specialize (Hnames _ Hq). by apply Forall_cons in Hnames as [_ ?].
  - destruct (Hr _ Hrep) as [Hl Hnames]. specialize (Hnames _ Hq).
    apply Forall_cons in Hnames as [Hname _].
    apply g_hash_table_remove_Some in H as (t & Ht' & H). simpl in Ht'.
    destruct (Ht _ Ht') as [Hok Hn].
    assert (heap_bounded (<[l := []]> (gqueues ov)) (next_loc ov)) as Hb'.
    { intros l' Hl'. apply Hb. destruct (decide (l' = l)) as [->|?];
        [by rewrite Hq|by rewrite lookup_insert_ne in Hl']. }
    destruct H as [[Hnone ->]|(l' & Hl' & ->)]; split_and!; simpl; try done.
    + intros t' ?. simplify_eq. split; [|done].
      eapply table_ok_pop; eauto. right. by rewrite Hnone.
    + intros l0 ?. simplify_eq. split; [done|]. intros q'.
      rewrite lookup_insert_eq. intros ?. by simplify_eq.
    + intros l0 Hl0. apply lookup_delete_is_Some in Hl0 as [_ Hl0]. by apply Hb'.
    + intros t' ?. simplify_eq. split; [|by rewrite lookup_delete_ne].
      destruct (decide (l' = l)) as [->|Hll].
      * rewrite delete_insert_eq. by apply table_ok_delete.
      * apply table_ok_delete; [|done]. eapply table_ok_pop; eauto.
        right. rewrite Hl'. congruence.
    + intros l0 ?. simplify_eq. split; [done|]. intros q' Hq'.
      apply lookup_delete_Some in Hq' as [_ Hq'].
      rewrite lookup_insert_eq in Hq'. by simplify_eq.
Qed.

Lemma keeps_ext n ov ov' :
  opts_root ov' = opts_root ov → gqueues ov' = gqueues ov →
  next_loc ov' = next_loc ov → unprocessed_opts ov' = unprocessed_opts ov →
  repeated_opts ov' = repeated_opts ov → keeps n ov → keeps n ov'.
Proof. unfold keeps. by intros -> -> -> -> ->. Qed.

Lemma keeps_no_repeated n ov ov' :
  opts_root ov' = opts_root ov → gqueues ov' = gqueues ov →
  next_loc ov' = next_loc ov → unprocessed_opts ov' = unprocessed_opts ov →
  repeated_opts ov' = None → keeps n ov → keeps n ov'.
Proof.
  unfold keeps. intros -> -> -> -> -> (? & ? & ? & _). by split_and!.
Qed.

Lemma keeps_start_struct n ov ov' :
  keeps n ov → opts_start_struct ov = Ret ov' () → keeps n ov'.
Proof.
  intros Hk H. destruct (Z.ltb_spec 0 (depth ov)) as [Hd|Hd].
  - unfold opts_start_struct in H. rewrite (proj2 (Z.ltb_lt _ _) Hd) in H.
    simplify_eq. by apply (keeps_ext n ov).
  - destruct Hk as (Hp & Hb & _ & Hr).
    destruct (opts_start_struct_outermost ov Hd Hb) as [Hret _].
    destruct (Hret _ H)
      as (t & Ht & (Hok & Hn0 & Hb' & Hold & _) & Hdom & _ & _ & Hrep & Hroot).
    split_and!.
    + by rewrite Hroot.
    + done.
    + intros t' ?. simplify_eq. split; [done|]. by apply Hdom.
    + intros l Hl. rewrite Hrep in Hl. destruct (Hr _ Hl) as [Hlt Hq].
      split; [lia|]. intros q. rewrite Hold by done. apply Hq.
Qed.

Lemma keeps_end_struct n ov ov' e :
  keeps n ov → opts_end_struct ov = Ret ov' e → keeps n ov'.
Proof.
  intros Hk H. unfold opts_end_struct in H.
  destruct (Z.ltb_spec 0 ((depth ov - 1) mod 2 ^ 32)).
  { simplify_eq. by apply (keeps_ext n ov). }
  assert (∃ t d, ov' =
    set_fake_id_opt
      (set_unprocessed_opts
         (set_gqueues (set_depth ov d) (g_hash_table_destroy t (gqueues ov))) None)
      None) as (t & d & ->).
  { repeat case_match; simplify_eq; eauto. }
  clear H. destruct Hk as (Hp & Hb & _ & Hr). split_and!; simpl; [done| |done|].
  - intros l Hl. apply Hb. destruct Hl as [q Hq].
    apply map_lookup_filter_Some in Hq as [Hq _]. by rewrite Hq.
  - intros l Hl. destruct (Hr _ Hl) as [? Hq]. split; [done|].
    intros q Hq'. apply map_lookup_filter_Some in Hq' as [Hq' _]. eauto.
Qed.

Lemma keeps_start_list n ov name ov' e :
  keeps n ov → name ≠ n → opts_start_list ov name = Ret ov' e → keeps n ov'.
Proof.
  intros Hk Hne H. unfold opts_start_list, lookup_distinct in H.
  destruct (list_mode ov); try done.
  destruct (unprocessed_opts ov) as [t|] eqn:Ht; [|done].
  destruct (t !! name) as [l|] eqn:Hl; simplify_eq.
  - destruct Hk as (Hp & Hb & Htab & Hr). destruct (Htab _ Ht) as [Hok Hn].
    destruct (Hok _ _ Hl) as (q & Hq & _ & Hnamed).
    split_and!; simpl; [done..|]. intros l' ?. simplify_eq.
    split; [apply Hb; by rewrite Hq|]. intros q' ?. simplify_eq.
    eapply Forall_impl; [done|]. simpl. congruence.
  - by apply (keeps_no_repeated n ov).
Qed.

Lemma keeps_exec n c ov ov' r :
  keeps n ov → ¬ decodes n c → exec c ov = Ret ov' r → keeps n ov'.
Proof.
  intros Hk Hdec H.
  assert (∀ ov1, opts_root ov1 = opts_root ov → gqueues ov1 = gqueues ov →
            next_loc ov1 = next_loc ov → unprocessed_opts ov1 = unprocessed_opts ov →
            repeated_opts ov1 = repeated_opts ov → keeps n ov1) as Hext
    by (intros; by apply (keeps_ext n ov)).
  destruct c; simpl in H, Hdec; apply res_map_Ret in H as (a & H & ->).
  - destruct a. eauto using keeps_start_struct.
  - eauto using keeps_end_struct.
  - eauto using keeps_start_list.
  - unfold opts_next_list in H.
    repeat case_match; simplify_eq; try (by apply Hext);
      (eapply keeps_pop; [|done]); by apply Hext.
  - unfold opts_end_list in H.
    repeat case_match; simplify_eq; by apply (keeps_no_repeated n ov).
  - apply visit_scalar_Ret in H
      as [[-> _]|[(v & _ & H)|(lo & hi & m & v & _ & _ & _ & ->)]];
      [done| |by apply Hext].
    apply processed_Some in H as [->|H]; eauto using keeps_remove.
  - unfold opts_start_optional in H. repeat case_match; by simplify_eq.
Qed.

Lemma keeps_run n cs : ∀ ov ov' tr,
  keeps n ov → Forall (λ c, ¬ decodes n c) cs → run cs ov = Ret ov' tr → keeps n ov'.
Proof.
  induction cs as [|c cs IH]; intros ov ov' tr Hk Hcs H; simpl in H.
  - by simplify_eq.
  - apply Forall_cons in Hcs as [Hc Hcs].
    destruct (exec c ov) as [|ov1 r] eqn:He; [done|].
    destruct (run cs ov1) as [|ov2 tr'] eqn:Hr; [done|]. simplify_eq.
    eauto using keeps_exec.
Qed.

Lemma keeps_new opts n : provided opts n → keeps n (opts_visitor_new opts).
Proof.
  intros Hp. split_and!; simpl; try done.
  intros l. rewrite lookup_empty. by intros [].
Qed.

(** ** The last occurrence, and the name once decoded *)

(** Outside a list every scalar method hands back what the occurrence found
    by [lookup_scalar] denotes, and consumes the name when there is a value. *)
Lemma visit_scalar_field_value k ov name opt ov' :
  list_mode ov = LM_NONE →
  lookup_scalar ov name = Some (Ok opt) →
  processed ov name = Some ov' →
  visit_scalar k ov name =
    match field_value strtosz_suffix k opt with
    | Some v => Ret ov' (Ok v)
    | None => Ret ov (Err (QERR_INVALID_PARAMETER_VALUE (opt_name opt) (expected k)))
    end.
Proof.
  intros Hm Hl Hp. destruct k; simpl.
  - unfold opts_type_int, store_processed. rewrite Hm, Hl, Hp. cbv zeta.
    destruct (strtoll 0 (default ""%string (opt_str opt))) as [[val endptr] errno] eqn:Hs.
    pose proof (strtoll_bounds _ _ _ _ _ Hs) as [Hlo Hhi].
    rewrite (proj2 (Z.leb_le _ _) Hlo), (proj2 (Z.leb_le _ _) Hhi), !andb_true_r.
    destruct errno; simpl; [|by destruct endptr..].
    destruct endptr as [|a rest]; simpl.
    + by destruct (advanced _ _).
    + destruct (advanced _ _); [|done]. by repeat case_match.
  - unfold opts_type_uint64, store_processed, parse_uint_full. rewrite Hm, Hl, Hp.
    cbv zeta.
    destruct (parse_uint (opt_str opt)) as [[r val] endp] eqn:Hu.
    pose proof (parse_uint_return _ _ _ _ Hu) as Hr.
    pose proof (parse_uint_bounds _ _ _ _ Hu) as [_ Hmax].
    rewrite (proj2 (Z.leb_le _ _) Hmax), andb_true_r.
    destruct (Z.eqb_spec r 0) as [->|Hne].
    + simpl. destruct endp as [[|a rest]|]; simpl.
      * done.
      * by repeat case_match.
      * unfold parse_uint in Hu. destruct (opt_str opt); [|by simplify_eq].
        repeat case_match; simplify_eq.
    + rewrite (proj2 (Z.ltb_lt r 0)) by lia. by destruct r.
  - unfold opts_type_size, store_processed. rewrite Hl, Hp.
    destruct (strtosz_suffix _ _) as [val endptr].
    destruct (Z.ltb_spec val 0); simpl.
    + by rewrite bool_decide_eq_false_2 by lia.
    + destruct endptr; simpl.
      * by rewrite bool_decide_eq_true_2 by (split; [lia|done]).
      * by rewrite bool_decide_eq_false_2 by (intros [_ ?]; done).
  - unfold opts_type_bool, store_processed. rewrite Hl, Hp.
    destruct (opt_str opt) as [s|]; [|done].
    destruct (String.eqb_spec s "on"); [by rewrite bool_decide_eq_true_2 by auto|].
    destruct (String.eqb_spec s "yes"); [by rewrite bool_decide_eq_true_2 by auto|].
    destruct (String.eqb_spec s "y"); [by rewrite bool_decide_eq_true_2 by auto|].
    rewrite bool_decide_eq_false_2 by (by intros [?|[?|?]]). simpl.
    destruct (String.eqb_spec s "off"); [by rewrite bool_decide_eq_true_2 by auto|].
    destruct (String.eqb_spec s "no"); [by rewrite bool_decide_eq_true_2 by auto|].
    destruct (String.eqb_spec s "n"); [by rewrite bool_decide_eq_true_2 by auto|].
    by rewrite bool_decide_eq_false_2 by (by intros [?|[?|?]]).
  - unfold opts_type_str, store_processed. by rewrite Hl, Hp.
Qed.

(** A name that is not a key does not become one, as long as
    [opts_start_struct] is not called. *)
Lemma exec_absent name c ov ov' r :
  c ≠ start_struct →
  exec c ov = Ret ov' r →
  (∀ t, unprocessed_opts ov = Some t → t !! name = None) →
  ∀ t, unprocessed_opts ov' = Some t → t !! name = None.
Proof.
  intros Hc H Habs.
  assert (∀ s key s', g_hash_table_remove s key = Some s' →
            unprocessed_opts s = unprocessed_opts ov →
            ∀ t, unprocessed_opts s' = Some t → t !! name = None) as Hrem.
  { intros s key s' Hr Hs t Ht.
    apply g_hash_table_remove_Some in Hr as (t0 & Ht0 & [[_ ->]|(l & _ & ->)]).
    - apply Habs. by rewrite <- Hs.
    - simpl in Ht. simplify_eq. apply lookup_delete_None. right.
      apply Habs. by rewrite <- Hs. }
  assert (∀ s s' b, pop_repeated s = Ret s' b →
            unprocessed_opts s = unprocessed_opts ov →
            ∀ t, unprocessed_opts s' = Some t → t !! name = None) as Hpop.
  { intros s s' b Hp Hs.
    apply pop_repeated_Ret in Hp as (l & opt & q & _ & _ & [(_ & _ & ->)|(_ & _ & Hr)]).
    - simpl. intros t Ht. apply Habs. by rewrite <- Hs.
    - by apply (Hrem _ _ _ Hr). }
  destruct c; try done; simpl in H; apply res_map_Ret in H as (a & H & ->).
  - unfold opts_end_struct in H. repeat case_match; simplify_eq; simpl; try done.
    all: intros t Ht; by apply Habs.
  - unfold opts_start_list in H. repeat case_match; simplify_eq; simpl; done.
  - unfold opts_next_list in H.
    repeat case_match; simplify_eq; simpl; try done; by apply (Hpop _ _ _ H).
  - unfold opts_end_list in H. repeat case_match; simplify_eq; simpl; done.
  - apply visit_scalar_Ret in H
      as [[-> _]|[(v & _ & H)|(lo & hi & m & v & _ & _ & _ & ->)]]; [done| |done].
    unfold processed in H. repeat case_match; simplify_eq; try done.
    by apply (Hrem _ _ _ H).
  - unfold opts_start_optional in H. repeat case_match; by simplify_eq.
Qed.

Lemma run_absent name cs : ∀ ov ov' tr,
  Forall (λ c, c ≠ start_struct) cs →
  run cs ov = Ret ov' tr →
  (∀ t, unprocessed_opts ov = Some t → t !! name = None) →
  ∀ t, unprocessed_opts ov' = Some t → t !! name = None.
Proof.
  induction cs as [|c cs IH]; intros ov ov' tr Hcs H Habs; simpl in H.
  - by simplify_eq.
  - apply Forall_cons in Hcs as [Hc Hcs].
    destruct (exec c ov) as [|ov1 r] eqn:He; [done|].
    destruct (run cs ov1) as [|ov2 tr'] eqn:Hr; [done|]. simplify_eq.
    eapply IH; [done..|]. by eapply exec_absent.
Qed.

(** C2.  Outside a list every scalar method reads the last occurrence in the
    queue of its name: the string, boolean, signed, unsigned and size methods
    each hand back what that occurrence denotes ([field_value]), or the error
    for a malformed value that names it, whatever the occurrences before it
    are.  When a scalar method succeeds the name has left the table; any
    scalar method called for the same name right afterwards fails with
    [QERR_MISSING_PARAMETER], and so does any called outside a list after
    further calls, whatever they are, as long as none is [opts_start_struct]
    and the table is still there. *)
Theorem scalar_last_wins_then_missing k ov name :
  list_mode ov = LM_NONE →
  (∀ t l q, unprocessed_opts ov = Some t → t !! name = Some l →
     gqueues ov !! l = Some q → q ≠ [] →
     ∃ opt ov', last q = Some opt ∧ lookup_scalar ov name = Some (Ok opt) ∧
       opts_type_str ov name = Ret ov' (Ok (default ""%string (opt_str opt))) ∧
       unprocessed_opts ov' = Some (delete name t) ∧
       visit_scalar k ov name =
         match field_value strtosz_suffix k opt with
         | Some v => Ret ov' (Ok v)
         | None =>
             Ret ov (Err (QERR_INVALID_PARAMETER_VALUE (opt_name opt) (expected k)))
         end) ∧
  (∀ ov' v, visit_scalar k ov name = Ret ov' (Ok v) →
     (∃ t, unprocessed_opts ov = Some t ∧ unprocessed_opts ov' = Some (delete name t)) ∧
     (∀ k', visit_scalar k' ov' name = Ret ov' (Err (QERR_MISSING_PARAMETER name))) ∧
     (∀ cs ov'' tr k',
        Forall (λ c, c ≠ start_struct) cs →
        run cs ov' = Ret ov'' tr →
        list_mode ov'' = LM_NONE → is_Some (unprocessed_opts ov'') →
        visit_scalar k' ov'' name = Ret ov'' (Err (QERR_MISSING_PARAMETER name)))).
Proof.
  intros Hm. split.
  - intros t l q Ht Hl Hq Hne.
    destruct (last q) as [opt|] eqn:Hlast; [|by apply last_None in Hlast].
    assert (lookup_scalar ov name = Some (Ok opt)) as Hs.
    { unfold lookup_scalar, lookup_distinct. by rewrite Hm, Ht, Hl, Hq, Hlast. }
    destruct (lookup_scalar_processed _ _ _ Hs) as [ov' Hp].
    destruct (processed_LM_NONE _ _ _ Hm Hp) as (_ & t' & Ht' & Hdel). simplify_eq.
    exists opt, ov'. split_and!; [done..| |done|].
    + unfold opts_type_str, store_processed. by rewrite Hs, Hp.
    + by apply visit_scalar_field_value.
  - intros ov' v H.
    apply visit_scalar_Ret in H
      as [[_ [H|[H|H]]]|[(v' & _ & H)|(lo & hi & m & v' & _ & H & _)]];
      try congruence; [by destruct (H v)|].
    destruct (processed_LM_NONE _ _ _ Hm H) as (Hm' & t & Ht & Ht').
    split; [eauto|]. split.
    + intros k'. apply visit_scalar_lookup_Err.
      unfold lookup_scalar, lookup_distinct. by rewrite Hm', Ht', lookup_delete_eq.
    + intros cs ov'' tr k' Hcs Hrun Hm'' [t'' Ht''].
      assert (t'' !! name = None) as Habs.
      { apply (run_absent name cs ov' ov'' tr Hcs Hrun); [|done].
        intros t0 Ht0. rewrite Ht' in Ht0. simplify_eq. apply lookup_delete_eq. }
      apply visit_scalar_lookup_Err.
      unfold lookup_scalar, lookup_distinct. by rewrite Hm'', Ht'', Habs.
Qed.

(** C3.  At the outermost [opts_end_struct] (the depth goes from 1 to 0) of
    a sound table: with an empty table the call succeeds; otherwise it fails
    with [QERR_INVALID_PARAMETER] for a name that is still in the table.  In
    both cases the table is torn down.  Hence, when the source provides a
    name that none of the calls made since [opts_visitor_new] decodes, the
    outermost [opts_end_struct] returns [QERR_INVALID_PARAMETER] for a name
    of the table. *)
Theorem opts_end_struct_leftovers :
  (∀ ov t,
     depth ov = 1 → unprocessed_opts ov = Some t → table_ok t (gqueues ov) →
     (t = ∅ → opts_end_struct ov = Ret (torn_down ov t) None) ∧
     (t ≠ ∅ → ∃ k, is_Some (t !! k) ∧
        opts_end_struct ov = Ret (torn_down ov t) (Some (QERR_INVALID_PARAMETER k)))) ∧
  (∀ opts n cs ov tr t,
     provided opts n →
     Forall (λ c, ¬ decodes n c) cs →
     run cs (opts_visitor_new opts) = Ret ov tr →
     depth ov = 1 →
     unprocessed_opts ov = Some t →
     is_Some (t !! n) ∧
     ∃ k, is_Some (t !! k) ∧
       opts_end_struct ov = Ret (torn_down ov t) (Some (QERR_INVALID_PARAMETER k))).
Proof.
  split; [apply opts_end_struct_outermost|].
  intros opts n cs ov tr t Hp Hcs Hrun Hd Htab.
  pose proof (keeps_run _ _ _ _ _ (keeps_new _ _ Hp) Hcs Hrun) as (_ & _ & Ht & _).
  destruct (Ht _ Htab) as [Hok Hn]. split; [done|].
  destruct (opts_end_struct_outermost _ _ Hd Htab Hok) as [_ Hne].
  apply Hne. intros ->. rewrite lookup_empty in Hn. by destruct Hn.
Qed.

(** ** Expanding an interval *)

Lemma to_of_s64 k : INT64_MIN ≤ k ≤ INT64_MAX → to_s64 (of_s64 k) = k.
Proof.
  intros Hk. unfold to_s64, of_s64. limits.
  destruct (Z.ltb_spec k 0).
  - replace (k mod 18446744073709551616) with (k + 18446744073709551616)
      by (apply Z.mod_unique with (-1); lia).
    destruct (Z.ltb_spec (k + 18446744073709551616) 9223372036854775808); lia.
  - rewrite Z.mod_small by lia.
    destruct (Z.ltb_spec k 9223372036854775808); lia.
Qed.

(** Inside a signed interval below its limit: the next link moves the counter
    by one, nothing else. *)
Lemma next_list_in_signed_interval ov k hi :
  list_mode ov = LM_SIGNED_INTERVAL →
  range_next ov = of_s64 k → range_limit ov = of_s64 hi →
  INT64_MIN ≤ k → k < hi → hi ≤ INT64_MAX →
  exec next_list ov = Ret (set_range_next ov (of_s64 (k + 1))) (RLink true).
Proof.
  intros Hm Hn Hl Hk Hlt Hhi. simpl. unfold opts_next_list.
  rewrite Hm, Hn, Hl, !to_of_s64 by lia.
  by rewrite (proj2 (Z.ltb_lt _ _) Hlt).
Qed.

(** Inside a signed interval the integer method hands back the counter. *)
Lemma type_int_in_signed_interval ov name k :
  list_mode ov = LM_SIGNED_INTERVAL →
  range_next ov = of_s64 k → INT64_MIN ≤ k ≤ INT64_MAX →
  exec (scalar type_int name) ov = Ret ov (RValue (Ok (VInt k))).
Proof.
  intros Hm Hn Hk. simpl. unfold opts_type_int. by rewrite Hm, Hn, to_of_s64.
Qed.

(** At the limit of a signed interval over a queue with one occurrence: the
    occurrence is popped, its name leaves the table, and the list is over. *)
Lemma next_list_at_limit ov t l opt k :
  list_mode ov = LM_SIGNED_INTERVAL →
  range_next ov = of_s64 k → range_limit ov = of_s64 k →
  repeated_opts ov = Some l → gqueues ov !! l = Some [opt] →
  unprocessed_opts ov = Some t → t !! opt_name opt = Some l →
  exec next_list ov =
    Ret (set_gqueues
           (set_unprocessed_opts (set_list_mode ov LM_IN_PROGRESS)
              (Some (delete (opt_name opt) t)))
           (delete l (gqueues ov)))
        (RLink false).
Proof.
  intros Hm Hn Hl Hr Hq Ht Hk. simpl. unfold opts_next_list.
  rewrite Hm, Hn, Hl, Z.ltb_irrefl.
  unfold pop_repeated, g_hash_table_remove. simpl.
  by rewrite Hr, Hq, Ht, Hk, delete_insert_eq.
Qed.

(** C1.  A list of signed integers decoded from a name whose queue holds
    the single occurrence "3-7" (whatever the element's member is called): the
    calls yield 3, 4, 5, 6 and 7 in this order and then the end of the list.  The first decode enters the signed
    interval; up to the last call the queues and the table are as they were
    at the start, and the last call pops the occurrence: its queue is freed
    and its name leaves the table. *)
Theorem interval_3_7_expansion ov t l name member opt :
  4 < OPTS_VISITOR_RANGE_MAX ≤ INT64_MAX →
  list_mode ov = LM_NONE →
  unprocessed_opts ov = Some t →
  t !! name = Some l →
  gqueues ov !! l = Some [opt] →
  opt_name opt = name →
  opt_str opt = Some "3-7"%string →
  ∃ ov' tr,
    run (five_int_calls name member) ov = Ret ov' tr ∧
    fst <$> tr =
      [RError None; RLink true;
       RValue (Ok (VInt 3)); RLink true;
       RValue (Ok (VInt 4)); RLink true;
       RValue (Ok (VInt 5)); RLink true;
       RValue (Ok (VInt 6)); RLink true;
       RValue (Ok (VInt 7)); RLink false] ∧
    (λ p, list_mode p.2) <$> tr =
      [LM_STARTED; LM_IN_PROGRESS;
       LM_SIGNED_INTERVAL; LM_SIGNED_INTERVAL;
       LM_SIGNED_INTERVAL; LM_SIGNED_INTERVAL;
       LM_SIGNED_INTERVAL; LM_SIGNED_INTERVAL;
       LM_SIGNED_INTERVAL; LM_SIGNED_INTERVAL;
       LM_SIGNED_INTERVAL; LM_IN_PROGRESS] ∧
    Forall (λ p, gqueues p.2 = gqueues ov ∧ unprocessed_opts p.2 = Some t) (take 11 tr) ∧
    gqueues ov' = delete l (gqueues ov) ∧
    unprocessed_opts ov' = Some (delete name t).
Proof.
  intros Hcap Hm Ht Hl Hq Hn Hs.
  set (s1 := set_list_mode (set_repeated_opts ov (Some l)) LM_STARTED).
  set (s2 := set_list_mode s1 LM_IN_PROGRESS).
  set (s3 := in_interval s2 LM_SIGNED_INTERVAL (of_s64 3) (of_s64 7)).
  set (s4 := set_range_next s3 (of_s64 4)).
  set (s5 := set_range_next s4 (of_s64 5)).
  set (s6 := set_range_next s5 (of_s64 6)).
  set (s7 := set_range_next s6 (of_s64 7)).
  assert (exec (start_list name) ov = Ret s1 (RError None)) as E1.
  { simpl. unfold opts_start_list, lookup_distinct. by rewrite Hm, Ht, Hl. }
  assert (exec next_list s1 = Ret s2 (RLink true)) as E2 by done.
  assert (exec (scalar type_int member) s2 = Ret s3 (RValue (Ok (VInt 3)))) as E3.
  { simpl. rewrite (opts_type_int_accepts ltac:(lia) s2 member opt 3 7).
    - by rewrite bool_decide_eq_true_2 by lia.
    - done.
    - unfold lookup_scalar. simpl. by rewrite Hq.
    - rewrite Hs. by exists "7"%string. }
  assert (∀ s k, list_mode s = LM_SIGNED_INTERVAL → range_next s = of_s64 k →
            range_limit s = of_s64 7 → 3 ≤ k < 7 →
            exec next_list s = Ret (set_range_next s (of_s64 (k + 1))) (RLink true)) as Enext.
  { intros s k ????. apply next_list_in_signed_interval with 7; try done; limits; lia. }
  assert (∀ s k, list_mode s = LM_SIGNED_INTERVAL → range_next s = of_s64 k →
            3 ≤ k ≤ 7 →
            exec (scalar type_int member) s = Ret s (RValue (Ok (VInt k)))) as Eint.
  { intros s k ???. apply type_int_in_signed_interval; try done; limits; lia. }
  eexists _, _. split.
  { unfold five_int_calls. cbn [run]. rewrite E1. cbn [run]. rewrite E2. cbn [run].
    rewrite E3.
    rewrite (Enext s3 3) by (done || lia). change (of_s64 (3 + 1)) with (of_s64 4). fold s4.
    rewrite (Eint s4 4) by (done || lia).
    rewrite (Enext s4 4) by (done || lia). change (of_s64 (4 + 1)) with (of_s64 5). fold s5.
    rewrite (Eint s5 5) by (done || lia).
    rewrite (Enext s5 5) by (done || lia). change (of_s64 (5 + 1)) with (of_s64 6). fold s6.
    rewrite (Eint s6 6) by (done || lia).
    rewrite (Enext s6 6) by (done || lia). change (of_s64 (6 + 1)) with (of_s64 7). fold s7.
    rewrite (Eint s7 7) by (done || lia).
    rewrite (next_list_at_limit s7 t l opt 7) by (done || by rewrite Hn).
    reflexivity. }
  split_and!; try done.
  - repeat (apply Forall_cons; split; [by split|]). constructor.
  - by rewrite Hn.
Qed.

End Properties.

(** * Examples *)

(** The scenario of the spec: "size" decoded as a list of unsigned integers
    and "name" as a string, nothing left over. *)
Example sizes_end_to_end :
  fst <$> replies sizes_opts (sizes_list_calls ++ [scalar type_str "name"; end_struct]) =
    [RVoid; RError None; RLink true;
     RValue (Ok (VUint64 10)); RLink true;
     RValue (Ok (VUint64 20)); RLink false; RVoid;
     RValue (Ok (VStr "x")); RError None].
Proof. vm_compute. reflexivity. Qed.

(** A bare flag decoded as a boolean and as a string. *)
Example flag_end_to_end :
  fst <$> replies flag_opts [start_struct; scalar type_bool "flag"; end_struct] =
    [RVoid; RValue (Ok (VBool true)); RError None] ∧
  fst <$> replies flag_opts [start_struct; scalar type_str "flag"; end_struct] =
    [RVoid; RValue (Ok (VStr "")); RError None].
Proof. split; vm_compute; reflexivity. Qed.

(** A list started for a name with no occurrence. *)
Example start_list_missing :
  fst <$> replies flag_opts [start_struct; start_list "nums"] =
    [RVoid; RError (Some (QERR_MISSING_PARAMETER "nums"))].
Proof. vm_compute. reflexivity. Qed.

(** C5, the claim as stated fails.  With a list active, [opts_end_struct]
    returns: nested in the struct of the list's element it lowers the depth;
    at the outermost level it reports the leftover name and tears the table
    down.  The list mode is [LM_IN_PROGRESS] before and after. *)
Lemma opts_end_struct_inside_list :
  list_mode count_in_element = LM_IN_PROGRESS ∧
  opts_end_struct count_in_element = Ret count_in_list None ∧
  list_mode count_in_list = LM_IN_PROGRESS ∧
  depth count_in_list = 1 ∧
  opts_end_struct count_in_list =
    Ret (torn_down count_in_list {["count"%string := 0%nat]})
        (Some (QERR_INVALID_PARAMETER "count")) ∧
  list_mode (torn_down count_in_list {["count"%string := 0%nat]}) = LM_IN_PROGRESS.
Proof. split_and!; vm_compute; reflexivity. Qed.

(** * The theorems at concrete inputs *)

(** [interval_3_7_expansion] for the source [nums_opts], with the element's
    member called "i64". *)
Lemma interval_3_7_expansion_witness :
  4 < RANGE_MAX_65536 ≤ INT64_MAX ∧
  list_mode nums_struct = LM_NONE ∧
  unprocessed_opts nums_struct = Some {["nums"%string := 0%nat]} ∧
  ({["nums"%string := 0%nat]} : gmap string loc) !! "nums"%string = Some 0%nat ∧
  gqueues nums_struct !! 0%nat = Some [mkQemuOpt "nums" (Some "3-7"%string)] ∧
  ∃ ov' tr,
    run RANGE_MAX_65536 strtosz_bytes (five_int_calls "nums" "i64") nums_struct = Ret ov' tr ∧
    fst <$> tr =
      [RError None; RLink true;
       RValue (Ok (VInt 3)); RLink true;
       RValue (Ok (VInt 4)); RLink true;
       RValue (Ok (VInt 5)); RLink true;
       RValue (Ok (VInt 6)); RLink true;
       RValue (Ok (VInt 7)); RLink false] ∧
    gqueues ov' = delete 0%nat (gqueues nums_struct) ∧
    unprocessed_opts ov' = Some (delete "nums"%string {["nums"%string := 0%nat]}).
Proof.
  assert (4 < RANGE_MAX_65536 ≤ INT64_MAX) as Hcap by (by vm_compute).
  assert (list_mode nums_struct = LM_NONE) as Hm by (vm_compute; reflexivity).
  assert (unprocessed_opts nums_struct = Some {["nums"%string := 0%nat]}) as Ht
    by (vm_compute; reflexivity).
  assert (({["nums"%string := 0%nat]} : gmap string loc) !! "nums"%string = Some 0%nat)
    as Hl by (vm_compute; reflexivity).
  assert (gqueues nums_struct !! 0%nat = Some [mkQemuOpt "nums" (Some "3-7"%string)])
    as Hq by (vm_compute; reflexivity).
  repeat (split; [assumption|]).
  destruct (interval_3_7_expansion RANGE_MAX_65536 strtosz_bytes nums_struct _ _
              "nums" "i64" _ Hcap Hm Ht Hl Hq eq_refl eq_refl)
    as (ov' & tr & Hrun & Hfst & _ & _ & Hh & Htab).
  exists ov', tr. by split_and!.
Defined.

(** [scalar_last_wins_then_missing] for the size method on "size" of
    [sizes_opts], given as "10" and then as "20": the method reads 20; then
    the name is missing, also after "name" has been decoded. *)
Lemma scalar_last_wins_then_missing_witness :
  list_mode sizes_struct = LM_NONE ∧
  unprocessed_opts sizes_struct =
    Some (<["size"%string := 0%nat]> {["name"%string := 1%nat]}) ∧
  gqueues sizes_struct !! 0%nat =
    Some [mkQemuOpt "size" (Some "10"%string); mkQemuOpt "size" (Some "20"%string)] ∧
  visit_scalar RANGE_MAX_65536 strtosz_bytes type_size sizes_struct "size" =
    Ret sizes_decoded (Ok (VSize 20)) ∧
  (∀ k, visit_scalar RANGE_MAX_65536 strtosz_bytes k sizes_decoded "size" =
          Ret sizes_decoded (Err (QERR_MISSING_PARAMETER "size"))) ∧
  (∀ k, visit_scalar RANGE_MAX_65536 strtosz_bytes k
          (reached sizes_opts [start_struct; scalar type_str "size";
                               start_optional "name"; scalar type_str "name"]) "size" =
          Ret (reached sizes_opts [start_struct; scalar type_str "size";
                                   start_optional "name"; scalar type_str "name"])
              (Err (QERR_MISSING_PARAMETER "size"))).
Proof.
  assert (list_mode sizes_struct = LM_NONE) as Hm by (vm_compute; reflexivity).
  assert (unprocessed_opts sizes_struct =
            Some (<["size"%string := 0%nat]> {["name"%string := 1%nat]})) as Ht
    by (vm_compute; reflexivity).
  assert ((<["size"%string := 0%nat]> {["name"%string := 1%nat]} : gmap string loc)
            !! "size"%string = Some 0%nat) as Hl by (vm_compute; reflexivity).
  assert (gqueues sizes_struct !! 0%nat =
            Some [mkQemuOpt "size" (Some "10"%string); mkQemuOpt "size" (Some "20"%string)])
    as Hq by (vm_compute; reflexivity).
  destruct (scalar_last_wins_then_missing RANGE_MAX_65536 strtosz_bytes
              type_size sizes_struct "size" Hm) as [Hlast Hthen].
  destruct (Hlast _ _ _ Ht Hl Hq ltac:(discriminate))
    as (opt & ov' & Hopt & _ & Hstr & _ & Hsize).
  simpl in Hopt. injection Hopt as <-.
  assert (ov' = sizes_decoded) as ->.
  { assert (Ret ov' (Ok "20"%string) = Ret sizes_decoded (Ok "20"%string)) as E
      by (simpl in Hstr; rewrite <- Hstr; vm_compute; reflexivity).
    by injection E. }
  assert (visit_scalar RANGE_MAX_65536 strtosz_bytes type_size sizes_struct "size" =
            Ret sizes_decoded (Ok (VSize 20))) as Hv by (rewrite Hsize; reflexivity).
  destruct (Hthen _ _ Hv) as (_ & Hmiss & Hlater).
  repeat (split; [assumption|]).
  intros k.
  apply (Hlater [start_optional "name"; scalar type_str "name"] _
           (drop 2 (replies sizes_opts [start_struct; scalar type_str "size";
                                        start_optional "name"; scalar type_str "name"]))
           k).
  - repeat constructor; discriminate.
  - vm_compute; reflexivity.
  - vm_compute; reflexivity.
  - vm_compute. eauto.
Defined.

(** [opts_end_struct_leftovers] for [sizes_opts] when only the list "size" is
    decoded: "name" is left over. *)
Lemma opts_end_struct_leftovers_witness :
  provided sizes_opts "name" ∧
  Forall (λ c, ¬ decodes "name" c) sizes_list_calls ∧
  run RANGE_MAX_65536 strtosz_bytes sizes_list_calls (opts_visitor_new sizes_opts) =
    Ret (reached sizes_opts sizes_list_calls) (replies sizes_opts sizes_list_calls) ∧
  depth (reached sizes_opts sizes_list_calls) = 1 ∧
  unprocessed_opts (reached sizes_opts sizes_list_calls) =
    Some {["name"%string := 1%nat]} ∧
  is_Some (({["name"%string := 1%nat]} : gmap string loc) !! "name"%string) ∧
  ∃ k, is_Some (({["name"%string := 1%nat]} : gmap string loc) !! k) ∧
    opts_end_struct (reached sizes_opts sizes_list_calls) =
      Ret (torn_down (reached sizes_opts sizes_list_calls) {["name"%string := 1%nat]})
          (Some (QERR_INVALID_PARAMETER k)).
Proof.
  assert (provided sizes_opts "name") as Hp by (left; simpl; repeat constructor).
  assert (Forall (λ c, ¬ decodes "name" c) sizes_list_calls) as Hcs
    by (repeat constructor; simpl; (tauto || discriminate)).
  assert (run RANGE_MAX_65536 strtosz_bytes sizes_list_calls (opts_visitor_new sizes_opts) =
            Ret (reached sizes_opts sizes_list_calls) (replies sizes_opts sizes_list_calls))
    as Hrun by (vm_compute; reflexivity).
  assert (depth (reached sizes_opts sizes_list_calls) = 1) as Hd
    by (vm_compute; reflexivity).
  assert (unprocessed_opts (reached sizes_opts sizes_list_calls) =
            Some {["name"%string := 1%nat]}) as Ht by (vm_compute; reflexivity).
  repeat (split; [assumption|]).
  exact (proj2 (opts_end_struct_leftovers RANGE_MAX_65536 strtosz_bytes)
           _ _ _ _ _ _ Hp Hcs Hrun Hd Ht).
Defined.

(** [interval_acceptance] for the unsigned "5-3" and the signed "3-7". *)
Lemma interval_acceptance_witness :
  0 ≤ RANGE_MAX_65536 ≤ INT64_MAX ∧
  list_mode count_in_list = LM_IN_PROGRESS ∧
  lookup_scalar count_in_list "count" = Some (Ok (mkQemuOpt "count" (Some "5-3"%string))) ∧
  opts_type_uint64 RANGE_MAX_65536 count_in_list "count" =
    Ret count_in_list
      (Err (QERR_INVALID_PARAMETER_VALUE "count" "a uint64 value or range")) ∧
  list_mode nums_in_list = LM_IN_PROGRESS ∧
  lookup_scalar nums_in_list "nums" = Some (Ok (mkQemuOpt "nums" (Some "3-7"%string))) ∧
  signed_interval_literal "3-7" 3 7 ∧
  opts_type_int RANGE_MAX_65536 nums_in_list "nums" =
    Ret (in_interval nums_in_list LM_SIGNED_INTERVAL (of_s64 3) (of_s64 7)) (Ok 3).
Proof.
  assert (0 ≤ RANGE_MAX_65536 ≤ INT64_MAX) as Hcap by (by vm_compute).
  assert (list_mode count_in_list = LM_IN_PROGRESS) as Hm by (vm_compute; reflexivity).
  assert (lookup_scalar count_in_list "count" =
            Some (Ok (mkQemuOpt "count" (Some "5-3"%string)))) as Hl
    by (vm_compute; reflexivity).
  assert (list_mode nums_in_list = LM_IN_PROGRESS) as Hm' by (vm_compute; reflexivity).
  assert (lookup_scalar nums_in_list "nums" =
            Some (Ok (mkQemuOpt "nums" (Some "3-7"%string)))) as Hl'
    by (vm_compute; reflexivity).
  assert (signed_interval_literal "3-7" 3 7) as Hlit
    by (exists "7"%string; split; split; vm_compute; reflexivity).
  destruct (interval_acceptance RANGE_MAX_65536 Hcap count_in_list "count" _ Hm Hl)
    as (_ & _ & _ & _ & _ & _ & H53).
  destruct (interval_acceptance RANGE_MAX_65536 Hcap nums_in_list "nums" _ Hm' Hl')
    as (Hacc & _).
  pose proof (H53 eq_refl) as Hrej. pose proof (Hacc 3 7 Hlit) as Hok.
  repeat (split; [assumption|]). exact Hok.
Defined.

(** [opts_type_uint64_no_value] for the bare flag of [flag_opts]. *)
Lemma opts_type_uint64_no_value_witness :
  lookup_scalar flag_struct "flag" = Some (Ok (mkQemuOpt "flag" None)) ∧
  opts_type_uint64 RANGE_MAX_65536 flag_struct "flag" =
    Ret flag_struct (Err (QERR_INVALID_PARAMETER_VALUE "flag" "a uint64 value")) ∧
  opts_type_int RANGE_MAX_65536 flag_struct "flag" =
    Ret flag_struct (Err (QERR_INVALID_PARAMETER_VALUE "flag" "an int64 value")).
Proof.
  assert (lookup_scalar flag_struct "flag" = Some (Ok (mkQemuOpt "flag" None))) as Hl
    by (vm_compute; reflexivity).
  destruct (opts_type_uint64_no_value RANGE_MAX_65536 flag_struct "flag" _ Hl eq_refl)
    as (Hu & Hi & _).
  by split_and!.
Defined.

(** [opts_type_bool_values] for the value "maybe" and for a bare flag. *)
Lemma opts_type_bool_values_witness :
  lookup_scalar junk_struct "flag" = Some (Ok (mkQemuOpt "flag" (Some "maybe"%string))) ∧
  opts_type_bool junk_struct "flag" =
    Ret junk_struct (Err (QERR_INVALID_PARAMETER_VALUE "flag" "on|yes|y|off|no|n")) ∧
  lookup_scalar flag_struct "flag" = Some (Ok (mkQemuOpt "flag" None)) ∧
  ∃ ov', processed flag_struct "flag" = Some ov' ∧
         opts_type_bool flag_struct "flag" = Ret ov' (Ok true).
Proof.
  assert (lookup_scalar junk_struct "flag" =
            Some (Ok (mkQemuOpt "flag" (Some "maybe"%string)))) as Hl
    by (vm_compute; reflexivity).
  assert (lookup_scalar flag_struct "flag" = Some (Ok (mkQemuOpt "flag" None))) as Hl'
    by (vm_compute; reflexivity).
  assert (opts_type_bool junk_struct "flag" =
    Ret junk_struct (Err (QERR_INVALID_PARAMETER_VALUE "flag" "on|yes|y|off|no|n")))
    as Hrej.
  { destruct (opts_type_bool_values junk_struct "flag" _ Hl) as (ov' & _ & _ & _ & Hbad).
    apply Hbad. intros Hin.
    repeat (apply elem_of_cons in Hin as [Hin|Hin]; [discriminate Hin|]).
    by apply elem_of_nil in Hin. }
  repeat (split; [assumption|]).
  exact (opts_type_bool_values flag_struct "flag" _ Hl').
Defined.

(** [opts_type_int_no_range_outside_list] for "3-7" decoded as a scalar. *)
Lemma opts_type_int_no_range_outside_list_witness :
  list_mode nums_struct = LM_NONE ∧
  lookup_scalar nums_struct "nums" = Some (Ok (mkQemuOpt "nums" (Some "3-7"%string))) ∧
  opts_type_int RANGE_MAX_65536 nums_struct "nums" =
    Ret nums_struct (Err (QERR_INVALID_PARAMETER_VALUE "nums" "an int64 value")).
Proof.
  assert (list_mode nums_struct = LM_NONE) as Hm by (vm_compute; reflexivity).
  assert (lookup_scalar nums_struct "nums" =
            Some (Ok (mkQemuOpt "nums" (Some "3-7"%string)))) as Hl
    by (vm_compute; reflexivity).
  repeat (split; [assumption|]).
  destruct (opts_type_int_no_range_outside_list RANGE_MAX_65536 nums_struct "nums" _ Hm Hl)
    as (_ & H37 & _).
  exact (H37 eq_refl).
Defined.

(** [index_invariant] along the first calls on [sizes_opts]. *)
Lemma index_invariant_witness :
  idle (opts_visitor_new sizes_opts) ∧
  opts_start_struct (opts_visitor_new sizes_opts) = Ret sizes_struct () ∧
  index_wf sizes_struct ∧
  exec RANGE_MAX_65536 strtosz_bytes (scalar type_str "size") sizes_struct =
    Ret sizes_decoded (RValue (Ok (VStr "20"))) ∧
  0 < depth sizes_decoded ∧
  index_wf sizes_decoded ∧
  (in_index sizes_decoded "name" ↔
   ∃ o, o ∈ unconsumed sizes_decoded ∧ opt_name o = "name"%string).
Proof.
  assert (idle (opts_visitor_new sizes_opts)) as Hidle by (by split_and!).
  assert (opts_start_struct (opts_visitor_new sizes_opts) = Ret sizes_struct ()) as Hs
    by (vm_compute; reflexivity).
  assert (exec RANGE_MAX_65536 strtosz_bytes (scalar type_str "size") sizes_struct =
            Ret sizes_decoded (RValue (Ok (VStr "20")))) as He
    by (vm_compute; reflexivity).
  assert (0 < depth sizes_decoded) as Hd by (by vm_compute).
  assert (index_wf sizes_struct) as Hwf.
  { exact (proj1 (proj1 (index_invariant RANGE_MAX_65536 strtosz_bytes
                           (opts_visitor_new sizes_opts)) Hidle) _ Hs). }
  assert (index_wf sizes_decoded) as Hwf'.
  { exact (proj1 (proj2 (index_invariant RANGE_MAX_65536 strtosz_bytes sizes_struct)
                    Hwf) _ _ _ He Hd). }
  repeat (split; [assumption|]).
  exact (proj1 (proj2 (proj2 (index_invariant RANGE_MAX_65536 strtosz_bytes
                                sizes_decoded) Hwf')) "name"%string).
Defined.

(** [scalar_error_keeps_visitor] for the size method on the value "maybe". *)
Lemma scalar_error_keeps_visitor_witness :
  visit_scalar RANGE_MAX_65536 strtosz_bytes type_size junk_struct "flag" =
    Ret junk_struct
      (Err (QERR_INVALID_PARAMETER_VALUE "flag"
              "a size value representible as a non-negative int64")) ∧
  junk_struct = junk_struct.
Proof.
  assert (visit_scalar RANGE_MAX_65536 strtosz_bytes type_size junk_struct "flag" =
    Ret junk_struct
      (Err (QERR_INVALID_PARAMETER_VALUE "flag"
              "a size value representible as a non-negative int64"))) as Hv
    by (vm_compute; reflexivity).
  split; [exact Hv|].
  exact (scalar_error_keeps_visitor RANGE_MAX_65536 strtosz_bytes type_size
           junk_struct "flag" junk_struct _ Hv).
Defined.

(** [opts_end_struct_ignores_list_mode] inside the list "count": nested in
    the element's struct, and at the outermost level. *)
Lemma opts_end_struct_ignores_list_mode_witness :
  0 < (depth count_in_element - 1) mod 2 ^ 32 ∧
  opts_end_struct count_in_element =
    Ret (set_depth count_in_element ((depth count_in_element - 1) mod 2 ^ 32)) None ∧
  depth count_in_list = 1 ∧
  unprocessed_opts count_in_list = Some {["count"%string := 0%nat]} ∧
  table_ok {["count"%string := 0%nat]} (gqueues count_in_list) ∧
  ∃ e, opts_end_struct count_in_list =
         Ret (torn_down count_in_list {["count"%string := 0%nat]}) e ∧
       list_mode (torn_down count_in_list {["count"%string := 0%nat]}) =
         list_mode count_in_list ∧
       repeated_opts (torn_down count_in_list {["count"%string := 0%nat]}) =
         repeated_opts count_in_list.
Proof.
  assert (0 < (depth count_in_element - 1) mod 2 ^ 32) as Hnested by (by vm_compute).
  assert (depth count_in_list = 1) as Hd by (vm_compute; reflexivity).
  assert (unprocessed_opts count_in_list = Some {["count"%string := 0%nat]}) as Ht
    by (vm_compute; reflexivity).
  assert (table_ok {["count"%string := 0%nat]} (gqueues count_in_list)) as Hok.
  { intros k l Hk. apply lookup_singleton_Some in Hk as [<- <-].
    exists [mkQemuOpt "count" (Some "5-3"%string)].
    split; [vm_compute; reflexivity|]. split; [discriminate|].
    by repeat constructor. }
  pose proof (proj1 (proj2 (opts_end_struct_ignores_list_mode count_in_element
                              LM_NONE None)) Hnested) as Hn.
  pose proof (proj2 (proj2 (opts_end_struct_ignores_list_mode count_in_list
                              LM_NONE None)) _ Hd Ht Hok) as Ho.
  repeat (split; [assumption|]). exact Ho.
Defined.

(** * Further properties *)

Section Further.

Variable OPTS_VISITOR_RANGE_MAX : Z.
Variable strtosz_suffix : string → ascii → Z * string.

Set Default Proof Using "Type".

Local Abbreviation opts_type_int := (opts_type_int OPTS_VISITOR_RANGE_MAX).
Local Abbreviation opts_type_uint64 := (opts_type_uint64 OPTS_VISITOR_RANGE_MAX).
Local Abbreviation opts_type_size := (opts_type_size strtosz_suffix).
Local Abbreviation visit_scalar := (visit_scalar OPTS_VISITOR_RANGE_MAX strtosz_suffix).
Local Abbreviation exec := (exec OPTS_VISITOR_RANGE_MAX strtosz_suffix).
Local Abbreviation run := (run OPTS_VISITOR_RANGE_MAX strtosz_suffix).

(** ** Grouping by name *)

Lemma queue_of_insert h0 n0 b opt b' k :
  building_ok h0 n0 b →
  opts_visitor_insert b opt = Some b' →
  queue_of b' k = queue_of b k ++ (if decide (opt_name opt = k) then [opt] else []).
Proof.
  clear OPTS_VISITOR_RANGE_MAX strtosz_suffix.
  destruct b as [[t h] n]. intros (Hok & Hn & Hb & Hold & Hnew & Hleak).
  unfold opts_visitor_insert, queue_of. simpl.
  destruct (t !! opt_name opt) as [l|] eqn:Hl.
  - destruct (Hok _ _ Hl) as (q & Hq & _). rewrite Hq. intros ?. simplify_eq/=.
    destruct (decide (opt_name opt = k)) as [<-|Hne].
    + by rewrite Hl, lookup_insert_eq, Hq.
    + destruct (t !! k) as [l'|] eqn:Hk; [|done].
      rewrite lookup_insert_ne, app_nil_r; [done|].
      intros <-. apply Hne. eauto using table_ok_inj.
  - intros ?. simplify_eq/=. destruct (decide (opt_name opt = k)) as [<-|Hne].
    + by rewrite lookup_insert_eq, lookup_insert_eq, Hl.
    + rewrite lookup_insert_ne by done.
      destruct (t !! k) as [l'|] eqn:Hk; [|done].
      destruct (Hok _ _ Hk) as (q & Hq & _).
      assert (l' < n)%nat by (apply Hb; by rewrite Hq).
      rewrite lookup_insert_ne, app_nil_r by lia. done.
Qed.

Lemma queue_of_insert_all h0 n0 opts k : ∀ b b',
  building_ok h0 n0 b →
  insert_all b opts = Some b' →
  queue_of b' k = queue_of b k ++ filter (λ o, opt_name o = k) opts.
Proof.
  clear OPTS_VISITOR_RANGE_MAX strtosz_suffix.
  induction opts as [|o opts IH]; intros b b' Hb H; simpl in H.
  - simplify_eq. by rewrite filter_nil, app_nil_r.
  - case_bool_decide; [done|].
    destruct (opts_visitor_insert_ok _ _ _ o Hb) as (b1 & Hi & Hb1 & _).
    rewrite Hi in H. rewrite (IH _ _ Hb1 H), (queue_of_insert _ _ _ _ _ k Hb Hi).
    rewrite filter_cons, <- app_assoc. by destruct (decide (opt_name o = k)).
Qed.

Lemma opts_start_struct_queue_of ov ov' :
  idle ov →
  opts_start_struct ov = Ret ov' () →
  ∃ t, unprocessed_opts ov' = Some t ∧ table_ok t (gqueues ov') ∧
    ∀ k, queue_of (t, gqueues ov', next_loc ov') k = occurrences (opts_root ov) k.
Proof.
  clear OPTS_VISITOR_RANGE_MAX strtosz_suffix.
  intros (Hd & _ & Hh) H.
  assert (building_ok (gqueues ov) (next_loc ov) (∅, gqueues ov, next_loc ov)) as Hb0.
  { apply building_ok_start. intros l. rewrite Hh, lookup_empty. by intros []. }
  unfold opts_start_struct in H. rewrite Hd in H. simpl in H.
  destruct (insert_all _ _) as [b|] eqn:Hins; [|done].
  pose proof (insert_all_Some _ _ _ Hins) as Hid.
  destruct (insert_all_ok _ _ _ _ Hb0 Hid) as (b0 & Hins' & Hb & _).
  rewrite Hins in Hins'. simplify_eq.
  assert (∀ k, queue_of b0 k = filter (λ o, opt_name o = k) (opts_head (opts_root ov)))
    as Hq by (intros k; by rewrite (queue_of_insert_all _ _ _ k _ _ Hb0 Hins)).
  assert (∃ t h n, ov' = set_next_loc (set_gqueues (set_unprocessed_opts
                     (set_fake_id_opt (set_depth ov 1) (fake_id_opt ov')) (Some t)) h) n ∧
            building_ok (gqueues ov) (next_loc ov) (t, h, n) ∧
            ∀ k, queue_of (t, h, n) k = occurrences (opts_root ov) k)
    as (t & h & n & -> & (Hok & _) & Hocc).
  { unfold occurrences, fake_id. destruct (opts_id (opts_root ov)) as [i|].
    - destruct (opts_visitor_insert_ok _ _ _ (mkQemuOpt "id" (Some i)) Hb)
        as ([[t h] n] & Hi & Hb2 & _).
      rewrite Hi in H. simplify_eq. exists t, h, n. split_and!; [done..|].
      intros k. rewrite (queue_of_insert _ _ _ _ _ k Hb Hi), Hq, filter_app.
      by f_equal.
    - destruct b0 as [[t h] n]. simplify_eq. exists t, h, n. split_and!; [done..|].
      intros k. by rewrite Hq, app_nil_r. }
  exists t. by split_and!.
Qed.

(** X1.  The outermost [opts_start_struct] on an idle visitor groups the
    source by name: a name with no occurrence has no key, and the queue of any
    other name holds its occurrences in the order of the source (for "id",
    the fake option of the identifier). *)
Theorem opts_start_struct_groups ov ov' :
  idle ov →
  opts_start_struct ov = Ret ov' () →
  ∃ t, unprocessed_opts ov' = Some t ∧
    ∀ k, match t !! k with
         | Some l => gqueues ov' !! l = Some (occurrences (opts_root ov) k) ∧
                     occurrences (opts_root ov) k ≠ []
         | None => occurrences (opts_root ov) k = []
         end.
Proof.
  clear OPTS_VISITOR_RANGE_MAX strtosz_suffix.
  intros Hidle H.
  destruct (opts_start_struct_queue_of _ _ Hidle H) as (t & Ht & Hok & Hocc).
  exists t. split; [done|]. intros k. specialize (Hocc k).
  unfold queue_of in Hocc. simpl in *. destruct (t !! k) as [l|] eqn:Hk; [|done].
  destruct (Hok _ _ Hk) as (q & Hl & Hne & _). rewrite Hl in Hocc. simpl in Hocc.
  by rewrite Hl, <- Hocc.
Qed.

(** ** Presence *)

(** X2.  Outside a list, over a sound table, [opts_start_optional] tells
    what the methods called next will find, and consumes nothing: for a name
    with a key it answers [true], the string method succeeds and a list can be
    started; for a name without one it answers [false], and every scalar
    method and [opts_start_list] fail with [QERR_MISSING_PARAMETER]. *)
Theorem opts_start_optional_predicts ov t name :
  list_mode ov = LM_NONE →
  unprocessed_opts ov = Some t →
  table_ok t (gqueues ov) →
  match t !! name with
  | Some l =>
      opts_start_optional ov name = Ret ov true ∧
      (∃ ov' v, opts_type_str ov name = Ret ov' (Ok v) ∧
                unprocessed_opts ov' = Some (delete name t)) ∧
      opts_start_list ov name =
        Ret (set_list_mode (set_repeated_opts ov (Some l)) LM_STARTED) None
  | None =>
      opts_start_optional ov name = Ret ov false ∧
      (∀ k, visit_scalar k ov name = Ret ov (Err (QERR_MISSING_PARAMETER name))) ∧
      opts_start_list ov name =
        Ret (set_repeated_opts ov None) (Some (QERR_MISSING_PARAMETER name))
  end.
Proof.
  intros Hm Ht Hok. destruct (t !! name) as [l|] eqn:Hl.
  - destruct (Hok _ _ Hl) as (q & Hq & Hne & _).
    destruct (last q) as [opt|] eqn:Hlast; [|by apply last_None in Hlast].
    split_and!.
    + unfold opts_start_optional, lookup_distinct. by rewrite Hm, Ht, Hl.
    + unfold opts_type_str, store_processed, lookup_scalar, lookup_distinct,
        processed, g_hash_table_remove.
      rewrite Hm, Ht, Hl, Hq, Hlast. simpl. eauto.
    + unfold opts_start_list, lookup_distinct. by rewrite Hm, Ht, Hl.
  - split_and!.
    + unfold opts_start_optional, lookup_distinct. by rewrite Hm, Ht, Hl.
    + intros k. apply visit_scalar_lookup_Err.
      unfold lookup_scalar, lookup_distinct. by rewrite Hm, Ht, Hl.
    + unfold opts_start_list, lookup_distinct. by rewrite Hm, Ht, Hl.
Qed.

(** ** Scalars inside a list *)

Lemma lookup_scalar_in_list ov name name' :
  list_mode ov ≠ LM_NONE → lookup_scalar ov name = lookup_scalar ov name'.
Proof. unfold lookup_scalar. by destruct (list_mode ov). Qed.

Lemma processed_in_list ov name name' :
  list_mode ov ≠ LM_NONE → processed ov name = processed ov name'.
Proof. unfold processed. by destruct (list_mode ov). Qed.

(** X3.  Inside a list the scalar methods do not look at the name they are
    given: the element is the head of the queue being traversed.  A decode
    that starts in [LM_IN_PROGRESS] consumes nothing: it hands back the
    visitor unchanged, or the same visitor with an interval entered. *)
Theorem scalar_in_list_ignores_name k ov name :
  list_mode ov ≠ LM_NONE →
  (∀ name', visit_scalar k ov name' = visit_scalar k ov name) ∧
  (∀ ov' o, list_mode ov = LM_IN_PROGRESS →
     visit_scalar k ov name = Ret ov' o →
     ov' = ov ∨
     ∃ lo hi m, (m = LM_SIGNED_INTERVAL ∨ m = LM_UNSIGNED_INTERVAL) ∧
       ov' = in_interval ov m lo hi).
Proof.
  intros Hm. split.
  - intros name'. destruct k; simpl;
      unfold opts_type_int, opts_type_uint64, opts_type_size, opts_type_bool,
        opts_type_str, store_processed;
      by rewrite (lookup_scalar_in_list ov name' name Hm),
           (processed_in_list ov name' name Hm).
  - intros ov' o Hp H.
    apply visit_scalar_Ret in H
      as [[-> _]|[(v & _ & H)|(lo & hi & m & v & _ & _ & Hor & ->)]].
    + by left.
    + unfold processed in H. rewrite Hp in H. simplify_eq. by left.
    + right. by exists lo, hi, m.
Qed.

(** ** Lists of plain values *)

Lemma mjoin_replicate_S {A} (x : list A) n :
  mjoin (replicate (S n) x) = x ++ mjoin (replicate n x).
Proof. reflexivity. Qed.

Lemma values_cons r (s : OptsVisitor) tr :
  values ((r, s) :: tr) =
    match r with RValue o => o :: values tr | _ => values tr end.
Proof. by destruct r. Qed.

Lemma links_cons r (s : OptsVisitor) tr :
  links ((r, s) :: tr) =
    match r with RLink b => b :: links tr | _ => links tr end.
Proof. by destruct r. Qed.

Lemma string_list_loop member t l name : ∀ q o s,
  list_mode s = LM_IN_PROGRESS →
  repeated_opts s = Some l →
  gqueues s !! l = Some (o :: q) →
  unprocessed_opts s = Some t →
  t !! name = Some l →
  named name (o :: q) →
  ∃ s' tr,
    run (mjoin (replicate (S (List.length q)) [scalar type_str member; next_list])) s
      = Ret s' tr ∧
    values tr = (λ o, Ok (VStr (default ""%string (opt_str o)))) <$> (o :: q) ∧
    links tr = replicate (List.length q) true ++ [false] ∧
    unprocessed_opts s' = Some (delete name t) ∧
    gqueues s' = delete l (gqueues s) ∧
    list_mode s' = LM_IN_PROGRESS.
Proof.
  induction q as [|o2 q IH]; intros o s Hm Hr Hq Ht Hl Hn.
  - assert (exec (scalar type_str member) s =
              Ret s (RValue (Ok (VStr (default ""%string (opt_str o)))))) as E1.
    { simpl. unfold opts_type_str, lookup_scalar, store_processed, processed.
      by rewrite Hm, Hr, Hq. }
    apply Forall_cons in Hn as [Hname _].
    assert (exec next_list s =
              Ret (set_gqueues
                     (set_unprocessed_opts s (Some (delete name t)))
                     (delete l (gqueues s))) (RLink false)) as E2.
    { simpl. unfold opts_next_list, pop_repeated, g_hash_table_remove.
      rewrite Hm, Hr, Hq. simpl. by rewrite Ht, Hname, Hl, delete_insert_eq. }
    eexists _, _. split.
    { rewrite mjoin_replicate_S. cbn [run app]. rewrite E1, E2. reflexivity. }
    by split_and!.
  - assert (exec (scalar type_str member) s =
              Ret s (RValue (Ok (VStr (default ""%string (opt_str o)))))) as E1.
    { simpl. unfold opts_type_str, lookup_scalar, store_processed, processed.
      by rewrite Hm, Hr, Hq. }
    set (s1 := set_gqueues s (<[l := o2 :: q]> (gqueues s))).
    assert (exec next_list s = Ret s1 (RLink true)) as E2.
    { simpl. unfold opts_next_list, pop_repeated. by rewrite Hm, Hr, Hq. }
    apply Forall_cons in Hn as [_ Hn].
    destruct (IH o2 s1) as (s' & tr & Hrun & Hv & Hk & Ht' & Hh & Hm'); try done.
    { simpl. by rewrite lookup_insert_eq. }
    exists s'. eexists. split.
    { rewrite mjoin_replicate_S. cbn [run app]. rewrite E1, E2. cbv beta iota.
      change (List.length (o2 :: q)) with (S (List.length q)).
      rewrite Hrun. reflexivity. }
    split_and!; try done.
    + by rewrite !values_cons, Hv.
    + by rewrite !links_cons, Hk.
    + rewrite Hh. simpl. by rewrite delete_insert_eq.
Qed.

(** X4.  A list of strings decoded from a name of a sound table: the calls
    yield the values of the queue's occurrences in the queue's order (the empty
    string for an occurrence with no value), [opts_next_list] answers with a
    link for every occurrence and with the null link after the last one, and
    then the name is out of the table and its queue is freed. *)
Theorem string_list_in_order ov t l name member q :
  list_mode ov = LM_NONE →
  unprocessed_opts ov = Some t →
  table_ok t (gqueues ov) →
  t !! name = Some l →
  gqueues ov !! l = Some q →
  ∃ ov' tr,
    run (list_calls name member type_str (List.length q)) ov = Ret ov' tr ∧
    values tr = (λ o, Ok (VStr (default ""%string (opt_str o)))) <$> q ∧
    links tr = replicate (List.length q) true ++ [false] ∧
    unprocessed_opts ov' = Some (delete name t) ∧
    gqueues ov' = delete l (gqueues ov).
Proof.
  intros Hm Ht Hok Hl Hq.
  destruct (Hok _ _ Hl) as (q' & Hq' & Hne & Hn). simplify_eq.
  destruct q as [|o q]; [done|].
  set (s1 := set_list_mode (set_repeated_opts ov (Some l)) LM_STARTED).
  set (s2 := set_list_mode s1 LM_IN_PROGRESS).
  assert (exec (start_list name) ov = Ret s1 (RError None)) as E1.
  { simpl. unfold opts_start_list, lookup_distinct. by rewrite Hm, Ht, Hl. }
  assert (exec next_list s1 = Ret s2 (RLink true)) as E2 by done.
  destruct (string_list_loop member t l name q o s2)
    as (s' & tr & Hrun & Hv & Hk & Ht' & Hh & _); try done.
  exists s'. eexists. split.
  { unfold list_calls. cbn [run]. rewrite E1, E2. cbv beta iota.
    simpl List.length. rewrite Hrun. reflexivity. }
  split; [by rewrite !values_cons|]. split; [by rewrite !links_cons, Hk|].
  by split.
Qed.

(** ** Intervals of any size *)

Lemma signed_interval_loop member hi : ∀ n k s,
  list_mode s = LM_SIGNED_INTERVAL →
  range_next s = of_s64 k → range_limit s = of_s64 hi →
  INT64_MIN ≤ k → k + Z.of_nat n ≤ hi → hi ≤ INT64_MAX →
  ∃ s' tr,
    run (interval_calls member type_int n) s = Ret s' tr ∧
    values tr = (λ v, Ok (VInt v)) <$> seqZ (k + 1) (Z.of_nat n) ∧
    Forall (λ p, gqueues p.2 = gqueues s ∧ unprocessed_opts p.2 = unprocessed_opts s ∧
                 list_mode p.2 = LM_SIGNED_INTERVAL) tr ∧
    list_mode s' = LM_SIGNED_INTERVAL ∧
    range_next s' = of_s64 (k + Z.of_nat n) ∧ range_limit s' = of_s64 hi ∧
    gqueues s' = gqueues s ∧ unprocessed_opts s' = unprocessed_opts s ∧
    repeated_opts s' = repeated_opts s.
Proof.
  induction n as [|n IH]; intros k s Hm Hn Hl Hk Hle Hhi.
  - exists s, []. rewrite Z.add_0_r. by split_and!.
  - set (s1 := set_range_next s (of_s64 (k + 1))).
    assert (exec next_list s = Ret s1 (RLink true)) as E1.
    { apply next_list_in_signed_interval with hi; try done. lia. }
    assert (exec (scalar type_int member) s1 = Ret s1 (RValue (Ok (VInt (k + 1))))) as E2.
    { apply type_int_in_signed_interval; try done. lia. }
    destruct (IH (k + 1) s1) as (s' & tr & Hrun & Hv & Hall & Hm' & Hn' & Hl' & Hh & Ht & Hr);
      try done; try lia.
    exists s'. eexists. split.
    { unfold interval_calls in *. rewrite mjoin_replicate_S. cbn [run app].
      rewrite E1, E2. cbv beta iota. rewrite Hrun. reflexivity. }
    split_and!; try done.
    + rewrite !values_cons, Hv. rewrite (seqZ_cons (k + 1)) by lia.
      simpl. do 3 f_equal; lia.
    + repeat (apply Forall_cons; split; [done|]). done.
    + rewrite Hn'. f_equal. lia.
Qed.

(** X5.  Inside a list, an element whose text is a signed interval literal
    [lo-hi] with [lo <= hi] and [hi - lo < OPTS_VISITOR_RANGE_MAX] yields
    every integer from [lo] to [hi] in increasing order, each once: at most
    [OPTS_VISITOR_RANGE_MAX] elements.  Queues and table are untouched all
    along; the link asked for after [hi] pops the occurrence and, when others
    follow in the queue, goes on with them in [LM_IN_PROGRESS]. *)
Theorem signed_interval_expansion ov member opt q l lo hi :
  0 ≤ OPTS_VISITOR_RANGE_MAX ≤ INT64_MAX →
  list_mode ov = LM_IN_PROGRESS →
  repeated_opts ov = Some l →
  gqueues ov !! l = Some (opt :: q) →
  signed_interval_literal (default ""%string (opt_str opt)) lo hi →
  lo ≤ hi →
  hi - lo < OPTS_VISITOR_RANGE_MAX →
  ∃ ov' tr,
    run (scalar type_int member :: interval_calls member type_int (Z.to_nat (hi - lo))) ov
      = Ret ov' tr ∧
    values tr = (λ v, Ok (VInt v)) <$> seqZ lo (hi - lo + 1) ∧
    Z.of_nat (List.length (values tr)) ≤ OPTS_VISITOR_RANGE_MAX ∧
    Forall (λ p, gqueues p.2 = gqueues ov ∧ unprocessed_opts p.2 = unprocessed_opts ov ∧
                 list_mode p.2 = LM_SIGNED_INTERVAL) tr ∧
    (q ≠ [] →
     exec next_list ov' =
       Ret (set_gqueues (set_list_mode ov' LM_IN_PROGRESS) (<[l := q]> (gqueues ov)))
           (RLink true)).
Proof.
  intros Hcap Hm Hr Hq Hlit Hle Hspan.
  assert (lookup_scalar ov member = Some (Ok opt)) as Hlook.
  { unfold lookup_scalar. by rewrite Hm, Hr, Hq. }
  assert (INT64_MIN ≤ lo ∧ hi ≤ INT64_MAX) as [Hlo Hhi].
  { destruct Hlit as (s2 & [H1 _] & [H2 _]).
    apply strtoll_bounds in H1, H2. lia. }
  set (s1 := in_interval ov LM_SIGNED_INTERVAL (of_s64 lo) (of_s64 hi)).
  assert (exec (scalar type_int member) ov = Ret s1 (RValue (Ok (VInt lo)))) as E1.
  { simpl. rewrite (opts_type_int_accepts OPTS_VISITOR_RANGE_MAX Hcap ov member opt lo hi)
      by done.
    by rewrite bool_decide_eq_true_2. }
  destruct (signed_interval_loop member hi (Z.to_nat (hi - lo)) lo s1)
    as (s' & tr & Hrun & Hv & Hall & Hm' & Hn' & Hl' & Hh & Ht & Hr'); try done; try lia.
  exists s'. eexists. split.
  { cbn [run]. rewrite E1, Hrun. reflexivity. }
  assert (values ((RValue (Ok (VInt lo)), s1) :: tr) =
            (λ v, Ok (VInt v)) <$> seqZ lo (hi - lo + 1)) as Hvals.
  { rewrite values_cons, Hv, (seqZ_cons lo) by lia. simpl.
    do 3 f_equal; lia. }
  split_and!.
  - done.
  - rewrite Hvals, length_fmap, length_seqZ. lia.
  - apply Forall_cons. split; [done|]. done.
  - intros Hne. simpl. unfold opts_next_list.
    rewrite Hm', Hn', Hl', Z2Nat.id by lia.
    replace (lo + (hi - lo)) with hi by lia. rewrite Z.ltb_irrefl.
    unfold pop_repeated. simpl. rewrite Hr', Hh. subst s1. simpl.
    rewrite Hr, Hq. by destruct q.
Qed.





(** ** Whole decodes *)

Lemma run_app cs1 : ∀ cs2 ov,
  run (cs1 ++ cs2) ov =
    match run cs1 ov with
    | Fault => Fault
    | Ret ov1 tr1 =>
        match run cs2 ov1 with
        | Fault => Fault
        | Ret ov2 tr2 => Ret ov2 (tr1 ++ tr2)
        end
    end.
Proof.
  induction cs1 as [|c cs1 IH]; intros cs2 ov; simpl.
  - by destruct (run cs2 ov).
  - destruct (exec c ov) as [|ov1 r]; [done|]. rewrite IH.
    destruct (run cs1 ov1) as [|ov2 tr1]; [done|].
    by destruct (run cs2 ov2).
Qed.

(** The string method outside a list, over a sound table: it returns, and
    the name is out of the table afterwards. *)
Lemma opts_type_str_outside_list ov t name :
  list_mode ov = LM_NONE →
  unprocessed_opts ov = Some t →
  table_ok t (gqueues ov) →
  ∃ ov' o, opts_type_str ov name = Ret ov' o ∧
    unprocessed_opts ov' = Some (delete name t) ∧
    list_mode ov' = LM_NONE ∧ depth ov' = depth ov.
Proof.
  intros Hm Ht Hok.
  unfold opts_type_str, store_processed, lookup_scalar, lookup_distinct,
    processed, g_hash_table_remove.
  rewrite Hm, Ht. destruct (t !! name) as [l|] eqn:Hl.
  - destruct (Hok _ _ Hl) as (q & Hq & Hne & _). rewrite Hq.
    destruct (last q) as [opt|] eqn:Hlast; [|by apply last_None in Hlast].
    simpl. eauto 10.
  - eexists _, _. split; [done|]. by rewrite Ht, delete_id.
Qed.

Lemma strings_loop ns : ∀ s t,
  index_wf s → list_mode s = LM_NONE → unprocessed_opts s = Some t →
  ∃ s' tr t',
    run (scalar type_str <$> ns) s = Ret s' tr ∧
    index_wf s' ∧ list_mode s' = LM_NONE ∧ depth s' = depth s ∧
    unprocessed_opts s' = Some t' ∧
    ∀ k, is_Some (t' !! k) → is_Some (t !! k) ∧ k ∉ ns.
Proof.
  induction ns as [|n ns IH]; intros s t Hwf Hm Ht.
  - exists s, [], t. split_and!; try done. intros k Hk. split; [done|].
    apply not_elem_of_nil.
  - assert (table_ok t (gqueues s)) as Hok.
    { destruct Hwf as [_ (t0 & Ht0 & Hok & _)]. by simplify_eq. }
    destruct (opts_type_str_outside_list s t n Hm Ht Hok)
      as (s1 & o & E & Ht1 & Hm1 & Hd1).
    assert (exec (scalar type_str n) s = Ret s1 (RValue (outcome_map VStr o))) as E1
      by (simpl; by rewrite E).
    assert (index_wf s1) as Hwf1.
    { eapply exec_wf; [exact Hwf|exact E1|]. rewrite Hd1. by destruct Hwf. }
    destruct (IH s1 _ Hwf1 Hm1 Ht1) as (s' & tr & t' & Hrun & Hwf' & Hm' & Hd' & Ht' & Hk).
    exists s'. eexists. exists t'. split.
    { rewrite fmap_cons. cbn [run]. rewrite E1, Hrun. reflexivity. }
    split_and!; try done; [congruence|].
    intros k Hk'. destruct (Hk _ Hk') as [Hin Hns].
    apply lookup_delete_is_Some in Hin as [Hne Hin]. split; [done|].
    intros [->|?]%elem_of_cons; done.
Qed.

Lemma destroy_no_leak t h : no_leak t h → g_hash_table_destroy t h = ∅.
Proof.
  clear OPTS_VISITOR_RANGE_MAX strtosz_suffix.
  intros Hleak. apply map_empty. intros l. apply map_lookup_filter_None. right.
  intros q Hq Hl. apply Hl. simpl. apply elem_of_map_img.
  apply Hleak. by rewrite Hq.
Qed.

(** X7.  When no option is named "id" and the string method is called for
    (at least) every name the source provides, in any order and any number of
    times, no call faults, the outermost [opts_end_struct] reports no error,
    and the visitor is idle again with no queue left. *)
Theorem all_decoded_no_leftover opts ns :
  Forall (λ o, opt_name o ≠ "id"%string) (opts_head opts) →
  (∀ n, provided opts n → n ∈ ns) →
  ∃ ov tr,
    run (start_struct :: (scalar type_str <$> ns) ++ [end_struct])
        (opts_visitor_new opts) = Ret ov tr ∧
    last_reply tr = Some (RError None) ∧
    idle ov.
Proof.
  intros Hid Hall.
  assert (idle (opts_visitor_new opts)) as Hidle by done.
  destruct (opts_start_struct_idle _ Hidle) as [Hwf Htot].
  destruct (Htot Hid) as [s1 E1]. specialize (Hwf _ E1).
  destruct (opts_start_struct_outermost (opts_visitor_new opts)) as [Hret _];
    [done|by intros l; simpl; rewrite lookup_empty; intros []|].
  destruct (Hret _ E1) as (t & Ht & _ & Hdom & Hd & Hm & _).
  destruct (strings_loop ns s1 t Hwf Hm Ht)
    as (s2 & tr & t' & Hrun & Hwf2 & Hm2 & Hd2 & Ht2 & Hk).
  assert (t' = ∅) as ->.
  { apply map_empty. intros k. apply eq_None_not_Some. intros Hsome.
    destruct (Hk _ Hsome) as [Hin Hns]. apply Hns, Hall, Hdom, Hin. }
  assert (depth s2 = 1) as Hd2' by (by rewrite Hd2, Hd).
  assert (table_ok ∅ (gqueues s2)) as Hok by (by intros k l; rewrite lookup_empty).
  destruct (opts_end_struct_outermost _ _ Hd2' Ht2 Hok) as [Hend _].
  specialize (Hend eq_refl).
  assert (exec start_struct (opts_visitor_new opts) = Ret s1 RVoid) as E1'
    by (simpl; by rewrite E1).
  assert (exec end_struct s2 = Ret (torn_down s2 ∅) (RError None)) as E2'
    by (simpl; by rewrite Hend).
  exists (torn_down s2 ∅). eexists. split.
  { cbn [run]. rewrite E1', run_app, Hrun. cbn [run]. rewrite E2'. reflexivity. }
  split.
  - unfold last_reply. by rewrite last_cons, last_snoc.
  - by eapply opts_end_struct_idle.
Qed.

(** ** Lists of numbers and intervals *)

Lemma values_app tr1 tr2 : values (tr1 ++ tr2) = values tr1 ++ values tr2.
Proof. clear. apply omap_app. Qed.

Lemma links_app tr1 tr2 : links (tr1 ++ tr2) = links tr1 ++ links tr2.
Proof. clear. apply omap_app. Qed.

Lemma pop_repeated_popped s l o q t :
  list_mode s = LM_IN_PROGRESS →
  repeated_opts s = Some l → gqueues s !! l = Some (o :: q) →
  unprocessed_opts s = Some t → t !! opt_name o = Some l →
  ∃ s', pop_repeated s = Ret s' (bool_decide (q ≠ [])) ∧
        popped l (opt_name o) t (gqueues s) q s'.
Proof.
  clear. intros Hm Hr Hq Ht Hl. unfold pop_repeated, g_hash_table_remove, popped.
  rewrite Hr, Hq. destruct q as [|o2 q]; simpl.
  - rewrite Ht, Hl. eexists. split; [done|]. simpl.
    by rewrite delete_insert_eq.
  - eexists. split; [done|]. by simpl.
Qed.

(** The rest of an interval, from the link asked for after its first
    number. *)
Lemma signed_interval_rest member hi l o q t : ∀ n k s,
  list_mode s = LM_SIGNED_INTERVAL →
  range_next s = of_s64 k → range_limit s = of_s64 hi →
  INT64_MIN ≤ k → k + Z.of_nat n = hi → hi ≤ INT64_MAX →
  repeated_opts s = Some l → gqueues s !! l = Some (o :: q) →
  unprocessed_opts s = Some t → t !! opt_name o = Some l →
  ∃ s' tr,
    run (next_list :: mjoin (replicate n [scalar type_int member; next_list])) s
      = Ret s' tr ∧
    values tr = (λ v, Ok (VInt v)) <$> seqZ (k + 1) (Z.of_nat n) ∧
    links tr = replicate n true ++ [bool_decide (q ≠ [])] ∧
    popped l (opt_name o) t (gqueues s) q s'.
Proof.
  induction n as [|n IH]; intros k s Hm Hn Hl Hk Hle Hhi Hr Hq Ht Hkey.
  - destruct (pop_repeated_popped (set_list_mode s LM_IN_PROGRESS) l o q t)
      as (s' & Hpop & Hp); try done.
    assert (exec next_list s = Ret s' (RLink (bool_decide (q ≠ [])))) as E.
    { simpl. unfold opts_next_list. rewrite Hm, Hn, Hl.
      replace hi with k by lia. by rewrite Z.ltb_irrefl, Hpop. }
    exists s'. eexists. split; [cbn [mjoin replicate run]; rewrite E; reflexivity|].
    by split_and!.
  - set (s1 := set_range_next s (of_s64 (k + 1))).
    assert (exec next_list s = Ret s1 (RLink true)) as E1.
    { apply next_list_in_signed_interval with hi; try done. lia. }
    assert (exec (scalar type_int member) s1 = Ret s1 (RValue (Ok (VInt (k + 1))))) as E2.
    { apply type_int_in_signed_interval; try done. lia. }
    destruct (IH (k + 1) s1) as (s' & tr & Hrun & Hv & Hlk & Hp); try done; try lia.
    exists s'. eexists. split.
    { rewrite mjoin_replicate_S. cbn [run app]. rewrite E1, E2. cbv beta iota.
      cbn [run] in Hrun. rewrite Hrun. reflexivity. }
    split_and!; try done.
    + rewrite !values_cons, Hv. rewrite (seqZ_cons (k + 1)) by lia.
      simpl. do 3 f_equal; lia.
    + by rewrite !links_cons, Hlk.
Qed.

(** One element of the list: its numbers, then the queue is popped. *)
Lemma int_element_step member l o q t iv s :
  0 ≤ OPTS_VISITOR_RANGE_MAX ≤ INT64_MAX →
  list_mode s = LM_IN_PROGRESS →
  repeated_opts s = Some l → gqueues s !! l = Some (o :: q) →
  unprocessed_opts s = Some t → t !! opt_name o = Some l →
  int_element OPTS_VISITOR_RANGE_MAX o iv →
  ∃ s' tr,
    run (mjoin (replicate (List.length (interval_values iv))
                  [scalar type_int member; next_list])) s = Ret s' tr ∧
    values tr = (λ v, Ok (VInt v)) <$> interval_values iv ∧
    true :: links tr =
      replicate (List.length (interval_values iv)) true ++ [bool_decide (q ≠ [])] ∧
    popped l (opt_name o) t (gqueues s) q s'.
Proof.
  intros Hcap Hm Hr Hq Ht Hkey Hel. destruct iv as [lo hi].
  assert (lookup_scalar s member = Some (Ok o)) as Hlook.
  { unfold lookup_scalar. by rewrite Hm, Hr, Hq. }
  unfold int_element, interval_values in *. simpl in Hel |- *.
  destruct Hel as [[<- [Hs Ha]]|(Hlit & Hle & Hspan)].
  - replace (lo - lo + 1) with 1 by lia.
    pose proof (strtoll_bounds _ _ _ _ _ Hs) as [Hlo1 Hlo2].
    assert (exec (scalar type_int member) s = Ret s (RValue (Ok (VInt lo)))) as E1.
    { simpl. unfold opts_type_int. rewrite Hm, Hlook. cbv zeta. rewrite Hs.
      cbv beta iota.
      rewrite Ha, (proj2 (Z.leb_le _ _) Hlo1), (proj2 (Z.leb_le _ _) Hlo2).
      cbn [andb Z.eqb]. unfold store_processed, processed. by rewrite Hm. }
    destruct (pop_repeated_popped s l o q t) as (s' & Hpop & Hp); try done.
    assert (exec next_list s = Ret s' (RLink (bool_decide (q ≠ [])))) as E2.
    { simpl. unfold opts_next_list. by rewrite Hm, Hpop. }
    exists s'. eexists. split.
    { change (List.length (seqZ lo 1)) with 1%nat.
      rewrite mjoin_replicate_S. cbn [run app]. rewrite E1, E2. reflexivity. }
    by split_and!.
  - assert (INT64_MIN ≤ lo ∧ hi ≤ INT64_MAX) as [Hlo Hhi].
    { destruct Hlit as (s2 & [H1 _] & [H2 _]).
      apply strtoll_bounds in H1, H2. lia. }
    set (s1 := in_interval s LM_SIGNED_INTERVAL (of_s64 lo) (of_s64 hi)).
    assert (exec (scalar type_int member) s = Ret s1 (RValue (Ok (VInt lo)))) as E1.
    { simpl. rewrite (opts_type_int_accepts OPTS_VISITOR_RANGE_MAX Hcap s member o lo hi)
        by done.
      by rewrite bool_decide_eq_true_2. }
    destruct (signed_interval_rest member hi l o q t (Z.to_nat (hi - lo)) lo s1)
      as (s' & tr & Hrun & Hv & Hlk & Hp); try done; try lia.
    rewrite length_seqZ.
    replace (Z.to_nat (hi - lo + 1)) with (S (Z.to_nat (hi - lo))) by lia.
    exists s'. eexists. split.
    { rewrite mjoin_replicate_S. cbn [run app]. rewrite E1.
      cbn [run] in Hrun. rewrite Hrun. reflexivity. }
    split_and!; try done.
    + rewrite values_cons, Hv, (seqZ_cons lo) by lia. simpl.
      do 3 f_equal; lia.
    + by rewrite links_cons, Hlk.
Qed.

Lemma int_list_loop member t l name : ∀ q ivs o iv s,
  0 ≤ OPTS_VISITOR_RANGE_MAX ≤ INT64_MAX →
  list_mode s = LM_IN_PROGRESS →
  repeated_opts s = Some l → gqueues s !! l = Some (o :: q) →
  unprocessed_opts s = Some t → t !! name = Some l →
  named name (o :: q) →
  Forall2 (int_element OPTS_VISITOR_RANGE_MAX) (o :: q) (iv :: ivs) →
  ∃ s' tr,
    run (mjoin (replicate (List.length (mjoin (interval_values <$> iv :: ivs)))
                  [scalar type_int member; next_list])) s = Ret s' tr ∧
    values tr = (λ v, Ok (VInt v)) <$> mjoin (interval_values <$> iv :: ivs) ∧
    true :: links tr =
      replicate (List.length (mjoin (interval_values <$> iv :: ivs))) true ++ [false] ∧
    unprocessed_opts s' = Some (delete name t) ∧
    gqueues s' = delete l (gqueues s).
Proof.
  induction q as [|o2 q IH]; intros ivs o iv s Hcap Hm Hr Hq Ht Hl Hn Hall;
    apply Forall2_cons in Hall as [Hel Hall];
    apply Forall_cons in Hn as [Hname Hn];
    destruct (int_element_step member l o _ t iv s Hcap Hm Hr Hq Ht)
      as (s1 & tr1 & Hrun1 & Hv1 & Hlk1 & Hm1 & Hr1 & Hp); try done;
    try (by rewrite Hname).
  - apply Forall2_nil_inv_l in Hall as ->. rewrite Hname in Hp.
    destruct Hp as [Ht1 Hh1].
    exists s1, tr1.
    change (mjoin (interval_values <$> [iv])) with (interval_values iv ++ []).
    rewrite app_nil_r. by split_and!.
  - destruct ivs as [|iv2 ivs]; [by apply Forall2_nil_inv_r in Hall|].
    destruct Hp as [Ht1 Hh1].
    destruct (IH ivs o2 iv2 s1) as (s' & tr & Hrun & Hv & Hlk & Ht' & Hh'); try done.
    { by rewrite Hh1, lookup_insert_eq. }
    change (mjoin (interval_values <$> iv :: iv2 :: ivs))
      with (interval_values iv ++ mjoin (interval_values <$> iv2 :: ivs)).
    rewrite length_app, replicate_add, join_app.
    exists s', (tr1 ++ tr). split; [by rewrite run_app, Hrun1, Hrun|].
    split_and!.
    + by rewrite values_app, Hv1, Hv, fmap_app.
    + rewrite links_app, app_comm_cons, Hlk1. rewrite bool_decide_eq_true_2 by done.
      rewrite replicate_add, <- !app_assoc. f_equal. exact Hlk.
    + done.
    + by rewrite Hh', Hh1, delete_insert_eq.
Qed.

(** X8.  A list of signed integers whose elements are numbers and interval
    literals within the cap: the decode yields, element after element in the
    queue's order, the number or every integer of the interval in increasing
    order; [opts_next_list] answers with a link for each of these values and
    with the null link after the last; then the name is out of the table and
    its queue is freed. *)
Theorem int_list_expansion ov t l name member q ivs :
  0 ≤ OPTS_VISITOR_RANGE_MAX ≤ INT64_MAX →
  list_mode ov = LM_NONE →
  unprocessed_opts ov = Some t →
  table_ok t (gqueues ov) →
  t !! name = Some l →
  gqueues ov !! l = Some q →
  Forall2 (int_element OPTS_VISITOR_RANGE_MAX) q ivs →
  ∃ ov' tr,
    run (list_calls name member type_int
           (List.length (mjoin (interval_values <$> ivs)))) ov = Ret ov' tr ∧
    values tr = (λ v, Ok (VInt v)) <$> mjoin (interval_values <$> ivs) ∧
    links tr = replicate (List.length (mjoin (interval_values <$> ivs))) true ++ [false] ∧
    unprocessed_opts ov' = Some (delete name t) ∧
    gqueues ov' = delete l (gqueues ov).
Proof.
  intros Hcap Hm Ht Hok Hl Hq Hall.
  destruct (Hok _ _ Hl) as (q' & Hq' & Hne & Hn). simplify_eq.
  destruct q as [|o q]; [done|].
  destruct ivs as [|iv ivs]; [by apply Forall2_nil_inv_r in Hall|].
  set (s1 := set_list_mode (set_repeated_opts ov (Some l)) LM_STARTED).
  set (s2 := set_list_mode s1 LM_IN_PROGRESS).
  assert (exec (start_list name) ov = Ret s1 (RError None)) as E1.
  { simpl. unfold opts_start_list, lookup_distinct. by rewrite Hm, Ht, Hl. }
  assert (exec next_list s1 = Ret s2 (RLink true)) as E2 by done.
  destruct (int_list_loop member t l name q ivs o iv s2)
    as (s' & tr & Hrun & Hv & Hk & Ht' & Hh); try done.
  exists s'. eexists. split.
  { unfold list_calls. cbn [run]. rewrite E1, E2. cbv beta iota.
    rewrite Hrun. reflexivity. }
  split; [by rewrite !values_cons|]. split; [by rewrite !links_cons|].
  by split.
Qed.

(** ** A list left before its end *)

Lemma string_list_prefix member l : ∀ j q s,
  list_mode s = LM_IN_PROGRESS →
  repeated_opts s = Some l →
  gqueues s !! l = Some q →
  (j < List.length q)%nat →
  ∃ s' tr,
    run (mjoin (replicate j [scalar type_str member; next_list])) s = Ret s' tr ∧
    values tr = (λ o, Ok (VStr (default ""%string (opt_str o)))) <$> take j q ∧
    links tr = replicate j true ∧
    list_mode s' = LM_IN_PROGRESS ∧ repeated_opts s' = Some l ∧
    unprocessed_opts s' = unprocessed_opts s ∧
    depth s' = depth s ∧
    gqueues s' = <[l := drop j q]> (gqueues s).
Proof.
  induction j as [|j IH]; intros q s Hm Hr Hq Hj.
  - exists s, []. split_and!; try done. rewrite drop_0. by rewrite insert_id.
  - destruct q as [|o [|o2 q]]; simpl in Hj; try lia.
    assert (exec (scalar type_str member) s =
              Ret s (RValue (Ok (VStr (default ""%string (opt_str o)))))) as E1.
    { simpl. unfold opts_type_str, lookup_scalar, store_processed, processed.
      by rewrite Hm, Hr, Hq. }
    set (s1 := set_gqueues s (<[l := o2 :: q]> (gqueues s))).
    assert (exec next_list s = Ret s1 (RLink true)) as E2.
    { simpl. unfold opts_next_list, pop_repeated. by rewrite Hm, Hr, Hq. }
    destruct (IH (o2 :: q) s1) as (s' & tr & Hrun & Hv & Hk & Hm' & Hr' & Ht' & Hd' & Hh');
      try done.
    { simpl. by rewrite lookup_insert_eq. }
    { simpl. lia. }
    exists s'. eexists. split.
    { rewrite mjoin_replicate_S. cbn [run app]. rewrite E1, E2. cbv beta iota.
      rewrite Hrun. reflexivity. }
    split_and!; try done.
    + by rewrite !values_cons, Hv.
    + by rewrite !links_cons, Hk.
    + rewrite Hh'. simpl. by rewrite insert_insert_eq.
Qed.

(** X9.  A list is consumed link by link, and only the null link takes its
    name out of the table.  When [opts_end_list] is called after [j + 1]
    elements of a queue of more than [j] have been read, [j] links having been
    asked for after the first, the values read are those of the first [j + 1]
    elements, the queue keeps the elements from the one read last on, and the
    name stays in the table: this holds even when the element read last is the
    last of the queue, as long as the link after it has not been asked for.
    At depth 1 the [opts_end_struct] that follows then reports an invalid
    parameter. *)
Theorem list_left_early ov t l name member q j :
  list_mode ov = LM_NONE →
  unprocessed_opts ov = Some t →
  table_ok t (gqueues ov) →
  t !! name = Some l →
  gqueues ov !! l = Some q →
  (j < List.length q)%nat →
  ∃ ov' tr,
    run (list_calls name member type_str j ++ [scalar type_str member; end_list]) ov
      = Ret ov' tr ∧
    values tr = (λ o, Ok (VStr (default ""%string (opt_str o)))) <$> take (S j) q ∧
    list_mode ov' = LM_NONE ∧ repeated_opts ov' = None ∧
    unprocessed_opts ov' = Some t ∧
    gqueues ov' = <[l := drop j q]> (gqueues ov) ∧
    (depth ov = 1 →
     ∃ ov'' k, is_Some (t !! k) ∧
       opts_end_struct ov' = Ret ov'' (Some (QERR_INVALID_PARAMETER k))).
Proof.
  intros Hm Ht Hok Hl Hq Hj.
  set (s1 := set_list_mode (set_repeated_opts ov (Some l)) LM_STARTED).
  set (s2 := set_list_mode s1 LM_IN_PROGRESS).
  assert (exec (start_list name) ov = Ret s1 (RError None)) as E1.
  { simpl. unfold opts_start_list, lookup_distinct. by rewrite Hm, Ht, Hl. }
  assert (exec next_list s1 = Ret s2 (RLink true)) as E2 by done.
  destruct (string_list_prefix member l j q s2)
    as (s3 & tr & Hrun & Hv & _ & Hm3 & Hr3 & Ht3 & Hd3 & Hh3); try done.
  destruct (drop j q) as [|o q'] eqn:Hdrop.
  { apply (f_equal List.length) in Hdrop. rewrite length_drop in Hdrop.
    simpl in Hdrop. lia. }
  assert (exec (scalar type_str member) s3 =
            Ret s3 (RValue (Ok (VStr (default ""%string (opt_str o)))))) as E3.
  { simpl. unfold opts_type_str, lookup_scalar, store_processed, processed.
    by rewrite Hm3, Hr3, Hh3, lookup_insert_eq. }
  set (s4 := set_list_mode (set_repeated_opts s3 None) LM_NONE).
  assert (exec end_list s3 = Ret s4 RVoid) as E4.
  { simpl. unfold opts_end_list. by rewrite Hm3. }
  exists s4. eexists. split.
  { unfold list_calls. rewrite <- !app_comm_cons. cbn [run].
    rewrite E1, E2. cbv beta iota. rewrite run_app, Hrun. cbn [run].
    rewrite E3, E4. reflexivity. }
  split_and!.
  - rewrite !values_cons, values_app, Hv, !values_cons. simpl.
    rewrite (take_S_r q j o), fmap_app; [done|].
    rewrite <- (Nat.add_0_r j), <- lookup_drop. by rewrite Hdrop.
  - done.
  - done.
  - simpl. by rewrite Ht3.
  - simpl. by rewrite Hh3.
  - intros Hd1.
    assert (table_ok t (gqueues s4)) as Hok4.
    { intros k l' Hk. simpl. rewrite Hh3. simpl.
      destruct (decide (l' = l)) as [->|Hne].
      - rewrite lookup_insert_eq. exists (o :: q'). split_and!; [done..|].
        destruct (Hok _ _ Hk) as (q0 & Hq0 & _ & Hn). simplify_eq.
        rewrite <- Hdrop. by apply Forall_drop.
      - rewrite lookup_insert_ne by done. by apply Hok. }
    destruct (opts_end_struct_outermost s4 t) as [_ Hleft]; try done.
    { simpl. by rewrite Hd3. }
    { simpl. by rewrite Ht3. }
    destruct Hleft as (k & Hk & E5); [by intros ->|]. eauto.
Qed.

(** ** Decoding what the source holds *)

Lemma start_struct_new opts :
  Forall (λ o, opt_name o ≠ "id"%string) (opts_head opts) →
  ∃ s t, exec start_struct (opts_visitor_new opts) = Ret s RVoid ∧
    unprocessed_opts s = Some t ∧ table_ok t (gqueues s) ∧
    list_mode s = LM_NONE ∧
    ∀ k, queue_of (t, gqueues s, next_loc s) k = occurrences opts k.
Proof.
  intros Hid.
  assert (idle (opts_visitor_new opts)) as Hidle by done.
  assert (heap_bounded (gqueues (opts_visitor_new opts)) (next_loc (opts_visitor_new opts)))
    as Hb by (intros l; simpl; rewrite lookup_empty; by intros []).
  destruct (opts_start_struct_outermost (opts_visitor_new opts)) as [Hret Htot];
    [simpl; lia|done|].
  destruct (Htot Hid) as (s & Hs). destruct (Hret _ Hs) as (t0 & _ & _ & _ & _ & Hm & _).
  destruct (opts_start_struct_queue_of _ _ Hidle Hs) as (t & Ht & Hok & Hocc).
  exists s, t. split_and!; try done. simpl. by rewrite Hs.
Qed.

(** X10.  Decoding follows the order of the source.  After the
    outermost [opts_start_struct] on a new visitor over a source with no
    option named "id", a scalar decoded for a name yields the value of the
    name's last occurrence in the source, and a missing-parameter error when
    there is none; a list decoded for a name that occurs yields the values of
    all its occurrences in the order of the source. *)
Theorem decode_follows_source opts name member :
  Forall (λ o, opt_name o ≠ "id"%string) (opts_head opts) →
  (∃ ov tr,
     run [start_struct; scalar type_str name] (opts_visitor_new opts) = Ret ov tr ∧
     values tr =
       [match last (occurrences opts name) with
        | Some o => Ok (VStr (default ""%string (opt_str o)))
        | None => Err (QERR_MISSING_PARAMETER name)
        end]) ∧
  (occurrences opts name ≠ [] →
   ∃ ov tr,
     run (start_struct ::
          list_calls name member type_str (List.length (occurrences opts name)))
       (opts_visitor_new opts) = Ret ov tr ∧
     values tr =
       (λ o, Ok (VStr (default ""%string (opt_str o)))) <$> occurrences opts name).
Proof.
  intros Hid.
  destruct (start_struct_new opts Hid) as (s & t & E0 & Ht & Hok & Hm & Hocc).
  specialize (Hocc name). unfold queue_of in Hocc. simpl in Hocc.
  split.
  - destruct (t !! name) as [l|] eqn:Hl.
    + destruct (Hok _ _ Hl) as (q & Hq & Hne & _).
      rewrite Hq in Hocc. simpl in Hocc. subst q.
      destruct (last (occurrences opts name)) as [o|] eqn:Hlast;
        [|by apply last_None in Hlast].
      assert (∃ s', exec (scalar type_str name) s =
                Ret s' (RValue (Ok (VStr (default ""%string (opt_str o)))))) as [s' E1].
      { simpl. unfold opts_type_str, lookup_scalar, lookup_distinct, store_processed,
          processed, g_hash_table_remove.
        rewrite Hm, Ht, Hl, Hq, Hlast. simpl. eauto. }
      exists s'. eexists. split; [cbn [run]; rewrite E0, E1; reflexivity|done].
    + rewrite <- Hocc.
      assert (exec (scalar type_str name) s =
                Ret s (RValue (Err (QERR_MISSING_PARAMETER name)))) as E1.
      { simpl. unfold opts_type_str, lookup_scalar, lookup_distinct.
        by rewrite Hm, Ht, Hl. }
      exists s. eexists. split; [cbn [run]; rewrite E0, E1; reflexivity|done].
  - intros Hne. destruct (t !! name) as [l|] eqn:Hl; [|by rewrite <- Hocc in Hne].
    destruct (Hok _ _ Hl) as (q & Hq & _ & Hn).
    rewrite Hq in Hocc. simpl in Hocc. subst q.
    destruct (occurrences opts name) as [|o q]; [done|].
    set (s1 := set_list_mode (set_repeated_opts s (Some l)) LM_STARTED).
    set (s2 := set_list_mode s1 LM_IN_PROGRESS).
    assert (exec (start_list name) s = Ret s1 (RError None)) as E1.
    { simpl. unfold opts_start_list, lookup_distinct. by rewrite Hm, Ht, Hl. }
    assert (exec next_list s1 = Ret s2 (RLink true)) as E2 by done.
    destruct (string_list_loop member t l name q o s2)
      as (s' & tr & Hrun & Hv & _); try done.
    exists s'. eexists. split.
    { unfold list_calls. cbn [run]. rewrite E0, E1, E2. cbv beta iota.
      simpl List.length. rewrite Hrun. reflexivity. }
    by rewrite !values_cons.
Qed.

(** ** Cleanup *)

Lemma exec_depth c ov ov' r :
  c ≠ start_struct → c ≠ end_struct →
  exec c ov = Ret ov' r → depth ov' = depth ov.
Proof.
  intros Hs He H. destruct c; try done; simpl in H;
    apply res_map_Ret in H as (a & H & ->).
  - unfold opts_start_list in H. repeat case_match; by simplify_eq.
  - unfold opts_next_list, pop_repeated, g_hash_table_remove in H.
    repeat case_match; by simplify_eq.
  - unfold opts_end_list in H. repeat case_match; by simplify_eq.
  - apply visit_scalar_Ret in H
      as [[-> _]|[(v & _ & H)|(lo & hi & m & v & _ & _ & _ & ->)]]; [done| |done].
    unfold processed, g_hash_table_remove in H. repeat case_match; by simplify_eq.
  - unfold opts_start_optional in H. repeat case_match; by simplify_eq.
Qed.

Lemma exec_no_table c ov ov' r :
  unprocessed_opts ov = None → gqueues ov = ∅ →
  c ≠ start_struct →
  exec c ov = Ret ov' r →
  unprocessed_opts ov' = None ∧ gqueues ov' = ∅ ∧
  (depth ov' = depth ov ∨ (0 < depth ov' ∧ depth ov' = (depth ov - 1) mod 2 ^ 32)).
Proof.
  intros Ht Hh Hs H. destruct c; try done; simpl in H;
    apply res_map_Ret in H as (a & H & ->).
  - unfold opts_end_struct in H.
    destruct (Z.ltb_spec 0 ((depth ov - 1) mod 2 ^ 32)).
    + simplify_eq. simpl. eauto.
    + simpl in H. by rewrite Ht in H.
  - unfold opts_start_list, lookup_distinct in H. rewrite Ht in H.
    by destruct (list_mode ov).
  - unfold opts_next_list, pop_repeated in H. simpl in H. rewrite Hh in H.
    repeat case_match; simplify_eq; try (rewrite lookup_empty in *; simplify_eq);
      simpl; eauto.
  - unfold opts_end_list in H. repeat case_match; simplify_eq; simpl; eauto.
  - apply visit_scalar_Ret in H
      as [[-> _]|[(v & _ & H)|(lo & hi & m & v & _ & _ & _ & ->)]]; [eauto| |simpl; eauto].
    unfold processed, g_hash_table_remove in H. rewrite Ht in H.
    repeat case_match; simplify_eq; eauto.
  - unfold opts_start_optional, lookup_distinct in H. rewrite Ht in H.
    by destruct (list_mode ov).
Qed.

Lemma exec_tidy c d ov ov' r :
  0 ≤ d → d + 1 < 2 ^ 32 →
  tidy d ov → exec c ov = Ret ov' r → tidy (d + 1) ov'.
Proof.
  intros Hd0 Hd [(Ht & Hh & Hdepth)|[Hwf Hle]] H.
  - assert (c = start_struct ∨ c ≠ start_struct) as [->|Hc]
      by (destruct c; auto).
    + simpl in H. apply res_map_Ret in H as (a & H & ->).
      destruct (decide (depth ov = 0)) as [Hz|Hnz].
      * right. destruct (opts_start_struct_idle ov) as [Hidle _]; [done|].
        destruct a. split; [by apply Hidle|].
        destruct (opts_start_struct_outermost ov) as [Hret _];
          [lia|by intros l; rewrite Hh, lookup_empty; intros []|].
        destruct (Hret _ H) as (t & _ & _ & _ & Hd' & _). rewrite Hd', Hz. change ((0 + 1) mod 2 ^ 32) with 1. lia.
      * left. unfold opts_start_struct in H.
        rewrite (proj2 (Z.ltb_lt 0 (depth ov))) in H by lia. simplify_eq. simpl.
        split_and!; try done; apply Z.mod_pos_bound; lia.
    + left. destruct (exec_no_table _ _ _ _ Ht Hh Hc H) as (Ht' & Hh' & [->|[? ->]]);
        split_and!; try done; try lia; apply Z.mod_pos_bound; lia.
  - pose proof (wf_depth _ Hwf) as Hpos.
    assert (c = end_struct ∨ c = start_struct ∨ (c ≠ start_struct ∧ c ≠ end_struct))
      as [->|[->|[Hs He]]] by (destruct c; auto).
    + simpl in H. apply res_map_Ret in H as (a & H & ->).
      destruct (decide (depth ov = 1)) as [Hone|Hmore].
      * left. destruct (opts_end_struct_idle _ _ _ Hwf Hone H) as (Hz & Ht' & Hh').
        split_and!; try done; rewrite Hz; lia.
      * right. unfold opts_end_struct in H.
        rewrite Z.mod_small in H by lia.
        rewrite (proj2 (Z.ltb_lt 0 (depth ov - 1))) in H by lia. simplify_eq.
        split; [|simpl; lia]. destruct Hwf as [_ Htab]. split; [simpl; lia|done].
    + right. simpl in H. apply res_map_Ret in H as (a & H & ->).
      unfold opts_start_struct in H.
      rewrite (proj2 (Z.ltb_lt 0 (depth ov))) in H by lia. simplify_eq.
      simpl. rewrite Z.mod_small by lia.
      split; [|lia]. destruct Hwf as [_ Htab]. split; [simpl; lia|done].
    + right. pose proof (exec_depth _ _ _ _ Hs He H) as Hsame.
      split; [|lia]. eapply exec_wf; [exact Hwf|exact H|lia].
Qed.

Lemma run_tidy cs : ∀ d ov ov' tr,
  0 ≤ d → d + Z.of_nat (List.length cs) < 2 ^ 32 →
  tidy d ov → run cs ov = Ret ov' tr →
  tidy (d + Z.of_nat (List.length cs)) ov'.
Proof.
  induction cs as [|c cs IH]; intros d ov ov' tr Hd0 Hd Ht H; simpl in H.
  - simplify_eq. simpl. by rewrite Z.add_0_r.
  - destruct (exec c ov) as [|ov1 r] eqn:He; [done|].
    destruct (run cs ov1) as [|ov2 tr'] eqn:Hr; [done|]. simplify_eq.
    simpl List.length in *.
    replace (d + Z.of_nat (S (List.length cs)))
      with ((d + 1) + Z.of_nat (List.length cs)) in * by lia.
    eapply IH; [lia|lia| |exact Hr].
    eapply exec_tidy; [exact Hd0|lia|exact Ht|exact He].
Qed.

(** X11.  [opts_visitor_cleanup] leaves no queue behind, wherever a decode
    is abandoned: after any calls on a new visitor (fewer than 2^32 - 1, so
    that the depth counter cannot wrap) that returned, the store of queues is
    empty once the visitor is cleaned up. *)
Theorem opts_visitor_cleanup_frees_all opts cs ov tr :
  Z.of_nat (List.length cs) < 2 ^ 32 - 1 →
  run cs (opts_visitor_new opts) = Ret ov tr →
  opts_visitor_cleanup ov = ∅.
Proof.
  intros Hlen Hrun.
  assert (tidy 0 (opts_visitor_new opts)) as Ht.
  { left. simpl. split_and!; try done. }
  pose proof (run_tidy cs 0 _ _ _ ltac:(lia) ltac:(lia) Ht Hrun) as [(Hn & Hh & _)|[Hwf _]].
  - unfold opts_visitor_cleanup. by rewrite Hn.
  - destruct Hwf as [_ (t & Htab & _ & Hleak)].
    unfold opts_visitor_cleanup. rewrite Htab. by apply destroy_no_leak.
Qed.

End Further.

(** * The further properties at concrete inputs *)

Lemma table_ok_singleton k l h q :
  h !! l = Some q → q ≠ [] → named k q → table_ok {[k := l]} h.
Proof.
  intros Hq Hne Hn k' l' Hk. apply lookup_singleton_Some in Hk as [<- <-]. eauto.
Qed.

(** [opts_start_struct_groups] for [sizes_opts]: "size" given twice, "name"
    once. *)
Lemma opts_start_struct_groups_witness :
  idle (opts_visitor_new sizes_opts) ∧
  opts_start_struct (opts_visitor_new sizes_opts) = Ret sizes_struct () ∧
  ∃ t, unprocessed_opts sizes_struct = Some t ∧
    ∀ k, match t !! k with
         | Some l => gqueues sizes_struct !! l = Some (occurrences sizes_opts k) ∧
                     occurrences sizes_opts k ≠ []
         | None => occurrences sizes_opts k = []
         end.
Proof.
  assert (idle (opts_visitor_new sizes_opts)) as Hidle by (by split_and!).
  assert (opts_start_struct (opts_visitor_new sizes_opts) = Ret sizes_struct ()) as Hs
    by (vm_compute; reflexivity).
  repeat (split; [assumption|]).
  exact (opts_start_struct_groups _ _ Hidle Hs).
Defined.

(** [opts_start_optional_predicts] for "tag" of [tags_opts]. *)
Lemma opts_start_optional_predicts_witness :
  list_mode tags_struct = LM_NONE ∧
  unprocessed_opts tags_struct = Some {["tag"%string := 0%nat]} ∧
  table_ok {["tag"%string := 0%nat]} (gqueues tags_struct) ∧
  opts_start_optional tags_struct "tag" = Ret tags_struct true ∧
  (∃ ov' v, opts_type_str tags_struct "tag" = Ret ov' (Ok v) ∧
            unprocessed_opts ov' =
              Some (delete "tag"%string {["tag"%string := 0%nat]})) ∧
  opts_start_list tags_struct "tag" =
    Ret (set_list_mode (set_repeated_opts tags_struct (Some 0%nat)) LM_STARTED) None.
Proof.
  assert (list_mode tags_struct = LM_NONE) as Hm by (vm_compute; reflexivity).
  assert (unprocessed_opts tags_struct = Some {["tag"%string := 0%nat]}) as Ht
    by (vm_compute; reflexivity).
  assert (table_ok {["tag"%string := 0%nat]} (gqueues tags_struct)) as Hok.
  { apply table_ok_singleton with (opts_head tags_opts);
      [vm_compute; reflexivity|discriminate|by repeat constructor]. }
  repeat (split; [assumption|]).
  pose proof (opts_start_optional_predicts RANGE_MAX_65536 strtosz_bytes tags_struct _
                "tag" Hm Ht Hok) as H.
  assert (({["tag"%string := 0%nat]} : gmap string loc) !! "tag"%string = Some 0%nat)
    as Hl by (vm_compute; reflexivity).
  rewrite Hl in H. exact H.
Defined.

(** [scalar_in_list_ignores_name] for the integer method inside the list of
    [spans_opts]. *)
Lemma scalar_in_list_ignores_name_witness :
  list_mode spans_in_list ≠ LM_NONE ∧
  visit_scalar RANGE_MAX_65536 strtosz_bytes type_int spans_in_list "anything" =
    visit_scalar RANGE_MAX_65536 strtosz_bytes type_int spans_in_list "span".
Proof.
  assert (list_mode spans_in_list ≠ LM_NONE) as Hm by (vm_compute; discriminate).
  split; [assumption|].
  exact (proj1 (scalar_in_list_ignores_name RANGE_MAX_65536 strtosz_bytes type_int
                  spans_in_list "span" Hm) "anything"%string).
Defined.

(** [string_list_in_order] for the list "tag" of [tags_opts]. *)
Lemma string_list_in_order_witness :
  list_mode tags_struct = LM_NONE ∧
  unprocessed_opts tags_struct = Some {["tag"%string := 0%nat]} ∧
  table_ok {["tag"%string := 0%nat]} (gqueues tags_struct) ∧
  ({["tag"%string := 0%nat]} : gmap string loc) !! "tag"%string = Some 0%nat ∧
  gqueues tags_struct !! 0%nat = Some (opts_head tags_opts) ∧
  ∃ ov' tr,
    run RANGE_MAX_65536 strtosz_bytes (list_calls "tag" "str" type_str 3) tags_struct
      = Ret ov' tr ∧
    values tr = [Ok (VStr "a"); Ok (VStr ""); Ok (VStr "c")] ∧
    links tr = [true; true; true; false] ∧
    unprocessed_opts ov' = Some (delete "tag"%string {["tag"%string := 0%nat]}) ∧
    gqueues ov' = delete 0%nat (gqueues tags_struct).
Proof.
  assert (list_mode tags_struct = LM_NONE) as Hm by (vm_compute; reflexivity).
  assert (unprocessed_opts tags_struct = Some {["tag"%string := 0%nat]}) as Ht
    by (vm_compute; reflexivity).
  assert (gqueues tags_struct !! 0%nat = Some (opts_head tags_opts)) as Hq
    by (vm_compute; reflexivity).
  assert (table_ok {["tag"%string := 0%nat]} (gqueues tags_struct)) as Hok.
  { apply table_ok_singleton with (opts_head tags_opts);
      [exact Hq|discriminate|by repeat constructor]. }
  assert (({["tag"%string := 0%nat]} : gmap string loc) !! "tag"%string = Some 0%nat)
    as Hl by (vm_compute; reflexivity).
  repeat (split; [assumption|]).
  exact (string_list_in_order RANGE_MAX_65536 strtosz_bytes tags_struct _ _
           "tag" "str" _ Hm Ht Hok Hl Hq).
Defined.

(** [signed_interval_expansion] for the element "2-4" of [spans_opts], which
    "9" follows. *)
Lemma signed_interval_expansion_witness :
  0 ≤ RANGE_MAX_65536 ≤ INT64_MAX ∧
  list_mode spans_in_list = LM_IN_PROGRESS ∧
  repeated_opts spans_in_list = Some 0%nat ∧
  gqueues spans_in_list !! 0%nat = Some (opts_head spans_opts) ∧
  signed_interval_literal "2-4" 2 4 ∧
  ∃ ov' tr,
    run RANGE_MAX_65536 strtosz_bytes
      (scalar type_int "i64" :: interval_calls "i64" type_int 2) spans_in_list
      = Ret ov' tr ∧
    values tr = [Ok (VInt 2); Ok (VInt 3); Ok (VInt 4)] ∧
    exec RANGE_MAX_65536 strtosz_bytes next_list ov' =
      Ret (set_gqueues (set_list_mode ov' LM_IN_PROGRESS)
             (<[0%nat := [mkQemuOpt "span" (Some "9"%string)]]> (gqueues spans_in_list)))
          (RLink true).
Proof.
  assert (0 ≤ RANGE_MAX_65536 ≤ INT64_MAX) as Hcap by (by vm_compute).
  assert (list_mode spans_in_list = LM_IN_PROGRESS) as Hm by (vm_compute; reflexivity).
  assert (repeated_opts spans_in_list = Some 0%nat) as Hr by (vm_compute; reflexivity).
  assert (gqueues spans_in_list !! 0%nat = Some (opts_head spans_opts)) as Hq
    by (vm_compute; reflexivity).
  assert (signed_interval_literal "2-4" 2 4) as Hlit
    by (exists "4"%string; split; split; vm_compute; reflexivity).
  repeat (split; [assumption|]).
  destruct (signed_interval_expansion RANGE_MAX_65536 strtosz_bytes spans_in_list "i64"
              _ _ _ 2 4 Hcap Hm Hr Hq Hlit ltac:(lia) ltac:(by vm_compute))
    as (ov' & tr & Hrun & Hv & _ & _ & Hnext).
  exists ov', tr. split; [exact Hrun|]. split; [exact Hv|].
  apply Hnext. discriminate.
Defined.


(** [all_decoded_no_leftover] for [sizes_opts], "size" and "name" decoded. *)
Lemma all_decoded_no_leftover_witness :
  Forall (λ o, opt_name o ≠ "id"%string) (opts_head sizes_opts) ∧
  ∃ ov tr,
    run RANGE_MAX_65536 strtosz_bytes
      [start_struct; scalar type_str "size"; scalar type_str "name"; end_struct]
      (opts_visitor_new sizes_opts) = Ret ov tr ∧
    last_reply tr = Some (RError None) ∧
    idle ov.
Proof.
  assert (Forall (λ o, opt_name o ≠ "id"%string) (opts_head sizes_opts)) as Hid
    by (repeat constructor; discriminate).
  split; [assumption|].
  apply (all_decoded_no_leftover RANGE_MAX_65536 strtosz_bytes sizes_opts
           ["size"%string; "name"%string] Hid).
  intros n [Hn|[_ [i Hi]]]; [|discriminate].
  simpl in Hn. set_solver.
Defined.

(** [int_list_expansion] for the list "span" of [spans_opts]: the interval
    "2-4", then the number "9". *)
Lemma int_list_expansion_witness :
  0 ≤ RANGE_MAX_65536 ≤ INT64_MAX ∧
  list_mode spans_struct = LM_NONE ∧
  unprocessed_opts spans_struct = Some {["span"%string := 0%nat]} ∧
  table_ok {["span"%string := 0%nat]} (gqueues spans_struct) ∧
  ({["span"%string := 0%nat]} : gmap string loc) !! "span"%string = Some 0%nat ∧
  gqueues spans_struct !! 0%nat = Some (opts_head spans_opts) ∧
  Forall2 (int_element RANGE_MAX_65536) (opts_head spans_opts) [(2, 4); (9, 9)] ∧
  ∃ ov' tr,
    run RANGE_MAX_65536 strtosz_bytes (list_calls "span" "i64" type_int 4) spans_struct
      = Ret ov' tr ∧
    values tr = [Ok (VInt 2); Ok (VInt 3); Ok (VInt 4); Ok (VInt 9)] ∧
    links tr = [true; true; true; true; false] ∧
    unprocessed_opts ov' = Some (delete "span"%string {["span"%string := 0%nat]}) ∧
    gqueues ov' = delete 0%nat (gqueues spans_struct).
Proof.
  assert (0 ≤ RANGE_MAX_65536 ≤ INT64_MAX) as Hcap by (by vm_compute).
  assert (list_mode spans_struct = LM_NONE) as Hm by (vm_compute; reflexivity).
  assert (unprocessed_opts spans_struct = Some {["span"%string := 0%nat]}) as Ht
    by (vm_compute; reflexivity).
  assert (gqueues spans_struct !! 0%nat = Some (opts_head spans_opts)) as Hq
    by (vm_compute; reflexivity).
  assert (table_ok {["span"%string := 0%nat]} (gqueues spans_struct)) as Hok.
  { apply table_ok_singleton with (opts_head spans_opts);
      [exact Hq|discriminate|by repeat constructor]. }
  assert (({["span"%string := 0%nat]} : gmap string loc) !! "span"%string = Some 0%nat)
    as Hl by (vm_compute; reflexivity).
  assert (Forall2 (int_element RANGE_MAX_65536) (opts_head spans_opts) [(2, 4); (9, 9)])
    as Hall.
  { constructor; [|constructor; [|constructor]].
    - right. split; [|by vm_compute].
      exists "4"%string; split; split; vm_compute; reflexivity.
    - left. split; [reflexivity|]. split; vm_compute; reflexivity. }
  repeat (split; [assumption|]).
  exact (int_list_expansion RANGE_MAX_65536 strtosz_bytes spans_struct _ _
           "span" "i64" _ _ Hcap Hm Ht Hok Hl Hq Hall).
Defined.

(** [list_left_early] for the list "tag" of [tags_opts], ended when its
    three elements have been read and two links asked for after the first. *)
Lemma list_left_early_witness :
  list_mode tags_struct = LM_NONE ∧
  unprocessed_opts tags_struct = Some {["tag"%string := 0%nat]} ∧
  table_ok {["tag"%string := 0%nat]} (gqueues tags_struct) ∧
  ({["tag"%string := 0%nat]} : gmap string loc) !! "tag"%string = Some 0%nat ∧
  gqueues tags_struct !! 0%nat = Some (opts_head tags_opts) ∧
  depth tags_struct = 1 ∧
  ∃ ov' tr,
    run RANGE_MAX_65536 strtosz_bytes
      (list_calls "tag" "str" type_str 2 ++ [scalar type_str "str"; end_list]) tags_struct
      = Ret ov' tr ∧
    values tr = [Ok (VStr "a"); Ok (VStr ""); Ok (VStr "c")] ∧
    unprocessed_opts ov' = Some {["tag"%string := 0%nat]} ∧
    gqueues ov' = <[0%nat := [mkQemuOpt "tag" (Some "c"%string)]]> (gqueues tags_struct) ∧
    ∃ ov'' k, opts_end_struct ov' = Ret ov'' (Some (QERR_INVALID_PARAMETER k)).
Proof.
  assert (list_mode tags_struct = LM_NONE) as Hm by (vm_compute; reflexivity).
  assert (unprocessed_opts tags_struct = Some {["tag"%string := 0%nat]}) as Ht
    by (vm_compute; reflexivity).
  assert (gqueues tags_struct !! 0%nat = Some (opts_head tags_opts)) as Hq
    by (vm_compute; reflexivity).
  assert (table_ok {["tag"%string := 0%nat]} (gqueues tags_struct)) as Hok.
  { apply table_ok_singleton with (opts_head tags_opts);
      [exact Hq|discriminate|by repeat constructor]. }
  assert (({["tag"%string := 0%nat]} : gmap string loc) !! "tag"%string = Some 0%nat)
    as Hl by (vm_compute; reflexivity).
  assert (depth tags_struct = 1) as Hd by (vm_compute; reflexivity).
  repeat (split; [assumption|]).
  destruct (list_left_early RANGE_MAX_65536 strtosz_bytes tags_struct _ _
              "tag" "str" _ 2 Hm Ht Hok Hl Hq ltac:(simpl; lia))
    as (ov' & tr & Hrun & Hv & _ & _ & Ht' & Hh' & Hend).
  destruct (Hend Hd) as (ov'' & k & _ & E).
  exists ov', tr. split_and!; [exact Hrun|exact Hv|exact Ht'|exact Hh'|by exists ov'', k].
Defined.

(** [decode_follows_source] for "size" of [sizes_opts], given as "10" and
    then as "20". *)
Lemma decode_follows_source_witness :
  Forall (λ o, opt_name o ≠ "id"%string) (opts_head sizes_opts) ∧
  occurrences sizes_opts "size" ≠ [] ∧
  (∃ ov tr,
     run RANGE_MAX_65536 strtosz_bytes [start_struct; scalar type_str "size"]
       (opts_visitor_new sizes_opts) = Ret ov tr ∧
     values tr = [Ok (VStr "20")]) ∧
  (∃ ov tr,
     run RANGE_MAX_65536 strtosz_bytes (start_struct :: list_calls "size" "str" type_str 2)
       (opts_visitor_new sizes_opts) = Ret ov tr ∧
     values tr = [Ok (VStr "10"); Ok (VStr "20")]).
Proof.
  assert (Forall (λ o, opt_name o ≠ "id"%string) (opts_head sizes_opts)) as Hid
    by (repeat constructor; discriminate).
  assert (occurrences sizes_opts "size" ≠ []) as Hne by (vm_compute; discriminate).
  repeat (split; [assumption|]).
  destruct (decode_follows_source RANGE_MAX_65536 strtosz_bytes sizes_opts
              "size" "str" Hid) as [Hlast Hlist].
  split; [exact Hlast|exact (Hlist Hne)].
Defined.

(** [opts_visitor_cleanup_frees_all] for a decode of [sizes_opts] given up
    inside the list "size". *)
Lemma opts_visitor_cleanup_frees_all_witness :
  Z.of_nat (List.length [start_struct; start_list "size"; next_list]) < 2 ^ 32 - 1 ∧
  run RANGE_MAX_65536 strtosz_bytes [start_struct; start_list "size"; next_list]
    (opts_visitor_new sizes_opts) =
    Ret (reached sizes_opts [start_struct; start_list "size"; next_list])
        (replies sizes_opts [start_struct; start_list "size"; next_list]) ∧
  gqueues (reached sizes_opts [start_struct; start_list "size"; next_list]) ≠ ∅ ∧
  opts_visitor_cleanup (reached sizes_opts [start_struct; start_list "size"; next_list]) = ∅.
Proof.
  assert (Z.of_nat (List.length [start_struct; start_list "size"; next_list]) < 2 ^ 32 - 1)
    as Hlen by (by vm_compute).
  assert (run RANGE_MAX_65536 strtosz_bytes [start_struct; start_list "size"; next_list]
            (opts_visitor_new sizes_opts) =
          Ret (reached sizes_opts [start_struct; start_list "size"; next_list])
              (replies sizes_opts [start_struct; start_list "size"; next_list])) as Hrun
    by (vm_compute; reflexivity).
  assert (gqueues (reached sizes_opts [start_struct; start_list "size"; next_list]) ≠ ∅)
    as Hlive.
  { intros H. apply (f_equal (λ h, h !! 0%nat)) in H. vm_compute in H. discriminate. }
  repeat (split; [assumption|]).
  exact (opts_visitor_cleanup_frees_all RANGE_MAX_65536 strtosz_bytes sizes_opts
           _ _ _ Hlen Hrun).
Defined.
